(** * bip39_mnemonic_finder: the two finders, embedded and verified

    The repository holds two programs that search a space of BIP39 mnemonics
    for one whose derived addresses hit a target list:
    [find_bip39_mnemonic_st.py] (one flow of control) and
    [find_bip39_mnemonic_mp.py] (a generator process, a pool of checker
    processes and a logger process, connected by two joinable queues and one
    shared stop flag).

    Layout of this development:
    - [Py]        : the Python built-ins and [itertools.product] the code calls;
    - [BipUtils]  : the interface of the [bip_utils] library, as an operational
                    type class (the library is not part of the repository);
    - [Config]    : the block of module-level constants;
    - [Event], [M]: a writer monad recording library calls and log records;
    - [ST], [MP]  : the functions of the two files, under their own names;
    - [Sys]       : the processes of the parallel file as a transition system;
    - [Demo]      : a small library instance to run the code on;
    - the statements' vocabulary, the lemmas and the theorems. *)

From Stdlib Require Import List String Ascii ZArith Lia Bool Permutation Arith.
From Stdlib Require Import DecimalString.
Import ListNotations.

Local Open Scope string_scope.
Local Open Scope Z_scope.
Local Open Scope list_scope.

(** String concatenation of the f-strings, kept apart from list append. *)
Infix "+s+" := String.append (at level 60, right associativity).

(* ================================================================== *)
(** * Python built-ins *)
(* ================================================================== *)

Module Py.

(** [len(xs)] : Python integers are unbounded, hence [Z]. *)
Definition len {A} (xs : list A) : Z := Z.of_nat (List.length xs).

(** [range(0, n)] : empty when [n <= 0]. *)
Definition range (n : Z) : list Z := map Z.of_nat (seq 0 (Z.to_nat n)).

(** [str(i)] for an integer. *)
Definition str (i : Z) : string := NilZero.string_of_int (Z.to_int i).

(** [functools.reduce(operator.mul, xs, init)] : a left fold. *)
Definition reduce_mul (xs : list Z) (init : Z) : Z := fold_left Z.mul xs init.

(** [itertools.product] applied to the unpacked pools, following the equivalent code given in the
    library's documentation:
<<
    result = [[]]
    for pool in pools:
        result = [x+[y] for x in result for y in pool]
>>    *)
Definition product_step {A} (result : list (list A)) (pool : list A) : list (list A) :=
  flat_map (fun x => map (fun y => x ++ [y]) pool) result.

Definition product {A} (pools : list (list A)) : list (list A) :=
  fold_left product_step pools [[]].

(** [x in xs] on a tuple of strings. *)
Definition contains (x : string) (xs : list string) : bool :=
  existsb (String.eqb x) xs.

(** The newline character of the message literals. *)
Definition nl : string := String (ascii_of_nat 10) EmptyString.

End Py.

(* ================================================================== *)
(** * The configuration block *)
(* ================================================================== *)

(** Exceptions [Bip39MnemonicDecoder.Decode] can raise: the checksum error the
    code catches, and the [ValueError] (wrong word count, unknown word) it
    lets through. *)
Inductive Exception : Type :=
| MnemonicChecksumError
| ValueError.

Inductive Result (A : Type) : Type :=
| Ok (a : A)
| Raise (e : Exception).
Arguments Ok {A} a.
Arguments Raise {A} e.

(** The [bip_utils] names the two files import.  Each operation is a total,
    deterministic function (the library's keys and contexts are immutable
    values); only [Decode] has an exceptional outcome the code reacts to. *)
Class BipUtils : Type := {
  Bip39Mnemonic : Type;
  FromList : list string -> Bip39Mnemonic;          (* Bip39Mnemonic.FromList *)
  FromString : string -> Bip39Mnemonic;             (* Bip39Mnemonic.FromString *)
  ToStr : Bip39Mnemonic -> string;                  (* str(mnemonic) *)
  Entropy : Type;
  Decode : Bip39Mnemonic -> Result Entropy;         (* Bip39MnemonicDecoder(ENGLISH).Decode *)
  SeedBytes : Type;
  Generate : Bip39Mnemonic -> string -> SeedBytes;  (* Bip39SeedGenerator(m).Generate(p) *)
  Bip32 : Type;
  FromSeedAndPath : SeedBytes -> string -> Bip32;   (* Bip32Slip10Secp256k1.FromSeedAndPath *)
  DerivePath : Bip32 -> string -> Bip32;
  KeyObject : Type;
  PublicKeyObject : Bip32 -> KeyObject;             (* .PublicKey().KeyObject() *)
  AddrEncoder : Type;                               (* Type[IAddrEncoder] *)
  EncoderParams : Type;
  EncodeKey : AddrEncoder -> KeyObject -> EncoderParams -> string;
  Bip44Coins : Type;
  Bip44Changes : Type;
  Bip44 : Type;
  FromSeed : SeedBytes -> Bip44Coins -> Bip44;      (* Bip44.FromSeed *)
  Purpose : Bip44 -> Bip44;
  Coin : Bip44 -> Bip44;
  Account : Bip44 -> Z -> Bip44;
  Change : Bip44 -> Bip44Changes -> Bip44;
  AddressIndex : Bip44 -> Z -> Bip44;
  ToAddress : Bip44 -> string                       (* .PublicKey().ToAddress() *)
}.

(** The constants of the "Configuration" part of the files.  The single-flow
    file has no queue sizes and no process count; it ignores those fields. *)
Record Config {L : BipUtils} : Type := {
  BIP32_ENABLED : bool;
  BIP32_DERIVATION_PATHS : list string;
  BIP32_ADDRESSES_NUM : Z;
  BIP32_ADDR_ENCODER_CLS : AddrEncoder;
  BIP32_ADDR_ENCODER_PARAMS : EncoderParams;
  BIP44_ENABLED : bool;
  BIP44_COIN : Bip44Coins;
  BIP44_CHANGE : Bip44Changes;
  BIP44_ACCOUNTS_NUM : Z;
  BIP44_ADDRESSES_NUM : Z;
  MNEMONIC_PASSPHRASES : list string;
  MNEMONIC_FIXED : string;
  MNEMONIC_WORDS : list (list string);
  ADDRESSES_TO_SEARCH : list string;
  LOG_QUEUE_MAX_SIZE : Z;
  MNEMONIC_QUEUE_MAX_SIZE : Z;
  PROCESS_NUM : Z;
  VERBOSE : bool
}.
Arguments Config L : clear implicits.

(* ================================================================== *)
(** * Totals printed by [main] (identical in both files) *)
(* ================================================================== *)

Section Totals.
Context {L : BipUtils} (cfg : Config L).

Definition get_total_mnemonic_combinations : Z :=
  if negb (MNEMONIC_FIXED cfg =? "")%string then 1
  else Py.reduce_mul (map Py.len (MNEMONIC_WORDS cfg)) 1.

Definition get_total_addresses : Z :=
  let bip32_addr_num :=
    if BIP32_ENABLED cfg
    then Py.len (BIP32_DERIVATION_PATHS cfg) * BIP32_ADDRESSES_NUM cfg else 0 in
  let bip44_addr_num :=
    if BIP44_ENABLED cfg
    then BIP44_ADDRESSES_NUM cfg * BIP44_ACCOUNTS_NUM cfg else 0 in
  let total_addr_num :=
    (bip32_addr_num + bip44_addr_num) * Py.len (MNEMONIC_PASSPHRASES cfg) in
  get_total_mnemonic_combinations * total_addr_num.

End Totals.

(** The spec's reading of the candidate space: the product of the slot
    cardinalities, and the lexicographic product of the slots (first slot
    slowest, last slot fastest). *)
Fixpoint slot_cardinality_product {A} (slots : list (list A)) : Z :=
  match slots with
  | [] => 1
  | s :: rest => Py.len s * slot_cardinality_product rest
  end.

Fixpoint lex_product {A} (slots : list (list A)) : list (list A) :=
  match slots with
  | [] => [[]]
  | s :: rest => flat_map (fun w => map (cons w) (lex_product rest)) s
  end.

(** The candidate at rank [k] of the lexicographic product, read off as the
    digits of [k] in the mixed radix given by the slot sizes: the last slot
    is the least significant digit. *)
Fixpoint candidate_at {A} (slots : list (list A)) (k : nat) : option (list A) :=
  match slots with
  | [] => match k with O => Some [] | S _ => None end
  | s :: rest =>
      let block := List.length (lex_product rest) in
      match nth_error s (k / block), candidate_at rest (k mod block) with
      | Some w, Some c => Some (w :: c)
      | _, _ => None
      end
  end.

(* ================================================================== *)
(** * Traces: library calls and log records, in program order *)
(* ================================================================== *)

(** One event per statement of the source that derives key material, and one
    per record that reaches the log (a [put] on the logger queue in the
    parallel file, a record the root logger accepts in the single-flow file).
    The trace is ghost state: it is what "how many derivations ran" and
    "which record was written" are stated on. *)
Inductive Event {L : BipUtils} : Type :=
| EvDecode (mnemonic : Bip39Mnemonic)
| EvBip32Ctx (passphrase path : string)
| EvBip32Addr (passphrase path : string) (i : Z) (addr : string)
| EvBip44Ctx (passphrase : string)
| EvBip44Account (passphrase : string) (i : Z)
| EvBip44Addr (passphrase : string) (i j : Z) (addr : string)
| EvLog (msg : string)
| EvPrint (msg : string).

Definition M {L : BipUtils} (A : Type) : Type := (A * list Event)%type.

Definition ret {L : BipUtils} {A} (a : A) : M A := (a, []).

Definition bind {L : BipUtils} {A B} (c : M A) (k : A -> M B) : M B :=
  (fst (k (fst c)), snd c ++ snd (k (fst c))).

Definition tell {L : BipUtils} (e : Event) : M unit := (tt, [e]).

Declare Scope trace_scope.
Delimit Scope trace_scope with trace.
Notation "x <- c ;; k" := (bind c (fun x => k))
  (at level 100, c at next level, right associativity) : trace_scope.
Notation "c ;; k" := (bind c (fun _ => k))
  (at level 100, right associativity) : trace_scope.
Local Open Scope trace_scope.

(** A [for] loop whose body may execute [return True]. *)
Inductive Flow (S : Type) : Type :=
| Continue (s : S)
| ReturnTrue.
Arguments Continue {S} s.
Arguments ReturnTrue {S}.

Fixpoint for_in {L : BipUtils} {A S} (xs : list A) (body : A -> S -> M (Flow S)) (s : S)
  : M (Flow S) :=
  match xs with
  | [] => ret (Continue s)
  | x :: xs' =>
      r <- body x s ;;
      match r with
      | ReturnTrue => ret ReturnTrue
      | Continue s' => for_in xs' body s'
      end
  end.

Definition returned_true {S} (r : Flow S) : bool :=
  match r with ReturnTrue => true | Continue _ => false end.

(** What an event says about passphrases and derived addresses. *)
Definition event_passphrase {L : BipUtils} (e : Event) : option string :=
  match e with
  | EvBip32Ctx p _ | EvBip32Addr p _ _ _ | EvBip44Ctx p
  | EvBip44Account p _ | EvBip44Addr p _ _ _ => Some p
  | EvDecode _ | EvLog _ | EvPrint _ => None
  end.

Definition event_addr {L : BipUtils} (e : Event) : option string :=
  match e with
  | EvBip32Addr _ _ _ a | EvBip44Addr _ _ _ a => Some a
  | _ => None
  end.

Definition is_derivation {L : BipUtils} (e : Event) : bool :=
  match event_passphrase e with Some _ => true | None => false end.

Definition log_records {L : BipUtils} (t : list Event) : list string :=
  flat_map (fun e => match e with EvLog msg => [msg] | _ => [] end) t.

Definition decoded {L : BipUtils} (t : list Event) : list Bip39Mnemonic :=
  flat_map (fun e => match e with EvDecode m => [m] | _ => [] end) t.

(** The two address computations, as the loops spell them. *)
Definition bip32_address {L : BipUtils} (cfg : Config L)
  (mnemonic : Bip39Mnemonic) (passphrase path : string) (i : Z) : string :=
  EncodeKey (BIP32_ADDR_ENCODER_CLS cfg)
    (PublicKeyObject
       (DerivePath (FromSeedAndPath (Generate mnemonic passphrase) path) (Py.str i)))
    (BIP32_ADDR_ENCODER_PARAMS cfg).

Definition bip44_address {L : BipUtils} (cfg : Config L)
  (mnemonic : Bip39Mnemonic) (passphrase : string) (i j : Z) : string :=
  ToAddress
    (AddressIndex
       (Change
          (Account (Coin (Purpose (FromSeed (Generate mnemonic passphrase) (BIP44_COIN cfg)))) i)
          (BIP44_CHANGE cfg))
       j).

(* ================================================================== *)
(** * find_bip39_mnemonic_st.py *)
(* ================================================================== *)

Module ST.
Section Functions.
Context {L : BipUtils} (cfg : Config L).

(** [logging.DEBUG], [logging.INFO], and the level [configure_logger] gives
    the root logger. *)
Definition DEBUG : Z := 10.
Definition INFO : Z := 20.
Definition root_level : Z := if VERBOSE cfg then DEBUG else INFO.

(** A record is handled when its level is at least the logger's. *)
Definition logging_log (level : Z) (msg : string) : M unit :=
  if root_level <=? level then tell (EvLog msg) else ret tt.

Definition log (msg : string) : M unit := logging_log INFO msg.

Definition log_verbose (msg : string) : M unit := logging_log DEBUG msg.

Definition found_msg (addr : string) (mnemonic : Bip39Mnemonic) (passphrase : string) : string :=
  "    Found: " +s+ addr +s+ ", mnemonic: " +s+ ToStr mnemonic +s+ ", passphrase: " +s+ passphrase.

Definition bip32_index_body (mnemonic : Bip39Mnemonic) (passphrase path : string)
  (bip32_ctx : Bip32) (i : Z) (_ : unit) : M (Flow unit) :=
  let addr := EncodeKey (BIP32_ADDR_ENCODER_CLS cfg)
                (PublicKeyObject (DerivePath bip32_ctx (Py.str i)))
                (BIP32_ADDR_ENCODER_PARAMS cfg) in
  tell (EvBip32Addr passphrase path i addr) ;;
  log_verbose ("    BIP32 Address " +s+ Py.str i +s+ ": " +s+ addr) ;;
  if Py.contains addr (ADDRESSES_TO_SEARCH cfg)
  then log (found_msg addr mnemonic passphrase) ;; ret ReturnTrue
  else ret (Continue tt).

Definition bip32_path_body (mnemonic : Bip39Mnemonic) (passphrase : string)
  (path : string) (_ : unit) : M (Flow unit) :=
  log_verbose ("  BIP32 Derivation path: " +s+ path) ;;
  tell (EvBip32Ctx passphrase path) ;;
  let bip32_ctx := FromSeedAndPath (Generate mnemonic passphrase) path in
  for_in (Py.range (BIP32_ADDRESSES_NUM cfg))
    (bip32_index_body mnemonic passphrase path bip32_ctx) tt.

Definition derive_bip32_addresses (mnemonic : Bip39Mnemonic) (passphrase : string) : M bool :=
  if negb (BIP32_ENABLED cfg) then ret false
  else
    log_verbose ("Mnemonic: " +s+ ToStr mnemonic +s+ ", passphrase: " +s+ passphrase) ;;
    r <- for_in (BIP32_DERIVATION_PATHS cfg) (bip32_path_body mnemonic passphrase) tt ;;
    ret (returned_true r).

Definition bip44_index_body (mnemonic : Bip39Mnemonic) (passphrase : string)
  (i : Z) (bip44_chg_ctx : Bip44) (j : Z) (_ : unit) : M (Flow unit) :=
  let addr := ToAddress (AddressIndex bip44_chg_ctx j) in
  tell (EvBip44Addr passphrase i j addr) ;;
  log_verbose ("    BIP44 Address " +s+ Py.str j +s+ ": " +s+ addr) ;;
  if Py.contains addr (ADDRESSES_TO_SEARCH cfg)
  then log (found_msg addr mnemonic passphrase) ;; ret ReturnTrue
  else ret (Continue tt).

Definition bip44_account_body (mnemonic : Bip39Mnemonic) (passphrase : string)
  (bip44_ctx : Bip44) (i : Z) (_ : unit) : M (Flow unit) :=
  log_verbose ("  BIP44 Account: " +s+ Py.str i) ;;
  tell (EvBip44Account passphrase i) ;;
  let bip44_chg_ctx := Change (Account bip44_ctx i) (BIP44_CHANGE cfg) in
  for_in (Py.range (BIP44_ADDRESSES_NUM cfg))
    (bip44_index_body mnemonic passphrase i bip44_chg_ctx) tt.

Definition derive_bip44_addresses (mnemonic : Bip39Mnemonic) (passphrase : string) : M bool :=
  if negb (BIP44_ENABLED cfg) then ret false
  else
    log_verbose ("Mnemonic: " +s+ ToStr mnemonic +s+ ", passphrase: " +s+ passphrase) ;;
    tell (EvBip44Ctx passphrase) ;;
    let bip44_ctx := Coin (Purpose (FromSeed (Generate mnemonic passphrase) (BIP44_COIN cfg))) in
    r <- for_in (Py.range (BIP44_ACCOUNTS_NUM cfg))
           (bip44_account_body mnemonic passphrase bip44_ctx) tt ;;
    ret (returned_true r).

Definition passphrase_body (mnemonic : Bip39Mnemonic) (passphrase : string) (_ : unit)
  : M (Flow unit) :=
  b32 <- derive_bip32_addresses mnemonic passphrase ;;
  if b32 then ret ReturnTrue
  else
    b44 <- derive_bip44_addresses mnemonic passphrase ;;
    if b44 then ret ReturnTrue else ret (Continue tt).

(** [try: Decode(...) / except MnemonicChecksumError: pass / else: ...]. *)
Definition check_mnemonic (mnemonic : Bip39Mnemonic) : M (Result bool) :=
  tell (EvDecode mnemonic) ;;
  match Decode mnemonic with
  | Raise MnemonicChecksumError => ret (Ok false)
  | Raise e => ret (Raise e)
  | Ok _ =>
      r <- for_in (MNEMONIC_PASSPHRASES cfg) (passphrase_body mnemonic) tt ;;
      ret (Ok (returned_true r))
  end.

(** The loop of [find_mnemonic] over [itertools.product]: it returns at the
    first candidate whose check is true; an exception of the check leaves
    the loop as it leaves the function. *)
Fixpoint find_mnemonic_loop (tuples : list (list string)) : M (Result unit) :=
  match tuples with
  | [] => ret (Ok tt)
  | mnemonic_list :: rest =>
      let mnemonic := FromList mnemonic_list in
      r <- check_mnemonic mnemonic ;;
      match r with
      | Ok true => tell (EvPrint ("  Found: " +s+ ToStr mnemonic)) ;; ret (Ok tt)
      | Ok false => find_mnemonic_loop rest
      | Raise e => ret (Raise e)
      end
  end.

Definition find_mnemonic : M (Result unit) :=
  find_mnemonic_loop (Py.product (MNEMONIC_WORDS cfg)).

(** The search part of [main] (the header, the totals and the elapsed time
    it prints are left out). *)
Definition main : M (Result unit) :=
  let total_addresses := get_total_addresses cfg in
  if total_addresses =? 0 then
    tell (EvPrint "No address to check, exiting...") ;; ret (Ok tt)
  else if negb (MNEMONIC_FIXED cfg =? "")%string then
    r <- check_mnemonic (FromString (MNEMONIC_FIXED cfg)) ;;
    match r with
    | Ok _ => ret (Ok tt)
    | Raise e => ret (Raise e)
    end
  else
    tell (EvPrint "Processing...") ;; find_mnemonic.

End Functions.
End ST.

(* ================================================================== *)
(** * find_bip39_mnemonic_mp.py: the functions a checker process runs *)
(* ================================================================== *)

Module MP.
Section Functions.
Context {L : BipUtils} (cfg : Config L).

(** [logger_queue.put(msg)]: the trace holds the puts in order; the process
    model below moves them onto the shared queue one at a time. *)
Definition log (msg : string) : M unit := tell (EvLog msg).

Definition log_verbose (msg : string) : M unit :=
  if VERBOSE cfg then tell (EvLog msg) else ret tt.

Definition found_msg (addr : string) (mnemonic : Bip39Mnemonic) (passphrase : string) : string :=
  Py.nl +s+ "    Found: " +s+ addr +s+ ", mnemonic: " +s+ ToStr mnemonic
  +s+ ", passphrase: " +s+ passphrase.

Definition bip32_index_body (mnemonic : Bip39Mnemonic) (passphrase path : string)
  (bip32_ctx : Bip32) (i : Z) (msg : string) : M (Flow string) :=
  let addr := EncodeKey (BIP32_ADDR_ENCODER_CLS cfg)
                (PublicKeyObject (DerivePath bip32_ctx (Py.str i)))
                (BIP32_ADDR_ENCODER_PARAMS cfg) in
  tell (EvBip32Addr passphrase path i addr) ;;
  let msg := msg +s+ Py.nl +s+ "    BIP32 Address " +s+ Py.str i +s+ ": " +s+ addr in
  if Py.contains addr (ADDRESSES_TO_SEARCH cfg)
  then log (found_msg addr mnemonic passphrase) ;; ret ReturnTrue
  else ret (Continue msg).

Definition bip32_path_body (mnemonic : Bip39Mnemonic) (passphrase : string)
  (path : string) (msg : string) : M (Flow string) :=
  let msg := msg +s+ Py.nl +s+ "  BIP32 Derivation path: " +s+ path in
  tell (EvBip32Ctx passphrase path) ;;
  let bip32_ctx := FromSeedAndPath (Generate mnemonic passphrase) path in
  for_in (Py.range (BIP32_ADDRESSES_NUM cfg))
    (bip32_index_body mnemonic passphrase path bip32_ctx) msg.

Definition derive_bip32_addresses (mnemonic : Bip39Mnemonic) (passphrase : string) : M bool :=
  if negb (BIP32_ENABLED cfg) then ret false
  else
    let msg := "Mnemonic: " +s+ ToStr mnemonic +s+ ", passphrase: " +s+ passphrase in
    r <- for_in (BIP32_DERIVATION_PATHS cfg) (bip32_path_body mnemonic passphrase) msg ;;
    match r with
    | ReturnTrue => ret true
    | Continue msg => log_verbose msg ;; ret false
    end.

Definition bip44_index_body (mnemonic : Bip39Mnemonic) (passphrase : string)
  (i : Z) (bip44_chg_ctx : Bip44) (j : Z) (msg : string) : M (Flow string) :=
  let addr := ToAddress (AddressIndex bip44_chg_ctx j) in
  tell (EvBip44Addr passphrase i j addr) ;;
  let msg := msg +s+ Py.nl +s+ "    BIP44 Address " +s+ Py.str j +s+ ": " +s+ addr in
  if Py.contains addr (ADDRESSES_TO_SEARCH cfg)
  then log (found_msg addr mnemonic passphrase) ;; ret ReturnTrue
  else ret (Continue msg).

Definition bip44_account_body (mnemonic : Bip39Mnemonic) (passphrase : string)
  (bip44_ctx : Bip44) (i : Z) (msg : string) : M (Flow string) :=
  let msg := msg +s+ Py.nl +s+ "  BIP44 Account: " +s+ Py.str i in
  tell (EvBip44Account passphrase i) ;;
  let bip44_chg_ctx := Change (Account bip44_ctx i) (BIP44_CHANGE cfg) in
  for_in (Py.range (BIP44_ADDRESSES_NUM cfg))
    (bip44_index_body mnemonic passphrase i bip44_chg_ctx) msg.

Definition derive_bip44_addresses (mnemonic : Bip39Mnemonic) (passphrase : string) : M bool :=
  if negb (BIP44_ENABLED cfg) then ret false
  else
    let msg := "Mnemonic: " +s+ ToStr mnemonic +s+ ", passphrase: " +s+ passphrase in
    tell (EvBip44Ctx passphrase) ;;
    let bip44_ctx := Coin (Purpose (FromSeed (Generate mnemonic passphrase) (BIP44_COIN cfg))) in
    r <- for_in (Py.range (BIP44_ACCOUNTS_NUM cfg))
           (bip44_account_body mnemonic passphrase bip44_ctx) msg ;;
    match r with
    | ReturnTrue => ret true
    | Continue msg => log_verbose msg ;; ret false
    end.

Definition passphrase_body (mnemonic : Bip39Mnemonic) (passphrase : string) (_ : unit)
  : M (Flow unit) :=
  b32 <- derive_bip32_addresses mnemonic passphrase ;;
  if b32 then ret ReturnTrue
  else
    b44 <- derive_bip44_addresses mnemonic passphrase ;;
    if b44 then ret ReturnTrue else ret (Continue tt).

Definition check_mnemonic (mnemonic : Bip39Mnemonic) : M (Result bool) :=
  tell (EvDecode mnemonic) ;;
  match Decode mnemonic with
  | Raise MnemonicChecksumError => ret (Ok false)
  | Raise e => ret (Raise e)
  | Ok _ =>
      r <- for_in (MNEMONIC_PASSPHRASES cfg) (passphrase_body mnemonic) tt ;;
      ret (Ok (returned_true r))
  end.

End Functions.
End MP.

(* ================================================================== *)
(** * find_bip39_mnemonic_mp.py: the processes *)
(* ================================================================== *)

(** [multiprocessing.JoinableQueue]: the buffered items, the count of
    unfinished tasks ([put] adds one, [task_done] removes one, [join] waits
    for zero) and the capacity ([maxsize <= 0]: no bound).

    [q_put] is one atomic step: the item is counted, takes its place and is
    there for [get] at once.  The library's [put] counts the item and takes
    the place at once too, but hands the item to a feeder thread of the
    putting process, which sends it a little later.  For one producer the
    items still arrive in the order of the [put]s, which is the case of the
    candidate queue (the generator, or the parent for a fixed mnemonic) and
    of the logger queue with a single checker.  With several checkers the
    order in which records of different checkers arrive is not fixed by the
    order of their [put]s; nothing below relies on it: the properties of the
    logger queue with several producers are about counts, capacity and which
    records are there, and the order of the log is stated for one checker
    only. *)
Record JoinableQueue (A : Type) : Type := {
  items : list A;
  unfinished_tasks : nat;
  maxsize : Z
}.
Arguments items {A} _.
Arguments unfinished_tasks {A} _.
Arguments maxsize {A} _.

Definition q_new {A} (maxsize : Z) : JoinableQueue A :=
  {| items := []; unfinished_tasks := 0; maxsize := maxsize |}.

Definition q_full {A} (q : JoinableQueue A) : bool :=
  (0 <? maxsize q) && (maxsize q <=? Py.len (items q)).

Definition q_put {A} (x : A) (q : JoinableQueue A) : JoinableQueue A :=
  {| items := items q ++ [x];
     unfinished_tasks := S (unfinished_tasks q);
     maxsize := maxsize q |}.

Definition q_get {A} (q : JoinableQueue A) : option (A * JoinableQueue A) :=
  match items q with
  | [] => None
  | x :: rest =>
      Some (x, {| items := rest;
                  unfinished_tasks := unfinished_tasks q;
                  maxsize := maxsize q |})
  end.

Definition q_task_done {A} (q : JoinableQueue A) : JoinableQueue A :=
  {| items := items q;
     unfinished_tasks := Nat.pred (unfinished_tasks q);
     maxsize := maxsize q |}.

Module Sys.
Section Processes.
Context {L : BipUtils} (cfg : Config L).

(** What the processes share: the stop flag, the two queues, the log file
    the logger appends to and the terminal.  The last three fields are
    ghost history: what the generator has put, what the checkers have
    taken, and the checks that ran to their end, each in order of
    occurrence. *)
Record Shared : Type := {
  stop_processing : bool;
  mnemonic_queue : JoinableQueue Bip39Mnemonic;
  logger_queue : JoinableQueue string;
  log_file : list string;
  stdout : list string;
  generated : list Bip39Mnemonic;
  pulled : list Bip39Mnemonic;
  completed : list (Bip39Mnemonic * Result bool)
}.

Definition set_stop (b : bool) (sh : Shared) : Shared :=
  {| stop_processing := b; mnemonic_queue := mnemonic_queue sh;
     logger_queue := logger_queue sh; log_file := log_file sh; stdout := stdout sh;
     generated := generated sh; pulled := pulled sh; completed := completed sh |}.

Definition set_mnemonic_queue (q : JoinableQueue Bip39Mnemonic) (sh : Shared) : Shared :=
  {| stop_processing := stop_processing sh; mnemonic_queue := q;
     logger_queue := logger_queue sh; log_file := log_file sh; stdout := stdout sh;
     generated := generated sh; pulled := pulled sh; completed := completed sh |}.

Definition set_logger_queue (q : JoinableQueue string) (sh : Shared) : Shared :=
  {| stop_processing := stop_processing sh; mnemonic_queue := mnemonic_queue sh;
     logger_queue := q; log_file := log_file sh; stdout := stdout sh;
     generated := generated sh; pulled := pulled sh; completed := completed sh |}.

Definition write_log (msg : string) (sh : Shared) : Shared :=
  {| stop_processing := stop_processing sh; mnemonic_queue := mnemonic_queue sh;
     logger_queue := logger_queue sh; log_file := log_file sh ++ [msg];
     stdout := stdout sh;
     generated := generated sh; pulled := pulled sh; completed := completed sh |}.

Definition print (msg : string) (sh : Shared) : Shared :=
  {| stop_processing := stop_processing sh; mnemonic_queue := mnemonic_queue sh;
     logger_queue := logger_queue sh; log_file := log_file sh;
     stdout := stdout sh ++ [msg];
     generated := generated sh; pulled := pulled sh; completed := completed sh |}.

Definition note_generated (m : Bip39Mnemonic) (sh : Shared) : Shared :=
  {| stop_processing := stop_processing sh; mnemonic_queue := mnemonic_queue sh;
     logger_queue := logger_queue sh; log_file := log_file sh; stdout := stdout sh;
     generated := generated sh ++ [m]; pulled := pulled sh; completed := completed sh |}.

Definition note_pulled (m : Bip39Mnemonic) (sh : Shared) : Shared :=
  {| stop_processing := stop_processing sh; mnemonic_queue := mnemonic_queue sh;
     logger_queue := logger_queue sh; log_file := log_file sh; stdout := stdout sh;
     generated := generated sh; pulled := pulled sh ++ [m]; completed := completed sh |}.

Definition note_completed (m : Bip39Mnemonic) (r : Result bool) (sh : Shared) : Shared :=
  {| stop_processing := stop_processing sh; mnemonic_queue := mnemonic_queue sh;
     logger_queue := logger_queue sh; log_file := log_file sh; stdout := stdout sh;
     generated := generated sh; pulled := pulled sh;
     completed := completed sh ++ [(m, r)] |}.

(** ** [logger_process_fct]

    [LTest]: at [while not stop_processing.value];
    [LGet]: in [logger_queue.get(timeout=1)];
    [LGot msg]: before [logger.info(msg); logger_queue.task_done()]. *)
Inductive LoggerPc : Type :=
| LTest
| LGet
| LGot (msg : string)
| LExited.

Definition logger_step (sh : Shared) (pc : LoggerPc) : option (Shared * LoggerPc) :=
  match pc with
  | LTest => Some (sh, if stop_processing sh then LExited else LGet)
  | LGet =>
      match q_get (logger_queue sh) with
      | None => Some (sh, LTest)                              (* queue.Empty: pass *)
      | Some (msg, q) => Some (set_logger_queue q sh, LGot msg)
      end
  | LGot msg =>
      let sh := write_log msg sh in
      Some (set_logger_queue (q_task_done (logger_queue sh)) sh, LTest)
  | LExited => None
  end.

(** ** [mnemonic_checker_process_fct]

    [WTest]: at [while not stop_processing.value];
    [WGet]: in [mnemonic_queue.get(timeout=1)];
    [WChecking m pending r]: inside [check_mnemonic(m)], whose derivations
    are local and whose only shared effect is the sequence of [put]s on the
    logger queue; [pending] are the puts still to be made (a [put] waits
    while the queue is full) and [r] is the outcome the call ends with;
    [WCrashed e]: the process died of an exception [check_mnemonic] raised. *)
Inductive CheckerPc : Type :=
| WTest
| WGet
| WChecking (mnemonic : Bip39Mnemonic) (pending : list string) (r : Result bool)
| WExited
| WCrashed (e : Exception).

Definition checker_step (sh : Shared) (pc : CheckerPc) : option (Shared * CheckerPc) :=
  match pc with
  | WTest => Some (sh, if stop_processing sh then WExited else WGet)
  | WGet =>
      match q_get (mnemonic_queue sh) with
      | None => Some (sh, WTest)                              (* queue.Empty: pass *)
      | Some (mnemonic, q) =>
          let c := MP.check_mnemonic cfg mnemonic in
          Some (note_pulled mnemonic (set_mnemonic_queue q sh),
                WChecking mnemonic (log_records (snd c)) (fst c))
      end
  | WChecking mnemonic (msg :: pending) r =>
      if q_full (logger_queue sh) then None
      else Some (set_logger_queue (q_put msg (logger_queue sh)) sh,
                 WChecking mnemonic pending r)
  | WChecking mnemonic [] (Ok true) =>
      let sh := note_completed mnemonic (Ok true) sh in
      let sh := print ("  Found: " +s+ ToStr mnemonic) sh in
      Some (set_stop true sh, WExited)                        (* break *)
  | WChecking mnemonic [] (Ok false) =>
      let sh := note_completed mnemonic (Ok false) sh in
      Some (set_mnemonic_queue (q_task_done (mnemonic_queue sh)) sh, WTest)
  | WChecking mnemonic [] (Raise e) =>
      Some (note_completed mnemonic (Raise e) sh, WCrashed e)
  | WExited => None
  | WCrashed _ => None
  end.

(** ** [mnemonic_generator_process_fct]

    [GTest rest]: at the head of the [for] loop, [rest] being what the
    product iterator has still to yield;
    [GPut m rest]: in [mnemonic_queue.put(m)]. *)
Inductive GeneratorPc : Type :=
| GTest (rest : list (list string))
| GPut (mnemonic : Bip39Mnemonic) (rest : list (list string))
| GExited.

Definition generator_step (sh : Shared) (pc : GeneratorPc) : option (Shared * GeneratorPc) :=
  match pc with
  | GTest [] => Some (sh, GExited)                            (* close() *)
  | GTest (mnemonic :: rest) =>
      if stop_processing sh then Some (sh, GExited)           (* break; close() *)
      else Some (sh, GPut (FromList mnemonic) rest)
  | GPut mnemonic rest =>
      if q_full (mnemonic_queue sh) then None
      else Some (note_generated mnemonic
                   (set_mnemonic_queue (q_put mnemonic (mnemonic_queue sh)) sh),
                 GTest rest)
  | GExited => None
  end.

(** ** The parent: [check_all_mnemonics] and [check_single_mnemonic]
    after they have started their children. *)
Inductive MainPc : Type :=
| MJoinGenerator
| MJoinMnemonicQueue
| MJoinLoggerQueue
| MSetStop
| MJoinCheckers
| MJoinLogger
| MReturned.

Record System : Type := {
  shared : Shared;
  logger : LoggerPc;
  checkers : list CheckerPc;
  generator : GeneratorPc;
  main : MainPc
}.

Definition terminated (pc : CheckerPc) : bool :=
  match pc with WExited | WCrashed _ => true | _ => false end.

Definition main_step (s : System) : option (Shared * MainPc) :=
  let sh := shared s in
  match main s with
  | MJoinGenerator =>
      match generator s with GExited => Some (sh, MJoinMnemonicQueue) | _ => None end
  | MJoinMnemonicQueue =>
      match unfinished_tasks (mnemonic_queue sh) with
      | O => Some (sh, MJoinLoggerQueue) | _ => None end
  | MJoinLoggerQueue =>
      match unfinished_tasks (logger_queue sh) with
      | O => Some (sh, MSetStop) | _ => None end
  | MSetStop => Some (set_stop true sh, MJoinCheckers)
  | MJoinCheckers =>
      if forallb terminated (checkers s) then Some (sh, MJoinLogger) else None
  | MJoinLogger =>
      match logger s with LExited => Some (sh, MReturned) | _ => None end
  | MReturned => None
  end.

Inductive Pid : Type :=
| PLogger
| PChecker (i : nat)
| PGenerator
| PMain.

Fixpoint update {A} (i : nat) (x : A) (xs : list A) : list A :=
  match xs, i with
  | [], _ => []
  | _ :: xs', O => x :: xs'
  | y :: xs', S i' => y :: update i' x xs'
  end.

(** One atomic step of one process; [None] when that process is blocked or
    has terminated. *)
Definition step (pid : Pid) (s : System) : option System :=
  match pid with
  | PLogger =>
      match logger_step (shared s) (logger s) with
      | Some (sh, pc) =>
          Some {| shared := sh; logger := pc; checkers := checkers s;
                  generator := generator s; main := main s |}
      | None => None
      end
  | PChecker i =>
      match nth_error (checkers s) i with
      | Some w =>
          match checker_step (shared s) w with
          | Some (sh, pc) =>
              Some {| shared := sh; logger := logger s;
                      checkers := update i pc (checkers s);
                      generator := generator s; main := main s |}
          | None => None
          end
      | None => None
      end
  | PGenerator =>
      match generator_step (shared s) (generator s) with
      | Some (sh, pc) =>
          Some {| shared := sh; logger := logger s; checkers := checkers s;
                  generator := pc; main := main s |}
      | None => None
      end
  | PMain =>
      match main_step s with
      | Some (sh, pc) =>
          Some {| shared := sh; logger := logger s; checkers := checkers s;
                  generator := generator s; main := pc |}
      | None => None
      end
  end.

(** A schedule is the list of processes that move, in order. *)
Fixpoint run (schedule : list Pid) (s : System) : option System :=
  match schedule with
  | [] => Some s
  | pid :: rest =>
      match step pid s with
      | Some s' => run rest s'
      | None => None
      end
  end.

Inductive steps : System -> System -> Prop :=
| steps_refl s : steps s s
| steps_step pid s s1 s2 : step pid s = Some s1 -> steps s1 s2 -> steps s s2.

Definition initial_shared (mq : JoinableQueue Bip39Mnemonic) (lq : JoinableQueue string)
  : Shared :=
  {| stop_processing := false; mnemonic_queue := mq; logger_queue := lq;
     log_file := []; stdout := [];
     generated := items mq; pulled := []; completed := [] |}.

Definition check_all_mnemonics : System :=
  {| shared := initial_shared (q_new (MNEMONIC_QUEUE_MAX_SIZE cfg))
                              (q_new (LOG_QUEUE_MAX_SIZE cfg));
     logger := LTest;
     checkers := map (fun _ => WTest) (Py.range (PROCESS_NUM cfg));
     generator := GTest (Py.product (MNEMONIC_WORDS cfg));
     main := MJoinGenerator |}.

Definition check_single_mnemonic (mnemonic : Bip39Mnemonic) : System :=
  {| shared := initial_shared (q_put mnemonic (q_new 0)) (q_new 0);
     logger := LTest;
     checkers := [WTest];
     generator := GExited;
     main := MJoinMnemonicQueue |}.

(** [main]: nothing is started when there is no address to check. *)
Definition main_system : option System :=
  let total_addresses := get_total_addresses cfg in
  if total_addresses =? 0 then None
  else if negb (MNEMONIC_FIXED cfg =? "")%string
       then Some (check_single_mnemonic (FromString (MNEMONIC_FIXED cfg)))
       else Some check_all_mnemonics.

(** Measures used by the invariants. *)
Definition in_get (pc : CheckerPc) : nat :=
  match pc with WGet => 1%nat | _ => 0%nat end.

Definition waiting_in_get (ws : list CheckerPc) : nat :=
  list_sum (map in_get ws).

Definition in_flight (ws : list CheckerPc) : list Bip39Mnemonic :=
  flat_map (fun pc => match pc with WChecking m _ _ => [m] | _ => [] end) ws.

End Processes.
End Sys.

(* ================================================================== *)
(** * A small library instance and configurations to run the code on *)
(* ================================================================== *)

Module Demo.

(** [str.split(" ")], with the word being read kept in [acc]. *)
Fixpoint split_spaces (s : string) (acc : string) : list string :=
  match s with
  | EmptyString => [acc]
  | String c s' =>
      if Ascii.eqb c " "%char then acc :: split_spaces s' ""
      else split_spaces s' (acc +s+ String c EmptyString)
  end.

(** A mnemonic starting with "bad" fails its checksum; an empty word list is
    rejected with [ValueError]. *)
Definition decode (m : list string) : Result unit :=
  match m with
  | [] => Raise ValueError
  | w :: _ => if (w =? "bad")%string then Raise MnemonicChecksumError else Ok tt
  end.

(** Keys are the text of their own derivation, so that every address can be
    read back. *)
Definition lib : BipUtils :=
  {| Bip39Mnemonic := list string;
     FromList := fun ws => ws;
     FromString := fun s => split_spaces s "";
     ToStr := String.concat " ";
     Entropy := unit;
     Decode := decode;
     SeedBytes := string;
     Generate := fun m p => String.concat " " m +s+ "|" +s+ p;
     Bip32 := string;
     FromSeedAndPath := fun seed path => seed +s+ "|" +s+ path;
     DerivePath := fun ctx p => ctx +s+ "/" +s+ p;
     KeyObject := string;
     PublicKeyObject := fun k => k;
     AddrEncoder := unit;
     EncoderParams := unit;
     EncodeKey := fun _ k _ => "0x" +s+ k;
     Bip44Coins := string;
     Bip44Changes := string;
     Bip44 := string;
     FromSeed := fun seed coin => seed +s+ "|" +s+ coin;
     Purpose := fun c => c +s+ "/44'";
     Coin := fun c => c +s+ "/60'";
     Account := fun c i => c +s+ "/" +s+ Py.str i +s+ "'";
     Change := fun c chg => c +s+ "/" +s+ chg;
     AddressIndex := fun c j => c +s+ "/" +s+ Py.str j;
     ToAddress := fun c => "0x" +s+ c |}.

(** The end-to-end scenario of the spec: one slot ["a", "b"], the empty
    passphrase, one path, and the address of "b" as the only target. *)
Definition scenario (verbose : bool) : Config lib :=
  {| BIP32_ENABLED := true;
     BIP32_DERIVATION_PATHS := ["m/44'/60'/0'"];
     BIP32_ADDRESSES_NUM := 1;
     BIP32_ADDR_ENCODER_CLS := (tt : @AddrEncoder lib);
     BIP32_ADDR_ENCODER_PARAMS := (tt : @EncoderParams lib);
     BIP44_ENABLED := false;
     BIP44_COIN := ("ETHEREUM" : @Bip44Coins lib);
     BIP44_CHANGE := ("0" : @Bip44Changes lib);
     BIP44_ACCOUNTS_NUM := 1;
     BIP44_ADDRESSES_NUM := 1;
     MNEMONIC_PASSPHRASES := [""];
     MNEMONIC_FIXED := "";
     MNEMONIC_WORDS := [["a"; "b"]];
     ADDRESSES_TO_SEARCH := ["0xb||m/44'/60'/0'/0"];
     LOG_QUEUE_MAX_SIZE := 1024;
     MNEMONIC_QUEUE_MAX_SIZE := 2 * 1024 * 1024;
     PROCESS_NUM := 1;
     VERBOSE := verbose |}.

(** Two passphrases and both schemes, as the files ship: the first target is
    derivable under "" (path scheme, index 0), the second under "test"
    (account scheme). *)
Definition two_secrets (passphrases : list string) (paths : list string) : Config lib :=
  {| BIP32_ENABLED := true;
     BIP32_DERIVATION_PATHS := paths;
     BIP32_ADDRESSES_NUM := 2;
     BIP32_ADDR_ENCODER_CLS := (tt : @AddrEncoder lib);
     BIP32_ADDR_ENCODER_PARAMS := (tt : @EncoderParams lib);
     BIP44_ENABLED := true;
     BIP44_COIN := ("ETHEREUM" : @Bip44Coins lib);
     BIP44_CHANGE := ("0" : @Bip44Changes lib);
     BIP44_ACCOUNTS_NUM := 2;
     BIP44_ADDRESSES_NUM := 2;
     MNEMONIC_PASSPHRASES := passphrases;
     MNEMONIC_FIXED := "";
     MNEMONIC_WORDS := [["void"; "volcano"]; ["come"]; ["camp"; "camera"]];
     ADDRESSES_TO_SEARCH :=
       ["0xvoid come camp||m/44'/60'/0'/0"; "0xvoid come camp|test|ETHEREUM/44'/60'/1'/0/1"];
     LOG_QUEUE_MAX_SIZE := 1024;
     MNEMONIC_QUEUE_MAX_SIZE := 2 * 1024 * 1024;
     PROCESS_NUM := 4;
     VERBOSE := true |}.

Definition shipped : Config lib := two_secrets [""; "test"] ["m/44'/0'/0'"; "m/44'/60'/0'"].

(** A three-candidate space in which the first candidate is the match. *)
Definition first_hits : Config lib :=
  {| BIP32_ENABLED := true;
     BIP32_DERIVATION_PATHS := ["m"];
     BIP32_ADDRESSES_NUM := 1;
     BIP32_ADDR_ENCODER_CLS := (tt : @AddrEncoder lib);
     BIP32_ADDR_ENCODER_PARAMS := (tt : @EncoderParams lib);
     BIP44_ENABLED := false;
     BIP44_COIN := ("ETHEREUM" : @Bip44Coins lib);
     BIP44_CHANGE := ("0" : @Bip44Changes lib);
     BIP44_ACCOUNTS_NUM := 1;
     BIP44_ADDRESSES_NUM := 1;
     MNEMONIC_PASSPHRASES := [""];
     MNEMONIC_FIXED := "";
     MNEMONIC_WORDS := [["a"; "b"; "c"]];
     ADDRESSES_TO_SEARCH := ["0xa||m/0"];
     LOG_QUEUE_MAX_SIZE := 1024;
     MNEMONIC_QUEUE_MAX_SIZE := 2 * 1024 * 1024;
     PROCESS_NUM := 1;
     VERBOSE := false |}.

End Demo.

(* ================================================================== *)
(** * The match decision and the trace properties, stated apart from the code *)
(* ================================================================== *)

Section Decision.
Context {L : BipUtils} (cfg : Config L).

(** Some address of the arbitrary-path scheme, over the configured paths and
    the indices [0 .. BIP32_ADDRESSES_NUM - 1], is a target. *)
Definition bip32_hit (mnemonic : Bip39Mnemonic) (passphrase : string) : bool :=
  BIP32_ENABLED cfg
  && existsb (fun path =>
       existsb (fun i =>
         Py.contains (bip32_address cfg mnemonic passphrase path i) (ADDRESSES_TO_SEARCH cfg))
         (Py.range (BIP32_ADDRESSES_NUM cfg)))
       (BIP32_DERIVATION_PATHS cfg).

(** Some address of the account scheme, over the accounts
    [0 .. BIP44_ACCOUNTS_NUM - 1] and the indices
    [0 .. BIP44_ADDRESSES_NUM - 1], is a target. *)
Definition bip44_hit (mnemonic : Bip39Mnemonic) (passphrase : string) : bool :=
  BIP44_ENABLED cfg
  && existsb (fun i =>
       existsb (fun j =>
         Py.contains (bip44_address cfg mnemonic passphrase i j) (ADDRESSES_TO_SEARCH cfg))
         (Py.range (BIP44_ADDRESSES_NUM cfg)))
       (Py.range (BIP44_ACCOUNTS_NUM cfg)).

Definition passphrase_hit (mnemonic : Bip39Mnemonic) (passphrase : string) : bool :=
  bip32_hit mnemonic passphrase || bip44_hit mnemonic passphrase.

Definition has_match (mnemonic : Bip39Mnemonic) : bool :=
  existsb (passphrase_hit mnemonic) (MNEMONIC_PASSPHRASES cfg).

(** [addr] is what an enabled scheme derives from the mnemonic under
    [passphrase], at a configured path and index. *)
Definition derived_under (mnemonic : Bip39Mnemonic) (passphrase addr : string) : Prop :=
  (BIP32_ENABLED cfg = true /\
   exists path i, In path (BIP32_DERIVATION_PATHS cfg) /\
                  0 <= i < BIP32_ADDRESSES_NUM cfg /\
                  addr = bip32_address cfg mnemonic passphrase path i)
  \/
  (BIP44_ENABLED cfg = true /\
   exists i j, 0 <= i < BIP44_ACCOUNTS_NUM cfg /\
               0 <= j < BIP44_ADDRESSES_NUM cfg /\
               addr = bip44_address cfg mnemonic passphrase i j).

(** The claim's right-hand side: a configured passphrase and a derived
    address that is a member of the target list. *)
Definition some_target_derivable (mnemonic : Bip39Mnemonic) : Prop :=
  exists passphrase addr,
    In passphrase (MNEMONIC_PASSPHRASES cfg) /\
    derived_under mnemonic passphrase addr /\
    In addr (ADDRESSES_TO_SEARCH cfg).

(** The outcome of the check, read off the decoder and the decision. *)
Definition check_outcome (mnemonic : Bip39Mnemonic) : Result bool :=
  match Decode mnemonic with
  | Ok _ => Ok (has_match mnemonic)
  | Raise MnemonicChecksumError => Ok false
  | Raise e => Raise e
  end.

(** An address event of the trace that is what the configuration derives. *)
Definition genuine (mnemonic : Bip39Mnemonic) (e : Event) : Prop :=
  match e with
  | EvBip32Addr p path i a =>
      BIP32_ENABLED cfg = true /\ In path (BIP32_DERIVATION_PATHS cfg) /\
      0 <= i < BIP32_ADDRESSES_NUM cfg /\ a = bip32_address cfg mnemonic p path i
  | EvBip44Addr p i j a =>
      BIP44_ENABLED cfg = true /\ 0 <= i < BIP44_ACCOUNTS_NUM cfg /\
      0 <= j < BIP44_ADDRESSES_NUM cfg /\ a = bip44_address cfg mnemonic p i j
  | _ => True
  end.

(** No address derived in the trace is a target. *)
Definition misses (t : list Event) : Prop :=
  Forall (fun e => forall a, event_addr e = Some a ->
                             Py.contains a (ADDRESSES_TO_SEARCH cfg) = false) t.

(** The trace ends at its first hit: the last derivation event [ev] derived a
    target [addr] under [p], no earlier derived address is a target, and the
    last event of all is the "Found" record for [addr] and [p]; between the
    two there are log records only. *)
Definition stops_at_match (found : string -> string -> string) (t : list Event) : Prop :=
  exists pre ev logs addr p,
    t = pre ++ ev :: logs ++ [EvLog (found addr p)] /\
    misses pre /\
    event_addr ev = Some addr /\
    event_passphrase ev = Some p /\
    Py.contains addr (ADDRESSES_TO_SEARCH cfg) = true /\
    Forall (fun e => is_derivation e = false) logs.

(** The configuration with another verbosity, and with the passphrases and
    the paths listed in another order. *)
Definition with_verbose (verbose : bool) : Config L :=
  {| BIP32_ENABLED := BIP32_ENABLED cfg;
     BIP32_DERIVATION_PATHS := BIP32_DERIVATION_PATHS cfg;
     BIP32_ADDRESSES_NUM := BIP32_ADDRESSES_NUM cfg;
     BIP32_ADDR_ENCODER_CLS := BIP32_ADDR_ENCODER_CLS cfg;
     BIP32_ADDR_ENCODER_PARAMS := BIP32_ADDR_ENCODER_PARAMS cfg;
     BIP44_ENABLED := BIP44_ENABLED cfg;
     BIP44_COIN := BIP44_COIN cfg;
     BIP44_CHANGE := BIP44_CHANGE cfg;
     BIP44_ACCOUNTS_NUM := BIP44_ACCOUNTS_NUM cfg;
     BIP44_ADDRESSES_NUM := BIP44_ADDRESSES_NUM cfg;
     MNEMONIC_PASSPHRASES := MNEMONIC_PASSPHRASES cfg;
     MNEMONIC_FIXED := MNEMONIC_FIXED cfg;
     MNEMONIC_WORDS := MNEMONIC_WORDS cfg;
     ADDRESSES_TO_SEARCH := ADDRESSES_TO_SEARCH cfg;
     LOG_QUEUE_MAX_SIZE := LOG_QUEUE_MAX_SIZE cfg;
     MNEMONIC_QUEUE_MAX_SIZE := MNEMONIC_QUEUE_MAX_SIZE cfg;
     PROCESS_NUM := PROCESS_NUM cfg;
     VERBOSE := verbose |}.

Definition with_order (passphrases paths : list string) : Config L :=
  {| BIP32_ENABLED := BIP32_ENABLED cfg;
     BIP32_DERIVATION_PATHS := paths;
     BIP32_ADDRESSES_NUM := BIP32_ADDRESSES_NUM cfg;
     BIP32_ADDR_ENCODER_CLS := BIP32_ADDR_ENCODER_CLS cfg;
     BIP32_ADDR_ENCODER_PARAMS := BIP32_ADDR_ENCODER_PARAMS cfg;
     BIP44_ENABLED := BIP44_ENABLED cfg;
     BIP44_COIN := BIP44_COIN cfg;
     BIP44_CHANGE := BIP44_CHANGE cfg;
     BIP44_ACCOUNTS_NUM := BIP44_ACCOUNTS_NUM cfg;
     BIP44_ADDRESSES_NUM := BIP44_ADDRESSES_NUM cfg;
     MNEMONIC_PASSPHRASES := passphrases;
     MNEMONIC_FIXED := MNEMONIC_FIXED cfg;
     MNEMONIC_WORDS := MNEMONIC_WORDS cfg;
     ADDRESSES_TO_SEARCH := ADDRESSES_TO_SEARCH cfg;
     LOG_QUEUE_MAX_SIZE := LOG_QUEUE_MAX_SIZE cfg;
     MNEMONIC_QUEUE_MAX_SIZE := MNEMONIC_QUEUE_MAX_SIZE cfg;
     PROCESS_NUM := PROCESS_NUM cfg;
     VERBOSE := VERBOSE cfg |}.

End Decision.

(** The derivation events of a trace, and the passphrases they were run
    under. *)
Definition derivations {L : BipUtils} (t : list Event) : list Event :=
  filter is_derivation t.

Definition evaluated_passphrases {L : BipUtils} (t : list Event) : list string :=
  flat_map (fun e => match event_passphrase e with Some p => [p] | None => [] end) t.

(** Two computations that agree on the returned decision and on the
    derivations they ran (they may differ in what they log). *)
Definition same_work {L : BipUtils} {A B R} (ra : A -> R) (rb : B -> R)
  (c1 : M A) (c2 : M B) : Prop :=
  ra (fst c1) = rb (fst c2) /\ derivations (snd c1) = derivations (snd c2).

Section TraceShapes.
Context {L : BipUtils} (cfg : Config L).

(** Every derivation of the trace ran under passphrase [p]. *)
Definition under (p : string) (t : list Event) : Prop :=
  Forall (fun e => forall q, event_passphrase e = Some q -> q = p) t.

(** What a scheme's run under [p] leaves when it falls through, and when it
    returns true; the decoder is not called inside a scheme. *)
Definition falls_through (mnemonic : Bip39Mnemonic) (p : string) (t : list Event) : Prop :=
  misses cfg t /\ Forall (genuine cfg mnemonic) t /\ under p t /\ decoded t = [].

Definition returns_hit (found : string -> string -> string)
  (mnemonic : Bip39Mnemonic) (p : string) (t : list Event) : Prop :=
  stops_at_match cfg found t /\ Forall (genuine cfg mnemonic) t /\ under p t
  /\ decoded t = [].

(** The evidence of a match, as the trace of a check shows it: the trace
    ends with the "Found" record of an address that is a target and that an
    enabled scheme derives from the candidate under a configured passphrase;
    that address is the last one derived and no address derived before it is
    a target. *)
Definition match_evidence (found : string -> string -> string)
  (mnemonic : Bip39Mnemonic) (t : list Event) : Prop :=
  exists pre ev logs addr p,
    t = pre ++ ev :: logs ++ [EvLog (found addr p)] /\
    misses cfg pre /\
    event_addr ev = Some addr /\
    event_passphrase ev = Some p /\
    In p (MNEMONIC_PASSPHRASES cfg) /\
    derived_under cfg mnemonic p addr /\
    In addr (ADDRESSES_TO_SEARCH cfg) /\
    Forall (fun e => is_derivation e = false) logs.

Definition only_logs (t : list Event) : Prop :=
  Forall (fun e => exists msg, e = EvLog msg) t.

End TraceShapes.

(** The body both files give [check_mnemonic], with the two scheme functions
    as parameters. *)
Section Skeleton.
Context {L : BipUtils}.
Variables derive_bip32_addresses derive_bip44_addresses : Bip39Mnemonic -> string -> M bool.

Definition passphrase_body_with (mnemonic : Bip39Mnemonic) (passphrase : string) (_ : unit)
  : M (Flow unit) :=
  b32 <- derive_bip32_addresses mnemonic passphrase ;;
  if b32 then ret ReturnTrue
  else
    b44 <- derive_bip44_addresses mnemonic passphrase ;;
    if b44 then ret ReturnTrue else ret (Continue tt).

Definition check_mnemonic_with (passphrases : list string) (mnemonic : Bip39Mnemonic)
  : M (Result bool) :=
  tell (EvDecode mnemonic) ;;
  match Decode mnemonic with
  | Raise MnemonicChecksumError => ret (Ok false)
  | Raise e => ret (Raise e)
  | Ok _ =>
      r <- for_in passphrases (passphrase_body_with mnemonic) tt ;;
      ret (Ok (returned_true r))
  end.

End Skeleton.

Section CheckShapes.
Context {L : BipUtils} (cfg : Config L).

(** What the trace of a whole check looks like, by outcome. *)
Definition check_shape (found : string -> string -> string)
  (mnemonic : Bip39Mnemonic) (c : M (Result bool)) : Prop :=
  match fst c with
  | Ok true => match_evidence cfg found mnemonic (snd c)
  | Ok false =>
      misses cfg (snd c) /\
      (forall e, Decode mnemonic = Raise e -> snd c = [EvDecode mnemonic])
  | Raise e => Decode mnemonic = Raise e /\ snd c = [EvDecode mnemonic]
  end.

End CheckShapes.

(** The trace stops at its first hit: some derivation event [ev] derived a
    target, nothing derived before it is a target, and nothing at all is
    derived after it. *)
Definition ends_at_first_hit {L : BipUtils} (cfg : Config L) (t : list Event) : Prop :=
  exists pre ev logs addr,
    t = pre ++ ev :: logs /\
    misses cfg pre /\
    event_addr ev = Some addr /\
    In addr (ADDRESSES_TO_SEARCH cfg) /\
    Forall (fun e => is_derivation e = false) logs.

(* ================================================================== *)
(** * Shapes of runs and invariants of the processes *)
(* ================================================================== *)

Section RunShapes.
Context {L : BipUtils} (cfg : Config L).

(** The text of the "Found" record of each file, by address and passphrase. *)
Definition ST_found mnemonic : string -> string -> string :=
  fun addr p => ST.found_msg addr mnemonic p.

Definition MP_found mnemonic : string -> string -> string :=
  fun addr p => MP.found_msg addr mnemonic p.

(** The shape of a loop run and of a scheme run, by what they return. *)
Definition flow_shape found mnemonic p {S} (c : M (Flow S)) : Prop :=
  match fst c with
  | Continue _ => falls_through cfg mnemonic p (snd c)
  | ReturnTrue => returns_hit cfg found mnemonic p (snd c)
  end.

Definition bool_shape found mnemonic p (c : M bool) : Prop :=
  if fst c then returns_hit cfg found mnemonic p (snd c)
  else falls_through cfg mnemonic p (snd c).

End RunShapes.

Section ProcessInvariants.
Context {L : BipUtils} (cfg : Config L).

(** The checker, case by case. *)
Inductive checker_move (sh : Sys.Shared) : Sys.CheckerPc -> Sys.Shared -> Sys.CheckerPc -> Prop :=
| move_exit :
    Sys.stop_processing sh = true ->
    checker_move sh Sys.WTest sh Sys.WExited
| move_enter :
    Sys.stop_processing sh = false ->
    checker_move sh Sys.WTest sh Sys.WGet
| move_timeout :
    items (Sys.mnemonic_queue sh) = [] ->
    checker_move sh Sys.WGet sh Sys.WTest
| move_pull m rest q :
    items (Sys.mnemonic_queue sh) = m :: rest ->
    q_get (Sys.mnemonic_queue sh) = Some (m, q) ->
    items q = rest ->
    checker_move sh Sys.WGet
      (Sys.note_pulled m (Sys.set_mnemonic_queue q sh))
      (Sys.WChecking m (log_records (snd (MP.check_mnemonic cfg m)))
         (fst (MP.check_mnemonic cfg m)))
| move_put m msg pending r :
    q_full (Sys.logger_queue sh) = false ->
    checker_move sh (Sys.WChecking m (msg :: pending) r)
      (Sys.set_logger_queue (q_put msg (Sys.logger_queue sh)) sh)
      (Sys.WChecking m pending r)
| move_found m :
    checker_move sh (Sys.WChecking m [] (Ok true))
      (Sys.set_stop true
         (Sys.print ("  Found: " +s+ ToStr m) (Sys.note_completed m (Ok true) sh)))
      Sys.WExited
| move_done m :
    checker_move sh (Sys.WChecking m [] (Ok false))
      (Sys.set_mnemonic_queue
         (q_task_done (Sys.mnemonic_queue (Sys.note_completed m (Ok false) sh)))
         (Sys.note_completed m (Ok false) sh))
      Sys.WTest
| move_crash m e :
    checker_move sh (Sys.WChecking m [] (Raise e))
      (Sys.note_completed m (Raise e) sh) (Sys.WCrashed e).

(** The candidate a checker is inside the check of. *)
Definition flight (pc : @Sys.CheckerPc L) : list Bip39Mnemonic :=
  match pc with Sys.WChecking m _ _ => [m] | _ => [] end.

(** Candidates leave the queue in the order they entered it, and none is
    lost: what was generated is what was pulled followed by what is still
    buffered. *)
Definition fifo (s : Sys.System) : Prop :=
  Sys.generated (Sys.shared s)
  = Sys.pulled (Sys.shared s) ++ items (Sys.mnemonic_queue (Sys.shared s)).

(** Every candidate that was pulled has had its check run to the end, or is
    in the hands of a checker that is still inside the check. *)
Definition accounted (s : Sys.System) : Prop :=
  Permutation (Sys.pulled (Sys.shared s))
    (map fst (Sys.completed (Sys.shared s)) ++ Sys.in_flight (Sys.checkers s))
  /\ Forall (fun mr => snd mr = fst (MP.check_mnemonic cfg (fst mr)))
            (Sys.completed (Sys.shared s))
  /\ Forall (fun pc => match pc with
                       | Sys.WChecking m _ r => r = fst (MP.check_mnemonic cfg m)
                       | _ => True
                       end) (Sys.checkers s).

(** The generator walks the product in order: what it has put is a prefix of
    the product, and it leaves the loop early only when the flag is set. *)
Definition generator_walks (s : Sys.System) : Prop :=
  match Sys.generator s with
  | Sys.GTest rest =>
      exists done, Py.product (MNEMONIC_WORDS cfg) = done ++ rest
                   /\ Sys.generated (Sys.shared s) = map FromList done
  | Sys.GPut m rest =>
      exists done t, Py.product (MNEMONIC_WORDS cfg) = done ++ t :: rest
                     /\ m = FromList t
                     /\ Sys.generated (Sys.shared s) = map FromList done
  | Sys.GExited =>
      exists done rest, Py.product (MNEMONIC_WORDS cfg) = done ++ rest
                        /\ Sys.generated (Sys.shared s) = map FromList done
                        /\ (rest = [] \/ Sys.stop_processing (Sys.shared s) = true)
  end.

(** When every checker and the generator have terminated, nothing touches
    the candidate queue or the record of checks any more; when the logger
    has exited, nothing is written to the log file any more. *)
Definition candidates_settled (s : Sys.System) : Prop :=
  forallb Sys.terminated (Sys.checkers s) = true /\ Sys.generator s = Sys.GExited.

End ProcessInvariants.

(* ================================================================== *)
(** * [format_integer] *)
(* ================================================================== *)

Module Fmt.

(** The digits of a number, least significant first, with a "," put before
    every fourth digit: [in_group] counts the digits already written in the
    current group of three. *)
Fixpoint group_thousands (digits_rev : list ascii) (in_group : nat) : list ascii :=
  match digits_rev with
  | [] => []
  | d :: rest =>
      if (in_group =? 3)%nat
      then ","%char :: d :: group_thousands rest 1
      else d :: group_thousands rest (S in_group)
  end.

(** [format(num, ",")], the [{num:,}] of the f-string: the sign, then the
    decimal digits in groups of three from the right. *)
Definition format_comma (num : Z) : string :=
  let digits := list_ascii_of_string (Py.str (Z.abs num)) in
  let body := string_of_list_ascii (rev (group_thousands (rev digits) 0)) in
  if num <? 0 then String "-"%char body else body.

(** [s.replace(old, new)] for one-character [old] and [new]. *)
Fixpoint replace_char (old new : ascii) (s : string) : string :=
  match s with
  | EmptyString => EmptyString
  | String c s' =>
      String (if Ascii.eqb c old then new else c) (replace_char old new s')
  end.

Definition format_integer (num : Z) : string :=
  replace_char ","%char "."%char (format_comma num).

(** A string without its "." characters. *)
Fixpoint drop_dots (s : string) : string :=
  match s with
  | EmptyString => EmptyString
  | String c s' =>
      if Ascii.eqb c "."%char then drop_dots s' else String c (drop_dots s')
  end.

Definition is_digit (c : ascii) : bool :=
  existsb (Ascii.eqb c)
    ["0"; "1"; "2"; "3"; "4"; "5"; "6"; "7"; "8"; "9"]%char.

End Fmt.

(** The two characters [format_integer] uses to group. *)
Definition is_separator (c : ascii) : bool := Ascii.eqb c ","%char || Ascii.eqb c "."%char.

(* ================================================================== *)
(** * What a run logs *)
(* ================================================================== *)

Section Logs.
Context {L : BipUtils}.

(** The run logged nothing; the run logged the "Found" record and nothing
    else. *)
Definition silent (t : list Event) : Prop := log_records t = [].

Definition one_found (found : string -> string -> string) (t : list Event) : Prop :=
  exists addr p, log_records t = [found addr p].

Definition flow_logs (found : string -> string -> string) {S} (c : M (Flow S)) : Prop :=
  match fst c with
  | Continue _ => silent (snd c)
  | ReturnTrue => one_found found (snd c)
  end.

(** A scheme function that logs the "Found" record when it returns True and
    [k] records when it returns False. *)
Definition scheme_logs (found : string -> string -> string) (k : nat) (c : M bool) : Prop :=
  if fst c then one_found found (snd c)
  else List.length (log_records (snd c)) = k.

Definition bool_to_nat (b : bool) : nat := if b then 1%nat else 0%nat.

(** The last record logged is the "Found" record, after at most [bound]
    others. *)
Definition found_last (found : string -> string -> string) (bound : nat)
  (t : list Event) : Prop :=
  exists pre addr p,
    log_records t = pre ++ [found addr p] /\ (List.length pre <= bound)%nat.

End Logs.

(* ================================================================== *)
(** * Accounting of the two queues and of the parent's joins *)
(* ================================================================== *)

Section Accounting.
Context {L : BipUtils} (cfg : Config L).

(** The record the logger has taken from the queue and not yet written. *)
Definition held (pc : Sys.LoggerPc) : list string :=
  match pc with Sys.LGot msg => [msg] | _ => [] end.

(** The records on their way to the file, oldest first: written, held by the
    logger, still queued. *)
Definition log_stream (s : Sys.System) : list string :=
  Sys.log_file (Sys.shared s) ++ held (Sys.logger s)
  ++ items (Sys.logger_queue (Sys.shared s)).

Definition no_match (r : Result bool) : bool :=
  match r with Ok false => true | _ => false end.

Definition is_match (r : Result bool) : bool :=
  match r with Ok true => true | _ => false end.

(** The checks that ended without [task_done]: a match ([break]) or an
    exception. *)
Definition unmarked (done : list (Bip39Mnemonic * Result bool)) : nat :=
  List.length (filter (fun mr => negb (no_match (snd mr))) done).

(** Where the parent is: past [mnemonic_queue.join()], past
    [logger_queue.join()], past [stop_processing.value = True]. *)
Definition past_candidate_join (pc : Sys.MainPc) : bool :=
  match pc with
  | Sys.MJoinGenerator | Sys.MJoinMnemonicQueue => false
  | _ => true
  end.

Definition past_logger_join (pc : Sys.MainPc) : bool :=
  match pc with
  | Sys.MJoinGenerator | Sys.MJoinMnemonicQueue | Sys.MJoinLoggerQueue => false
  | _ => true
  end.

Definition past_set_stop (pc : Sys.MainPc) : bool :=
  match pc with
  | Sys.MJoinCheckers | Sys.MJoinLogger | Sys.MReturned => true
  | _ => false
  end.

(** [unfinished_tasks] of each queue counts what is buffered and what has
    been taken and not marked done; the generator has exited once the parent
    is past its join; past the join of the candidate queue nothing is
    buffered, in a check, or unmarked; past the join of the logger queue no
    record is queued or held. *)
Definition joins_accounted (s : Sys.System) : Prop :=
  unfinished_tasks (Sys.mnemonic_queue (Sys.shared s))
  = (List.length (items (Sys.mnemonic_queue (Sys.shared s)))
     + List.length (Sys.in_flight (Sys.checkers s))
     + unmarked (Sys.completed (Sys.shared s)))%nat
  /\ unfinished_tasks (Sys.logger_queue (Sys.shared s))
     = (List.length (items (Sys.logger_queue (Sys.shared s)))
        + List.length (held (Sys.logger s)))%nat
  /\ (Sys.main s <> Sys.MJoinGenerator -> Sys.generator s = Sys.GExited)
  /\ (past_candidate_join (Sys.main s) = true ->
      items (Sys.mnemonic_queue (Sys.shared s)) = []
      /\ Sys.in_flight (Sys.checkers s) = []
      /\ unmarked (Sys.completed (Sys.shared s)) = 0%nat)
  /\ (past_logger_join (Sys.main s) = true ->
      items (Sys.logger_queue (Sys.shared s)) = [] /\ held (Sys.logger s) = []).

(** The flag is set by the parent or by a checker whose check returned True,
    and the terminal shows one "Found" line per such check. *)
Definition flag_justified (s : Sys.System) : Prop :=
  (Sys.stop_processing (Sys.shared s) = true ->
   past_set_stop (Sys.main s) = true
   \/ exists m, In (m, Ok true) (Sys.completed (Sys.shared s)))
  /\ Sys.stdout (Sys.shared s)
     = map (fun mr => "  Found: " +s+ ToStr (fst mr))
           (filter (fun mr => is_match (snd mr)) (Sys.completed (Sys.shared s))).


(** A bounded queue holds no more than its capacity. *)
Definition within_capacity {A} (q : JoinableQueue A) : Prop :=
  0 < maxsize q -> Py.len (items q) <= maxsize q.

Definition queues_bounded (s : Sys.System) : Prop :=
  within_capacity (Sys.mnemonic_queue (Sys.shared s))
  /\ within_capacity (Sys.logger_queue (Sys.shared s))
  /\ maxsize (Sys.mnemonic_queue (Sys.shared s)) = MNEMONIC_QUEUE_MAX_SIZE cfg
  /\ maxsize (Sys.logger_queue (Sys.shared s)) = LOG_QUEUE_MAX_SIZE cfg.

End Accounting.

(** A two-candidate space with no target, to run a search to its end. *)
Definition no_target : Config Demo.lib :=
  {| BIP32_ENABLED := true;
     BIP32_DERIVATION_PATHS := ["m"];
     BIP32_ADDRESSES_NUM := 1;
     BIP32_ADDR_ENCODER_CLS := (tt : @AddrEncoder Demo.lib);
     BIP32_ADDR_ENCODER_PARAMS := (tt : @EncoderParams Demo.lib);
     BIP44_ENABLED := false;
     BIP44_COIN := ("ETHEREUM" : @Bip44Coins Demo.lib);
     BIP44_CHANGE := ("0" : @Bip44Changes Demo.lib);
     BIP44_ACCOUNTS_NUM := 1;
     BIP44_ADDRESSES_NUM := 1;
     MNEMONIC_PASSPHRASES := [""];
     MNEMONIC_FIXED := "";
     MNEMONIC_WORDS := [["a"; "b"]];
     ADDRESSES_TO_SEARCH := [];
     LOG_QUEUE_MAX_SIZE := 1024;
     MNEMONIC_QUEUE_MAX_SIZE := 1;
     PROCESS_NUM := 1;
     VERBOSE := true |}.

(* ================================================================== *)
(** * The result of a check, as the specification words it *)
(* ================================================================== *)

(** The specification's [MatchResult]: the value a check returns is "no
    match", or a match that carries its evidence, so that the passphrase and
    the address that matched can be read off the returned value by some
    [evidence_of].  ([check] is the returned value of [check_mnemonic] as a
    function of the candidate.) *)
Definition returns_match_result {L : BipUtils} (cfg : Config L)
  (check : Bip39Mnemonic -> Result bool)
  (evidence_of : Result bool -> option (string * string))
  (mnemonic : Bip39Mnemonic) : Prop :=
  check mnemonic = Ok false
  \/ exists passphrase addr,
       evidence_of (check mnemonic) = Some (passphrase, addr)
       /\ In passphrase (MNEMONIC_PASSPHRASES cfg)
       /\ derived_under cfg mnemonic passphrase addr
       /\ In addr (ADDRESSES_TO_SEARCH cfg).

(** What "no match" stands for: the checksum failed, or the mnemonic decodes
    and none of its configured derivations is a target. *)
Definition genuine_no_match {L : BipUtils} (cfg : Config L) (mnemonic : Bip39Mnemonic)
  : Prop :=
  Decode mnemonic = Raise MnemonicChecksumError
  \/ ((exists entropy, Decode mnemonic = Ok entropy)
      /\ ~ some_target_derivable cfg mnemonic).

(** The three-candidate space of [Demo.first_hits] searched by two checkers,
    verbose, with a logger queue of one place. *)
Definition two_checkers : Config Demo.lib :=
  {| BIP32_ENABLED := true;
     BIP32_DERIVATION_PATHS := ["m"];
     BIP32_ADDRESSES_NUM := 1;
     BIP32_ADDR_ENCODER_CLS := (tt : @AddrEncoder Demo.lib);
     BIP32_ADDR_ENCODER_PARAMS := (tt : @EncoderParams Demo.lib);
     BIP44_ENABLED := false;
     BIP44_COIN := ("ETHEREUM" : @Bip44Coins Demo.lib);
     BIP44_CHANGE := ("0" : @Bip44Changes Demo.lib);
     BIP44_ACCOUNTS_NUM := 1;
     BIP44_ADDRESSES_NUM := 1;
     MNEMONIC_PASSPHRASES := [""];
     MNEMONIC_FIXED := "";
     MNEMONIC_WORDS := [["a"; "b"; "c"]];
     ADDRESSES_TO_SEARCH := ["0xa||m/0"];
     LOG_QUEUE_MAX_SIZE := 1;
     MNEMONIC_QUEUE_MAX_SIZE := 2 * 1024 * 1024;
     PROCESS_NUM := 2;
     VERBOSE := true |}.

(* ================================================================== *)
(** * A check inside a checker process: completion and blocking *)
(* ================================================================== *)

Section Completion.
Context {L : BipUtils}.

(** Where a checker is once the check of a candidate has ended with [r]:
    out of the loop after a match ([break]), back at the loop test after
    [task_done], dead after an exception. *)
Definition after_check (r : Result bool) : Sys.CheckerPc :=
  match r with
  | Ok true => Sys.WExited
  | Ok false => Sys.WTest
  | Raise e => Sys.WCrashed e
  end.

(** The queue takes [n] more items without making a [put] wait. *)
Definition has_room {A} (q : JoinableQueue A) (n : nat) : Prop :=
  maxsize q <= 0 \/ Py.len (items q) + Z.of_nat n <= maxsize q.

(** Checker [i] is inside the check of [m] with a record to put, the logger
    queue is full, the logger has exited and every other checker has
    terminated. *)
Definition stuck_in_put (i : nat) (m : Bip39Mnemonic) (s : Sys.System) : Prop :=
  Sys.logger s = Sys.LExited
  /\ q_full (Sys.logger_queue (Sys.shared s)) = true
  /\ (exists msg pending r,
        nth_error (Sys.checkers s) i = Some (Sys.WChecking m (msg :: pending) r))
  /\ (forall j pc, j <> i -> nth_error (Sys.checkers s) j = Some pc ->
                   Sys.terminated pc = true)
  /\ ~ In m (map fst (Sys.completed (Sys.shared s))).

(** The records the checkers have still to put, and what one checker logs
    for the candidates it has pulled, in the order it pulled them. *)
Definition pending_of (ws : list Sys.CheckerPc) : list string :=
  flat_map (fun pc => match pc with Sys.WChecking _ pending _ => pending | _ => [] end) ws.

Definition records_of (cfg : Config L) (ms : list Bip39Mnemonic) : list string :=
  flat_map (fun m => log_records (snd (MP.check_mnemonic cfg m))) ms.

End Completion.

(** Between two candidates of a search in which checker 0 does all the
    work: the flag is not set, both queues are empty, and the logger and
    checker 0 are at their loop tests. *)
Definition idle {L : BipUtils} (s : Sys.System) : Prop :=
  Sys.stop_processing (Sys.shared s) = false
  /\ items (Sys.mnemonic_queue (Sys.shared s)) = []
  /\ items (Sys.logger_queue (Sys.shared s)) = []
  /\ Sys.logger s = Sys.LTest
  /\ nth_error (Sys.checkers s) 0 = Some Sys.WTest.

(** The schedule in which only the generator runs, twice per candidate
    (loop test, [put]) and once more to leave the loop. *)
Definition generator_alone {L : BipUtils} {A} (todo : list A) : list Sys.Pid :=
  flat_map (fun _ => [Sys.PGenerator; Sys.PGenerator]) todo ++ [Sys.PGenerator].

(* ================================================================== *)
(** * Facts about the Python built-ins *)
(* ================================================================== *)

Lemma range_In (n i : Z) : In i (Py.range n) <-> 0 <= i < n.
Proof.
  unfold Py.range. rewrite in_map_iff. split.
  - intros (k & <- & Hk). apply in_seq in Hk. lia.
  - intros Hi. exists (Z.to_nat i). split; [lia|]. apply in_seq. lia.
Qed.

Lemma contains_In (x : string) (xs : list string) : Py.contains x xs = true <-> In x xs.
Proof.
  unfold Py.contains. rewrite existsb_exists. split.
  - intros (y & Hy & E). apply String.eqb_eq in E. now subst.
  - intros H. exists x. split; [assumption | apply String.eqb_refl].
Qed.

Lemma reduce_mul_init (xs : list Z) (init : Z) :
  Py.reduce_mul xs init = init * Py.reduce_mul xs 1.
Proof.
  unfold Py.reduce_mul. revert init.
  induction xs as [|x xs IH]; intros init; cbn [fold_left].
  - lia.
  - rewrite IH. rewrite (IH (1 * x)). lia.
Qed.

Lemma reduce_mul_cardinalities {A} (slots : list (list A)) :
  Py.reduce_mul (map Py.len slots) 1 = slot_cardinality_product slots.
Proof.
  induction slots as [|s rest IH]; [reflexivity|].
  cbn [map slot_cardinality_product]. unfold Py.reduce_mul in *. cbn [fold_left].
  fold (Py.reduce_mul (map Py.len rest) (1 * Py.len s)).
  rewrite reduce_mul_init. unfold Py.reduce_mul. rewrite IH. lia.
Qed.

(** ** [itertools.product] is the lexicographic product *)

Lemma flat_map_singleton {A} (xs : list A) : flat_map (fun x => [x]) xs = xs.
Proof. induction xs as [|x xs IH]; simpl; congruence. Qed.

Lemma flat_map_flat_map {A B C} (f : A -> list B) (g : B -> list C) (xs : list A) :
  flat_map g (flat_map f xs) = flat_map (fun x => flat_map g (f x)) xs.
Proof.
  induction xs as [|x xs IH]; simpl; [reflexivity|].
  now rewrite flat_map_app, IH.
Qed.

Lemma flat_map_map_in {A B C} (f : A -> B) (g : B -> list C) (xs : list A) :
  flat_map g (map f xs) = flat_map (fun x => g (f x)) xs.
Proof. induction xs as [|x xs IH]; simpl; congruence. Qed.

Lemma map_flat_map {A B C} (f : B -> C) (g : A -> list B) (xs : list A) :
  map f (flat_map g xs) = flat_map (fun x => map f (g x)) xs.
Proof.
  induction xs as [|x xs IH]; simpl; [reflexivity|].
  now rewrite map_app, IH.
Qed.

Lemma product_fold_lex {A} (pools : list (list A)) (acc : list (list A)) :
  fold_left Py.product_step pools acc
  = flat_map (fun x => map (app x) (lex_product pools)) acc.
Proof.
  revert acc. induction pools as [|pool pools IH]; intros acc.
  - simpl. rewrite <- (flat_map_singleton acc) at 1.
    apply flat_map_ext. intros x. now rewrite app_nil_r.
  - cbn [fold_left]. rewrite IH. unfold Py.product_step.
    rewrite flat_map_flat_map. apply flat_map_ext. intros x.
    cbn [lex_product]. rewrite flat_map_map_in, map_flat_map.
    apply flat_map_ext. intros y. rewrite map_map.
    apply map_ext. intros c. now rewrite <- app_assoc.
Qed.

Lemma product_lex {A} (pools : list (list A)) : Py.product pools = lex_product pools.
Proof.
  unfold Py.product. rewrite product_fold_lex. simpl.
  rewrite app_nil_r. apply map_id.
Qed.

Lemma length_flat_map_const {A B} (f : A -> list B) (n : nat) (xs : list A) :
  (forall x, List.length (f x) = n) ->
  List.length (flat_map f xs) = (List.length xs * n)%nat.
Proof.
  intros H. induction xs as [|x xs IH]; simpl; [reflexivity|].
  rewrite length_app, H, IH. lia.
Qed.

Lemma length_lex_product {A} (slots : list (list A)) :
  Z.of_nat (List.length (lex_product slots)) = slot_cardinality_product slots.
Proof.
  induction slots as [|s rest IH]; [reflexivity|].
  cbn [lex_product slot_cardinality_product].
  rewrite (length_flat_map_const _ (List.length (lex_product rest))).
  - unfold Py.len. rewrite <- IH. lia.
  - intros w. apply length_map.
Qed.

Lemma In_lex_product {A} (slots : list (list A)) (c : list A) :
  In c (lex_product slots) <-> Forall2 (fun w s => In w s) c slots.
Proof.
  revert c. induction slots as [|s rest IH]; intros c; cbn [lex_product].
  - split.
    + intros [<-|[]]. constructor.
    + intros H. inversion H. now left.
  - rewrite in_flat_map. split.
    + intros (w & Hw & Hc). apply in_map_iff in Hc. destruct Hc as (c' & <- & Hc').
      constructor; [assumption | now apply IH].
    + intros H. inversion H as [|w s' c' rest' Hw Hc']; subst.
      exists w. split; [assumption|]. apply in_map_iff. exists c'.
      split; [reflexivity | now apply IH].
Qed.

Lemma NoDup_lex_product {A} (slots : list (list A)) :
  Forall (@NoDup A) slots -> NoDup (lex_product slots).
Proof.
  induction slots as [|s rest IH]; intros H; cbn [lex_product].
  - repeat constructor. intros [].
  - inversion H as [|? ? Hs Hrest]; subst. specialize (IH Hrest).
    clear H Hrest. induction s as [|w s IHs]; simpl; [constructor|].
    inversion Hs as [|? ? Hw Hs']; subst.
    apply NoDup_app.
    + apply Finite.Injective_map_NoDup; [|assumption]. intros a b E. now inversion E.
    + now apply IHs.
    + intros c Hc1 Hc2. apply in_map_iff in Hc1. destruct Hc1 as (c1 & <- & _).
      apply in_flat_map in Hc2. destruct Hc2 as (w' & Hw' & Hc2).
      apply in_map_iff in Hc2. destruct Hc2 as (c2 & E & _).
      inversion E; subst. contradiction.
Qed.

Lemma nth_error_flat_map_blocks {A B} (f : A -> list B) (n : nat) (xs : list A) (k : nat) :
  (forall x, List.length (f x) = n) -> (0 < n)%nat ->
  nth_error (flat_map f xs) k
  = match nth_error xs (k / n) with
    | Some x => nth_error (f x) (k mod n)
    | None => None
    end.
Proof.
  intros Hlen Hn. revert k. induction xs as [|x xs IH]; intros k.
  - replace (nth_error [] (k / n)) with (@None A) by (now destruct (k / n)%nat).
    now destruct k.
  - cbn [flat_map]. destruct (Nat.lt_ge_cases k n) as [Hk|Hk].
    + rewrite nth_error_app1 by (rewrite Hlen; exact Hk).
      rewrite Nat.div_small, Nat.mod_small by exact Hk. reflexivity.
    + rewrite nth_error_app2 by (rewrite Hlen; exact Hk).
      rewrite Hlen, IH.
      assert (Hd : (k / n = S ((k - n) / n))%nat).
      { replace k with ((k - n) + 1 * n)%nat at 1 by lia.
        rewrite Nat.div_add by lia. lia. }
      assert (Hm : (k mod n = (k - n) mod n)%nat).
      { replace k with ((k - n) + 1 * n)%nat at 1 by lia.
        apply Nat.Div0.mod_add. }
      rewrite Hd, Hm. reflexivity.
Qed.

Lemma candidate_at_empty {A} (slots : list (list A)) (k : nat) :
  lex_product slots = [] -> candidate_at slots k = None.
Proof.
  revert k. induction slots as [|s rest IH]; intros k H; [discriminate H|].
  cbn [candidate_at]. destruct (lex_product rest) as [|c cs] eqn:E.
  - rewrite (IH _ eq_refl). now destruct (nth_error s _).
  - destruct s as [|w s]; [now destruct (k / _)%nat|].
    cbn [lex_product flat_map] in H. rewrite E in H. discriminate H.
Qed.

Lemma nth_error_lex_product {A} (slots : list (list A)) (k : nat) :
  nth_error (lex_product slots) k = candidate_at slots k.
Proof.
  revert k. induction slots as [|s rest IH]; intros k.
  - destruct k as [|[|k]]; reflexivity.
  - destruct (Nat.eq_dec (List.length (lex_product rest)) 0) as [E|E].
    + apply length_zero_iff_nil in E.
      assert (Hnil : lex_product (s :: rest) = []).
      { cbn [lex_product]. rewrite E.
        clear. induction s as [|w s IHs]; [reflexivity | exact IHs]. }
      rewrite candidate_at_empty by exact Hnil.
      rewrite Hnil. now destruct k.
    + cbn [lex_product candidate_at].
      rewrite (nth_error_flat_map_blocks _ (List.length (lex_product rest))).
      * destruct (nth_error s _) as [w|]; [|reflexivity].
        rewrite nth_error_map, IH.
        now destruct (candidate_at rest _).
      * intros w. apply length_map.
      * lia.
Qed.

(* ================================================================== *)
(** * The trace monad and the [for] loop *)
(* ================================================================== *)

Section Loops.
Context {L : BipUtils}.

Lemma fst_bind {A B} (c : M A) (k : A -> M B) : fst (bind c k) = fst (k (fst c)).
Proof. reflexivity. Qed.

Lemma snd_bind {A B} (c : M A) (k : A -> M B) : snd (bind c k) = snd c ++ snd (k (fst c)).
Proof. reflexivity. Qed.

Lemma for_in_cons {A S} (x : A) (xs : list A) (body : A -> S -> M (Flow S)) (s : S) :
  for_in (x :: xs) body s
  = bind (body x s) (fun r => match r with
                              | ReturnTrue => ret ReturnTrue
                              | Continue s' => for_in xs body s'
                              end).
Proof. reflexivity. Qed.

(** The decision of a loop: it returns true exactly when some element makes
    its body return true. *)
Lemma for_in_returned {A S} (hit : A -> bool) (xs : list A)
      (body : A -> S -> M (Flow S)) (s : S) :
  (forall x s', In x xs -> returned_true (fst (body x s')) = hit x) ->
  returned_true (fst (for_in xs body s)) = existsb hit xs.
Proof.
  revert s. induction xs as [|x xs IH]; intros s H; [reflexivity|].
  rewrite for_in_cons, fst_bind. cbn [existsb].
  rewrite <- (H x s (or_introl eq_refl)).
  destruct (fst (body x s)) as [s'|]; [|reflexivity].
  cbn [returned_true orb]. apply IH. intros y s'' Hy. apply H. now right.
Qed.

(** A loop keeps what its body keeps: [Pc] on the trace of a run that falls
    through, [Pr] on the trace of a run that returns. *)
Lemma for_in_trace {A S} (Pc Pr : list Event -> Prop) (xs : list A)
      (body : A -> S -> M (Flow S)) (s : S) :
  Pc [] ->
  (forall t1 t2, Pc t1 -> Pc t2 -> Pc (t1 ++ t2)) ->
  (forall t1 t2, Pc t1 -> Pr t2 -> Pr (t1 ++ t2)) ->
  (forall x s', In x xs ->
     match fst (body x s') with
     | Continue _ => Pc (snd (body x s'))
     | ReturnTrue => Pr (snd (body x s'))
     end) ->
  match fst (for_in xs body s) with
  | Continue _ => Pc (snd (for_in xs body s))
  | ReturnTrue => Pr (snd (for_in xs body s))
  end.
Proof.
  intros Hnil Hcc Hcr. revert s. induction xs as [|x xs IH]; intros s H.
  - exact Hnil.
  - rewrite for_in_cons, fst_bind, snd_bind.
    pose proof (H x s (or_introl eq_refl)) as Hx.
    destruct (fst (body x s)) as [s'|].
    + assert (IH' := IH s' (fun y s'' Hy => H y s'' (or_intror Hy))).
      destruct (fst (for_in xs body s')); [now apply Hcc | now apply Hcr].
    + cbn [ret snd]. now rewrite app_nil_r.
Qed.

(** Two loops over the same list whose bodies do the same work do the same
    work. *)
Lemma for_in_same_work {A S1 S2} (xs : list A)
      (body1 : A -> S1 -> M (Flow S1)) (body2 : A -> S2 -> M (Flow S2)) :
  (forall x s1 s2, In x xs -> same_work returned_true returned_true (body1 x s1) (body2 x s2)) ->
  forall s1 s2,
    same_work returned_true returned_true (for_in xs body1 s1) (for_in xs body2 s2).
Proof.
  unfold same_work, derivations.
  induction xs as [|x xs IH]; intros H s1 s2; [now split|].
  rewrite !for_in_cons, !fst_bind, !snd_bind, !filter_app.
  destruct (H x s1 s2 (or_introl eq_refl)) as [Hr Ht]. rewrite Ht.
  destruct (fst (body1 x s1)) as [s1'|], (fst (body2 x s2)) as [s2'|];
    try discriminate Hr.
  - destruct (IH (fun y a b Hy => H y a b (or_intror Hy)) s1' s2') as [Hr' Ht'].
    now rewrite Hr', Ht'.
  - now split.
Qed.

Lemma misses_app (cfg : Config L) (t1 t2 : list Event) :
  misses cfg t1 -> misses cfg t2 -> misses cfg (t1 ++ t2).
Proof. unfold misses. intros H1 H2. apply Forall_app. now split. Qed.

Lemma stops_at_match_app (cfg : Config L) found (t1 t2 : list Event) :
  misses cfg t1 -> stops_at_match cfg found t2 -> stops_at_match cfg found (t1 ++ t2).
Proof.
  intros H1 (pre & ev & logs & addr & p & -> & Hpre & Ha & Hp & Hhit & Hlogs).
  exists (t1 ++ pre), ev, logs, addr, p. rewrite <- app_assoc.
  repeat split; try assumption. now apply misses_app.
Qed.

End Loops.

(* ================================================================== *)
(** * Shapes of traces *)
(* ================================================================== *)

Section Shapes.
Context {L : BipUtils} (cfg : Config L).

Lemma only_logs_decoded (t : list Event) : only_logs t -> decoded t = [].
Proof.
  unfold decoded. induction 1 as [|e t [msg ->] _ IH]; [reflexivity|]. exact IH.
Qed.

Lemma decoded_app (t1 t2 : list Event) : decoded (t1 ++ t2) = decoded t1 ++ decoded t2.
Proof. apply flat_map_app. Qed.

Lemma only_logs_falls_through mnemonic p (t : list Event) :
  only_logs t -> falls_through cfg mnemonic p t.
Proof.
  unfold falls_through, misses, under. intros H.
  repeat split; [| | |now apply only_logs_decoded];
    eapply Forall_impl; try exact H; cbv beta;
    intros e [msg ->]; cbn; try exact I; intros; discriminate.
Qed.

Lemma only_logs_quiet (t : list Event) :
  only_logs t -> Forall (fun e => is_derivation e = false) t.
Proof.
  apply Forall_impl. now intros e [msg ->].
Qed.

Lemma only_logs_derivations (t : list Event) : only_logs t -> derivations t = [].
Proof.
  unfold derivations. induction 1 as [|e t [msg ->] _ IH]; [reflexivity|]. exact IH.
Qed.

Lemma falls_through_nil mnemonic p : falls_through cfg mnemonic p [].
Proof. repeat split; constructor. Qed.

Lemma decoded_app_nil (t1 t2 : list Event) :
  decoded t1 = [] -> decoded t2 = [] -> decoded (t1 ++ t2) = [].
Proof. intros H1 H2. now rewrite decoded_app, H1, H2. Qed.

Lemma falls_through_app mnemonic p (t1 t2 : list Event) :
  falls_through cfg mnemonic p t1 -> falls_through cfg mnemonic p t2 ->
  falls_through cfg mnemonic p (t1 ++ t2).
Proof.
  intros (A1 & B1 & C1 & D1) (A2 & B2 & C2 & D2).
  repeat split; [now apply misses_app | | |now apply decoded_app_nil];
    apply Forall_app; now split.
Qed.

Lemma returns_hit_app found mnemonic p (t1 t2 : list Event) :
  falls_through cfg mnemonic p t1 -> returns_hit cfg found mnemonic p t2 ->
  returns_hit cfg found mnemonic p (t1 ++ t2).
Proof.
  intros (A1 & B1 & C1 & D1) (A2 & B2 & C2 & D2).
  repeat split; [now apply stops_at_match_app | | |now apply decoded_app_nil];
    apply Forall_app; now split.
Qed.

(** One derived address, the records logged about it, and the "Found"
    record when it is a target: the step both files make at every index. *)
Lemma address_step found mnemonic p (ev : Event) (addr : string) (logs : list Event) :
  event_addr ev = Some addr ->
  event_passphrase ev = Some p ->
  genuine cfg mnemonic ev ->
  only_logs logs ->
  if Py.contains addr (ADDRESSES_TO_SEARCH cfg)
  then returns_hit cfg found mnemonic p (ev :: logs ++ [EvLog (found addr p)])
  else falls_through cfg mnemonic p (ev :: logs).
Proof.
  intros Ha Hp Hg Hl.
  destruct (Py.contains addr (ADDRESSES_TO_SEARCH cfg)) eqn:Hhit.
  - assert (Hl' : only_logs (logs ++ [EvLog (found addr p)])).
    { apply Forall_app. split; [exact Hl|]. repeat constructor. now eexists. }
    destruct (only_logs_falls_through mnemonic p _ Hl') as (_ & G & U & D).
    split; [|split; [|split]].
    + exists [], ev, logs, addr, p. repeat split; try assumption.
      * constructor.
      * now apply only_logs_quiet.
    + now constructor.
    + constructor; [|exact U]. intros q Hq. congruence.
    + change (decoded ([ev] ++ (logs ++ [EvLog (found addr p)])) = []).
      rewrite decoded_app, D. now destruct ev.
  - destruct (only_logs_falls_through mnemonic p _ Hl) as (Mi & G & U & D).
    split; [|split; [|split]].
    + constructor; [|exact Mi]. intros a Ha'. congruence.
    + now constructor.
    + constructor; [|exact U]. intros q Hq. congruence.
    + change (decoded ([ev] ++ logs) = []).
      rewrite decoded_app, D. now destruct ev.
Qed.

End Shapes.

Section SchemeShapes.
Context {L : BipUtils} (cfg : Config L).

Lemma flow_shape_for_in found mnemonic p {A S} (xs : list A)
      (body : A -> S -> M (Flow S)) (s : S) :
  (forall x s', In x xs -> flow_shape cfg found mnemonic p (body x s')) ->
  flow_shape cfg found mnemonic p (for_in xs body s).
Proof.
  intros H. unfold flow_shape.
  apply (for_in_trace (falls_through cfg mnemonic p) (returns_hit cfg found mnemonic p)).
  - apply falls_through_nil.
  - apply falls_through_app.
  - apply returns_hit_app.
  - exact H.
Qed.

Lemma flow_shape_bind found mnemonic p {A S} (c : M A) (k : A -> M (Flow S)) :
  falls_through cfg mnemonic p (snd c) ->
  flow_shape cfg found mnemonic p (k (fst c)) ->
  flow_shape cfg found mnemonic p (bind c k).
Proof.
  unfold flow_shape. rewrite fst_bind, snd_bind. intros Hpre Hc.
  destruct (fst (k (fst c))); [now apply falls_through_app | now apply returns_hit_app].
Qed.

Lemma context_event_falls_through mnemonic p (ev : Event) :
  event_addr ev = None -> event_passphrase ev = Some p ->
  falls_through cfg mnemonic p [ev].
Proof.
  intros Ha Hp. split; [|split; [|split]].
  - constructor; [|constructor]. intros a E. congruence.
  - constructor; [|constructor]. destruct ev; try exact I; discriminate.
  - constructor; [|constructor]. intros q E. congruence.
  - now destruct ev.
Qed.

(** ** The single-flow file *)

Lemma ST_log_always (msg : string) : ST.log cfg msg = (tt, [EvLog msg]).
Proof.
  unfold ST.log, ST.logging_log, ST.root_level. now destruct (VERBOSE cfg).
Qed.

Lemma ST_log_verbose_only_logs (msg : string) : only_logs (snd (ST.log_verbose cfg msg)).
Proof.
  unfold ST.log_verbose, ST.logging_log.
  destruct (ST.root_level cfg <=? ST.DEBUG); repeat constructor. now eexists.
Qed.

Lemma ST_bip32_index_shape mnemonic p path i (u : unit) :
  BIP32_ENABLED cfg = true -> In path (BIP32_DERIVATION_PATHS cfg) ->
  In i (Py.range (BIP32_ADDRESSES_NUM cfg)) ->
  flow_shape cfg (ST_found mnemonic) mnemonic p
    (ST.bip32_index_body cfg mnemonic p path
       (FromSeedAndPath (Generate mnemonic p) path) i u).
Proof.
  intros He Hpath Hi. apply range_In in Hi.
  pose proof (address_step cfg (ST_found mnemonic) mnemonic p
                (EvBip32Addr p path i (bip32_address cfg mnemonic p path i))
                (bip32_address cfg mnemonic p path i)
                (snd (ST.log_verbose cfg
                        ("    BIP32 Address " +s+ Py.str i +s+ ": "
                         +s+ bip32_address cfg mnemonic p path i)))
                eq_refl eq_refl (conj He (conj Hpath (conj Hi eq_refl)))
                (ST_log_verbose_only_logs _)) as H.
  unfold flow_shape, ST.bip32_index_body.
  fold (bip32_address cfg mnemonic p path i).
  rewrite !fst_bind, !snd_bind.
  destruct (Py.contains _ _).
  - rewrite fst_bind, snd_bind, ST_log_always. cbn [fst snd ret tell app].
    rewrite ?app_nil_r. exact H.
  - cbn [fst snd ret tell app]. rewrite ?app_nil_r. exact H.
Qed.

Lemma ST_bip32_path_shape mnemonic p path (u : unit) :
  BIP32_ENABLED cfg = true -> In path (BIP32_DERIVATION_PATHS cfg) ->
  flow_shape cfg (ST_found mnemonic) mnemonic p (ST.bip32_path_body cfg mnemonic p path u).
Proof.
  intros He Hpath. unfold ST.bip32_path_body.
  apply flow_shape_bind.
  { apply only_logs_falls_through, ST_log_verbose_only_logs. }
  apply flow_shape_bind.
  { now apply context_event_falls_through. }
  apply flow_shape_for_in. intros i s' Hi. destruct s'.
  now apply ST_bip32_index_shape.
Qed.

Lemma bool_shape_quiet found mnemonic p : bool_shape cfg found mnemonic p (ret false).
Proof. apply falls_through_nil. Qed.

Lemma bool_shape_bind found mnemonic p {A} (c : M A) (k : A -> M bool) :
  falls_through cfg mnemonic p (snd c) ->
  bool_shape cfg found mnemonic p (k (fst c)) ->
  bool_shape cfg found mnemonic p (bind c k).
Proof.
  unfold bool_shape. rewrite fst_bind, snd_bind. intros Hpre Hc.
  destruct (fst (k (fst c))); [now apply returns_hit_app | now apply falls_through_app].
Qed.

Lemma ST_bool_of_flow found mnemonic p (c : M (Flow unit)) :
  flow_shape cfg found mnemonic p c ->
  bool_shape cfg found mnemonic p (bind c (fun r => ret (returned_true r))).
Proof.
  unfold flow_shape, bool_shape. rewrite fst_bind, snd_bind. cbn [ret fst snd].
  rewrite app_nil_r. now destruct (fst c).
Qed.

Lemma ST_derive_bip32_shape mnemonic p :
  bool_shape cfg (ST_found mnemonic) mnemonic p (ST.derive_bip32_addresses cfg mnemonic p).
Proof.
  unfold ST.derive_bip32_addresses.
  destruct (BIP32_ENABLED cfg) eqn:He; cbn [negb]; [|apply bool_shape_quiet].
  apply bool_shape_bind.
  { apply only_logs_falls_through, ST_log_verbose_only_logs. }
  apply ST_bool_of_flow, flow_shape_for_in. intros path s' Hpath.
  now apply ST_bip32_path_shape.
Qed.

Lemma ST_bip44_index_shape mnemonic p i j (u : unit) :
  BIP44_ENABLED cfg = true -> In i (Py.range (BIP44_ACCOUNTS_NUM cfg)) ->
  In j (Py.range (BIP44_ADDRESSES_NUM cfg)) ->
  flow_shape cfg (ST_found mnemonic) mnemonic p
    (ST.bip44_index_body cfg mnemonic p i
       (Change (Account (Coin (Purpose (FromSeed (Generate mnemonic p) (BIP44_COIN cfg)))) i)
          (BIP44_CHANGE cfg)) j u).
Proof.
  intros He Hi Hj. apply range_In in Hi. apply range_In in Hj.
  pose proof (address_step cfg (ST_found mnemonic) mnemonic p
                (EvBip44Addr p i j (bip44_address cfg mnemonic p i j))
                (bip44_address cfg mnemonic p i j)
                (snd (ST.log_verbose cfg
                        ("    BIP44 Address " +s+ Py.str j +s+ ": "
                         +s+ bip44_address cfg mnemonic p i j)))
                eq_refl eq_refl (conj He (conj Hi (conj Hj eq_refl)))
                (ST_log_verbose_only_logs _)) as H.
  unfold flow_shape, ST.bip44_index_body.
  fold (bip44_address cfg mnemonic p i j).
  rewrite !fst_bind, !snd_bind.
  destruct (Py.contains _ _).
  - rewrite fst_bind, snd_bind, ST_log_always. cbn [fst snd ret tell app].
    rewrite ?app_nil_r. exact H.
  - cbn [fst snd ret tell app]. rewrite ?app_nil_r. exact H.
Qed.

Lemma ST_bip44_account_shape mnemonic p i (u : unit) :
  BIP44_ENABLED cfg = true -> In i (Py.range (BIP44_ACCOUNTS_NUM cfg)) ->
  flow_shape cfg (ST_found mnemonic) mnemonic p
    (ST.bip44_account_body cfg mnemonic p
       (Coin (Purpose (FromSeed (Generate mnemonic p) (BIP44_COIN cfg)))) i u).
Proof.
  intros He Hi. unfold ST.bip44_account_body.
  apply flow_shape_bind.
  { apply only_logs_falls_through, ST_log_verbose_only_logs. }
  apply flow_shape_bind.
  { now apply context_event_falls_through. }
  apply flow_shape_for_in. intros j s' Hj. destruct s'.
  now apply ST_bip44_index_shape.
Qed.

Lemma ST_derive_bip44_shape mnemonic p :
  bool_shape cfg (ST_found mnemonic) mnemonic p (ST.derive_bip44_addresses cfg mnemonic p).
Proof.
  unfold ST.derive_bip44_addresses.
  destruct (BIP44_ENABLED cfg) eqn:He; cbn [negb]; [|apply bool_shape_quiet].
  apply bool_shape_bind.
  { apply only_logs_falls_through, ST_log_verbose_only_logs. }
  apply bool_shape_bind.
  { now apply context_event_falls_through. }
  apply ST_bool_of_flow, flow_shape_for_in. intros i s' Hi.
  now apply ST_bip44_account_shape.
Qed.

(** ** The parallel file *)

Lemma MP_log_verbose_only_logs (msg : string) : only_logs (snd (MP.log_verbose cfg msg)).
Proof.
  unfold MP.log_verbose. destruct (VERBOSE cfg); repeat constructor. now eexists.
Qed.

Lemma MP_bip32_index_shape mnemonic p path i (msg : string) :
  BIP32_ENABLED cfg = true -> In path (BIP32_DERIVATION_PATHS cfg) ->
  In i (Py.range (BIP32_ADDRESSES_NUM cfg)) ->
  flow_shape cfg (MP_found mnemonic) mnemonic p
    (MP.bip32_index_body cfg mnemonic p path
       (FromSeedAndPath (Generate mnemonic p) path) i msg).
Proof.
  intros He Hpath Hi. apply range_In in Hi.
  pose proof (address_step cfg (MP_found mnemonic) mnemonic p
                (EvBip32Addr p path i (bip32_address cfg mnemonic p path i))
                (bip32_address cfg mnemonic p path i) []
                eq_refl eq_refl (conj He (conj Hpath (conj Hi eq_refl)))
                (Forall_nil _)) as H.
  unfold flow_shape, MP.bip32_index_body.
  fold (bip32_address cfg mnemonic p path i).
  rewrite !fst_bind, !snd_bind.
  destruct (Py.contains _ _); exact H.
Qed.

Lemma MP_bip32_path_shape mnemonic p path (msg : string) :
  BIP32_ENABLED cfg = true -> In path (BIP32_DERIVATION_PATHS cfg) ->
  flow_shape cfg (MP_found mnemonic) mnemonic p (MP.bip32_path_body cfg mnemonic p path msg).
Proof.
  intros He Hpath. unfold MP.bip32_path_body.
  apply flow_shape_bind.
  { now apply context_event_falls_through. }
  apply flow_shape_for_in. intros i s' Hi.
  now apply MP_bip32_index_shape.
Qed.

Lemma MP_bool_of_flow found mnemonic p (c : M (Flow string)) :
  flow_shape cfg found mnemonic p c ->
  bool_shape cfg found mnemonic p
    (bind c (fun r => match r with
                      | ReturnTrue => ret true
                      | Continue msg => bind (MP.log_verbose cfg msg) (fun _ => ret false)
                      end)).
Proof.
  unfold flow_shape, bool_shape. rewrite fst_bind, snd_bind.
  destruct (fst c) as [msg|]; cbn [ret fst snd bind]; rewrite app_nil_r; [|easy].
  intros H. apply falls_through_app; [exact H|].
  apply only_logs_falls_through, MP_log_verbose_only_logs.
Qed.

Lemma MP_derive_bip32_shape mnemonic p :
  bool_shape cfg (MP_found mnemonic) mnemonic p (MP.derive_bip32_addresses cfg mnemonic p).
Proof.
  unfold MP.derive_bip32_addresses.
  destruct (BIP32_ENABLED cfg) eqn:He; cbn [negb]; [|apply bool_shape_quiet].
  apply MP_bool_of_flow, flow_shape_for_in. intros path s' Hpath.
  now apply MP_bip32_path_shape.
Qed.

Lemma MP_bip44_index_shape mnemonic p i j (msg : string) :
  BIP44_ENABLED cfg = true -> In i (Py.range (BIP44_ACCOUNTS_NUM cfg)) ->
  In j (Py.range (BIP44_ADDRESSES_NUM cfg)) ->
  flow_shape cfg (MP_found mnemonic) mnemonic p
    (MP.bip44_index_body cfg mnemonic p i
       (Change (Account (Coin (Purpose (FromSeed (Generate mnemonic p) (BIP44_COIN cfg)))) i)
          (BIP44_CHANGE cfg)) j msg).
Proof.
  intros He Hi Hj. apply range_In in Hi. apply range_In in Hj.
  pose proof (address_step cfg (MP_found mnemonic) mnemonic p
                (EvBip44Addr p i j (bip44_address cfg mnemonic p i j))
                (bip44_address cfg mnemonic p i j) []
                eq_refl eq_refl (conj He (conj Hi (conj Hj eq_refl)))
                (Forall_nil _)) as H.
  unfold flow_shape, MP.bip44_index_body.
  fold (bip44_address cfg mnemonic p i j).
  rewrite !fst_bind, !snd_bind.
  destruct (Py.contains _ _); exact H.
Qed.

Lemma MP_bip44_account_shape mnemonic p i (msg : string) :
  BIP44_ENABLED cfg = true -> In i (Py.range (BIP44_ACCOUNTS_NUM cfg)) ->
  flow_shape cfg (MP_found mnemonic) mnemonic p
    (MP.bip44_account_body cfg mnemonic p
       (Coin (Purpose (FromSeed (Generate mnemonic p) (BIP44_COIN cfg)))) i msg).
Proof.
  intros He Hi. unfold MP.bip44_account_body.
  apply flow_shape_bind.
  { now apply context_event_falls_through. }
  apply flow_shape_for_in. intros j s' Hj.
  now apply MP_bip44_index_shape.
Qed.

Lemma MP_derive_bip44_shape mnemonic p :
  bool_shape cfg (MP_found mnemonic) mnemonic p (MP.derive_bip44_addresses cfg mnemonic p).
Proof.
  unfold MP.derive_bip44_addresses.
  destruct (BIP44_ENABLED cfg) eqn:He; cbn [negb]; [|apply bool_shape_quiet].
  apply bool_shape_bind.
  { now apply context_event_falls_through. }
  apply MP_bool_of_flow, flow_shape_for_in. intros i s' Hi.
  now apply MP_bip44_account_shape.
Qed.

End SchemeShapes.

(* ================================================================== *)
(** * The two files do the same work, whatever the verbosity *)
(* ================================================================== *)

Section SameWork.
Context {L : BipUtils} (cfg : Config L) (verbose : bool).

Local Abbreviation cfg' := (with_verbose cfg verbose).

Lemma derivations_app (t1 t2 : list Event) :
  derivations (t1 ++ t2) = derivations t1 ++ derivations t2.
Proof. apply filter_app. Qed.

Lemma same_work_bind {A1 A2 B1 B2 R} (rb1 : B1 -> R) (rb2 : B2 -> R)
      (c1 : M A1) (c2 : M A2) (k1 : A1 -> M B1) (k2 : A2 -> M B2) :
  derivations (snd c1) = derivations (snd c2) ->
  same_work rb1 rb2 (k1 (fst c1)) (k2 (fst c2)) ->
  same_work rb1 rb2 (bind c1 k1) (bind c2 k2).
Proof.
  unfold same_work. rewrite !fst_bind, !snd_bind, !derivations_app.
  intros -> [-> ->]. now split.
Qed.

Lemma ST_log_verbose_derivations (c : Config L) msg :
  derivations (snd (ST.log_verbose c msg)) = [].
Proof. apply only_logs_derivations, ST_log_verbose_only_logs. Qed.

Lemma MP_log_verbose_derivations (c : Config L) msg :
  derivations (snd (MP.log_verbose c msg)) = [].
Proof. apply only_logs_derivations, MP_log_verbose_only_logs. Qed.

Lemma bip32_index_same_work mnemonic p path ctx i msg (u : unit) :
  same_work returned_true returned_true
    (MP.bip32_index_body cfg mnemonic p path ctx i msg)
    (ST.bip32_index_body cfg' mnemonic p path ctx i u).
Proof.
  unfold MP.bip32_index_body, ST.bip32_index_body, same_work.
  rewrite !fst_bind, !snd_bind, !derivations_app, ST_log_verbose_derivations.
  cbn [with_verbose ADDRESSES_TO_SEARCH BIP32_ADDR_ENCODER_CLS
                   BIP32_ADDR_ENCODER_PARAMS].
  destruct (Py.contains _ _).
  - rewrite !fst_bind, !snd_bind, !derivations_app, ST_log_always. now split.
  - now split.
Qed.

Lemma bip32_path_same_work mnemonic p path msg (u : unit) :
  same_work returned_true returned_true
    (MP.bip32_path_body cfg mnemonic p path msg)
    (ST.bip32_path_body cfg' mnemonic p path u).
Proof.
  unfold MP.bip32_path_body, ST.bip32_path_body.
  apply (same_work_bind _ _ (ret tt) (ST.log_verbose cfg' _)
           (fun _ => bind (tell (EvBip32Ctx p path)) _)).
  { now rewrite ST_log_verbose_derivations. }
  apply same_work_bind; [reflexivity|].
  apply for_in_same_work. intros i s1 s2 _. destruct s2.
  apply bip32_index_same_work.
Qed.

Lemma derive_bip32_same_work mnemonic p :
  same_work (fun b => b) (fun b => b)
    (MP.derive_bip32_addresses cfg mnemonic p)
    (ST.derive_bip32_addresses cfg' mnemonic p).
Proof.
  unfold MP.derive_bip32_addresses, ST.derive_bip32_addresses.
  cbn [with_verbose BIP32_ENABLED BIP32_DERIVATION_PATHS].
  destruct (BIP32_ENABLED cfg); cbn [negb]; [|now split].
  destruct (for_in_same_work (BIP32_DERIVATION_PATHS cfg)
              (MP.bip32_path_body cfg mnemonic p)
              (ST.bip32_path_body (with_verbose cfg verbose) mnemonic p)
              (fun path s1 s2 _ => bip32_path_same_work mnemonic p path s1 s2)
              ("Mnemonic: " +s+ ToStr mnemonic +s+ ", passphrase: " +s+ p) tt)
    as [Hr Ht].
  unfold same_work.
  rewrite !fst_bind, !snd_bind, !derivations_app, ST_log_verbose_derivations, <- Ht.
  destruct (fst (for_in _ (MP.bip32_path_body _ _ _) _)) as [msg|];
    destruct (fst (for_in _ (ST.bip32_path_body _ _ _) _)); try discriminate Hr.
  - rewrite snd_bind, derivations_app, MP_log_verbose_derivations. now split.
  - now split.
Qed.

Lemma bip44_index_same_work mnemonic p i ctx j msg (u : unit) :
  same_work returned_true returned_true
    (MP.bip44_index_body cfg mnemonic p i ctx j msg)
    (ST.bip44_index_body cfg' mnemonic p i ctx j u).
Proof.
  unfold MP.bip44_index_body, ST.bip44_index_body, same_work.
  rewrite !fst_bind, !snd_bind, !derivations_app, ST_log_verbose_derivations.
  cbn [with_verbose ADDRESSES_TO_SEARCH].
  destruct (Py.contains _ _).
  - rewrite !fst_bind, !snd_bind, !derivations_app, ST_log_always. now split.
  - now split.
Qed.

Lemma bip44_account_same_work mnemonic p ctx i msg (u : unit) :
  same_work returned_true returned_true
    (MP.bip44_account_body cfg mnemonic p ctx i msg)
    (ST.bip44_account_body cfg' mnemonic p ctx i u).
Proof.
  unfold MP.bip44_account_body, ST.bip44_account_body.
  apply (same_work_bind _ _ (ret tt) (ST.log_verbose cfg' _)
           (fun _ => bind (tell (EvBip44Account p i)) _)).
  { now rewrite ST_log_verbose_derivations. }
  apply same_work_bind; [reflexivity|].
  apply for_in_same_work. intros j s1 s2 _. destruct s2.
  apply bip44_index_same_work.
Qed.

Lemma derive_bip44_same_work mnemonic p :
  same_work (fun b => b) (fun b => b)
    (MP.derive_bip44_addresses cfg mnemonic p)
    (ST.derive_bip44_addresses cfg' mnemonic p).
Proof.
  unfold MP.derive_bip44_addresses, ST.derive_bip44_addresses.
  cbn [with_verbose BIP44_ENABLED BIP44_ACCOUNTS_NUM BIP44_COIN].
  destruct (BIP44_ENABLED cfg); cbn [negb]; [|now split].
  set (ctx := Coin (Purpose (FromSeed (Generate mnemonic p) (BIP44_COIN cfg)))).
  destruct (for_in_same_work (Py.range (BIP44_ACCOUNTS_NUM cfg))
              (MP.bip44_account_body cfg mnemonic p ctx)
              (ST.bip44_account_body (with_verbose cfg verbose) mnemonic p ctx)
              (fun i s1 s2 _ => bip44_account_same_work mnemonic p ctx i s1 s2)
              ("Mnemonic: " +s+ ToStr mnemonic +s+ ", passphrase: " +s+ p) tt)
    as [Hr Ht].
  unfold same_work.
  rewrite !fst_bind, !snd_bind, !derivations_app, ST_log_verbose_derivations.
  rewrite <- Ht.
  destruct (fst (for_in _ (MP.bip44_account_body _ _ _ _) _)) as [msg|];
    destruct (fst (for_in _ (ST.bip44_account_body _ _ _ _) _)); try discriminate Hr.
  - rewrite snd_bind, derivations_app, MP_log_verbose_derivations. now split.
  - now split.
Qed.

End SameWork.

(* ================================================================== *)
(** * Decisions of the scheme functions *)
(* ================================================================== *)

Section SchemeResults.
Context {L : BipUtils} (cfg : Config L).

Lemma ST_bip32_index_result mnemonic p path i (u : unit) :
  returned_true
    (fst (ST.bip32_index_body cfg mnemonic p path
            (FromSeedAndPath (Generate mnemonic p) path) i u))
  = Py.contains (bip32_address cfg mnemonic p path i) (ADDRESSES_TO_SEARCH cfg).
Proof.
  unfold ST.bip32_index_body. fold (bip32_address cfg mnemonic p path i).
  rewrite !fst_bind. now destruct (Py.contains _ _).
Qed.

Lemma ST_derive_bip32_result mnemonic p :
  fst (ST.derive_bip32_addresses cfg mnemonic p) = bip32_hit cfg mnemonic p.
Proof.
  unfold ST.derive_bip32_addresses, bip32_hit.
  destruct (BIP32_ENABLED cfg); cbn [negb andb]; [|reflexivity].
  rewrite !fst_bind. cbn [ret fst].
  apply for_in_returned. intros path u _. unfold ST.bip32_path_body.
  rewrite !fst_bind. apply for_in_returned. intros i u' _.
  apply ST_bip32_index_result.
Qed.

Lemma ST_bip44_index_result mnemonic p i j (u : unit) :
  returned_true
    (fst (ST.bip44_index_body cfg mnemonic p i
            (Change (Account (Coin (Purpose (FromSeed (Generate mnemonic p) (BIP44_COIN cfg)))) i)
               (BIP44_CHANGE cfg)) j u))
  = Py.contains (bip44_address cfg mnemonic p i j) (ADDRESSES_TO_SEARCH cfg).
Proof.
  unfold ST.bip44_index_body. fold (bip44_address cfg mnemonic p i j).
  rewrite !fst_bind. now destruct (Py.contains _ _).
Qed.

Lemma ST_derive_bip44_result mnemonic p :
  fst (ST.derive_bip44_addresses cfg mnemonic p) = bip44_hit cfg mnemonic p.
Proof.
  unfold ST.derive_bip44_addresses, bip44_hit.
  destruct (BIP44_ENABLED cfg); cbn [negb andb]; [|reflexivity].
  rewrite !fst_bind. cbn [ret fst].
  apply for_in_returned. intros i u _. unfold ST.bip44_account_body.
  rewrite !fst_bind. apply for_in_returned. intros j u' _.
  apply ST_bip44_index_result.
Qed.

Lemma with_verbose_same (c : Config L) : with_verbose c (VERBOSE c) = c.
Proof. now destruct c. Qed.

Lemma MP_derive_bip32_result mnemonic p :
  fst (MP.derive_bip32_addresses cfg mnemonic p) = bip32_hit cfg mnemonic p.
Proof.
  destruct (derive_bip32_same_work cfg (VERBOSE cfg) mnemonic p) as [H _].
  rewrite with_verbose_same in H. rewrite H. apply ST_derive_bip32_result.
Qed.

Lemma MP_derive_bip44_result mnemonic p :
  fst (MP.derive_bip44_addresses cfg mnemonic p) = bip44_hit cfg mnemonic p.
Proof.
  destruct (derive_bip44_same_work cfg (VERBOSE cfg) mnemonic p) as [H _].
  rewrite with_verbose_same in H. rewrite H. apply ST_derive_bip44_result.
Qed.

(** The hits, as propositions. *)
Lemma bip32_hit_spec mnemonic p :
  bip32_hit cfg mnemonic p = true <->
  BIP32_ENABLED cfg = true /\
  exists path i, In path (BIP32_DERIVATION_PATHS cfg) /\
                 0 <= i < BIP32_ADDRESSES_NUM cfg /\
                 In (bip32_address cfg mnemonic p path i) (ADDRESSES_TO_SEARCH cfg).
Proof.
  unfold bip32_hit. rewrite andb_true_iff, existsb_exists. split.
  - intros (He & path & Hpath & Hi). apply existsb_exists in Hi.
    destruct Hi as (i & Hi & Hc). split; [exact He|]. exists path, i.
    repeat split; try assumption; try (now apply range_In in Hi).
    now apply contains_In.
  - intros (He & path & i & Hpath & Hi & Hc). split; [exact He|].
    exists path. split; [exact Hpath|]. apply existsb_exists. exists i.
    split; [now apply range_In | now apply contains_In].
Qed.

Lemma bip44_hit_spec mnemonic p :
  bip44_hit cfg mnemonic p = true <->
  BIP44_ENABLED cfg = true /\
  exists i j, 0 <= i < BIP44_ACCOUNTS_NUM cfg /\
              0 <= j < BIP44_ADDRESSES_NUM cfg /\
              In (bip44_address cfg mnemonic p i j) (ADDRESSES_TO_SEARCH cfg).
Proof.
  unfold bip44_hit. rewrite andb_true_iff, existsb_exists. split.
  - intros (He & i & Hi & Hj). apply existsb_exists in Hj.
    destruct Hj as (j & Hj & Hc). split; [exact He|]. exists i, j.
    repeat split; try (now apply range_In in Hi); try (now apply range_In in Hj).
    now apply contains_In.
  - intros (He & i & j & Hi & Hj & Hc). split; [exact He|].
    exists i. split; [now apply range_In|]. apply existsb_exists. exists j.
    split; [now apply range_In | now apply contains_In].
Qed.

Lemma has_match_spec mnemonic :
  has_match cfg mnemonic = true <-> some_target_derivable cfg mnemonic.
Proof.
  unfold has_match, some_target_derivable, passphrase_hit, derived_under.
  rewrite existsb_exists. split.
  - intros (p & Hp & Hhit). apply orb_true_iff in Hhit.
    destruct Hhit as [H|H].
    + apply bip32_hit_spec in H. destruct H as (He & path & i & Hpath & Hi & Hin).
      exists p, (bip32_address cfg mnemonic p path i).
      repeat split; try assumption. left. split; [exact He|]. now exists path, i.
    + apply bip44_hit_spec in H. destruct H as (He & i & j & Hi & Hj & Hin).
      exists p, (bip44_address cfg mnemonic p i j).
      repeat split; try assumption. right. split; [exact He|]. now exists i, j.
  - intros (p & addr & Hp & Hd & Hin). exists p. split; [exact Hp|].
    apply orb_true_iff.
    destruct Hd as [(He & path & i & Hpath & Hi & ->)|(He & i & j & Hi & Hj & ->)].
    + left. apply bip32_hit_spec. split; [exact He|]. now exists path, i.
    + right. apply bip44_hit_spec. split; [exact He|]. now exists i, j.
Qed.

End SchemeResults.

(* ================================================================== *)
(** * The check as a whole *)
(* ================================================================== *)

Section Check.
Context {L : BipUtils} (cfg : Config L).
Variables d32 d44 : Bip39Mnemonic -> string -> M bool.
Variable found : Bip39Mnemonic -> string -> string -> string.
Hypothesis d32_result : forall m p, fst (d32 m p) = bip32_hit cfg m p.
Hypothesis d44_result : forall m p, fst (d44 m p) = bip44_hit cfg m p.
Hypothesis d32_shape : forall m p, bool_shape cfg (found m) m p (d32 m p).
Hypothesis d44_shape : forall m p, bool_shape cfg (found m) m p (d44 m p).

Lemma passphrase_body_result m p (u : unit) :
  returned_true (fst (passphrase_body_with d32 d44 m p u)) = passphrase_hit cfg m p.
Proof.
  unfold passphrase_body_with, passphrase_hit.
  rewrite fst_bind, d32_result.
  destruct (bip32_hit cfg m p); [reflexivity|].
  rewrite fst_bind, d44_result. now destruct (bip44_hit cfg m p).
Qed.

Lemma check_with_result m :
  fst (check_mnemonic_with d32 d44 (MNEMONIC_PASSPHRASES cfg) m) = check_outcome cfg m.
Proof.
  unfold check_mnemonic_with, check_outcome. rewrite fst_bind.
  destruct (Decode m) as [ent|[|]]; try reflexivity.
  rewrite fst_bind. cbn [ret fst]. f_equal.
  apply for_in_returned. intros p u _. apply passphrase_body_result.
Qed.

Lemma passphrase_body_shape m p (u : unit) :
  flow_shape cfg (found m) m p (passphrase_body_with d32 d44 m p u).
Proof.
  unfold passphrase_body_with, flow_shape.
  pose proof (d32_shape m p) as H32. pose proof (d44_shape m p) as H44.
  unfold bool_shape in H32, H44.
  rewrite fst_bind, snd_bind.
  destruct (fst (d32 m p)).
  - cbn [ret fst snd]. now rewrite app_nil_r.
  - rewrite fst_bind, snd_bind.
    destruct (fst (d44 m p)); cbn [ret fst snd]; rewrite app_nil_r.
    + now apply returns_hit_app.
    + now apply falls_through_app.
Qed.

Lemma returns_hit_evidence m p (t : list Event) :
  In p (MNEMONIC_PASSPHRASES cfg) ->
  returns_hit cfg (found m) m p t -> match_evidence cfg (found m) m t.
Proof.
  intros Hp ((pre & ev & logs & addr & q & -> & Hpre & Ha & Hq & Hhit & Hlogs) & G & U & _).
  assert (Hin : In ev (pre ++ ev :: logs ++ [EvLog (found m addr q)])).
  { apply in_or_app. right. now left. }
  assert (q = p) as ->.
  { unfold under in U. rewrite Forall_forall in U. exact (U ev Hin q Hq). }
  rewrite Forall_forall in G. specialize (G ev Hin).
  exists pre, ev, logs, addr, p. repeat split; try assumption.
  - destruct ev; try discriminate Ha; cbn in Ha, Hq, G;
      injection Ha as ->; injection Hq as ->.
    + destruct G as (He & Hpath & Hi & ->). left. split; [exact He|]. now exists path, i.
    + destruct G as (He & Hi & Hj & ->). right. split; [exact He|]. now exists i, j.
  - now apply contains_In.
Qed.

Lemma match_evidence_app m (t1 t2 : list Event) :
  misses cfg t1 -> match_evidence cfg (found m) m t2 ->
  match_evidence cfg (found m) m (t1 ++ t2).
Proof.
  intros H1 (pre & ev & logs & addr & p & -> & Hpre & Hrest).
  exists (t1 ++ pre), ev, logs, addr, p. rewrite <- app_assoc.
  split; [reflexivity|]. split; [now apply misses_app | exact Hrest].
Qed.

Lemma passphrases_loop_shape m (ps : list string) :
  incl ps (MNEMONIC_PASSPHRASES cfg) ->
  match fst (for_in ps (passphrase_body_with d32 d44 m) tt) with
  | Continue _ => misses cfg (snd (for_in ps (passphrase_body_with d32 d44 m) tt))
  | ReturnTrue =>
      match_evidence cfg (found m) m (snd (for_in ps (passphrase_body_with d32 d44 m) tt))
  end.
Proof.
  intros Hincl.
  apply (for_in_trace (misses cfg) (match_evidence cfg (found m) m)).
  - constructor.
  - apply misses_app.
  - apply match_evidence_app.
  - intros p u Hp. pose proof (passphrase_body_shape m p u) as H.
    unfold flow_shape in H.
    destruct (fst (passphrase_body_with d32 d44 m p u)).
    + now destruct H.
    + apply (returns_hit_evidence m p); [now apply Hincl | exact H].
Qed.

Lemma decode_event_misses m : misses cfg [EvDecode m].
Proof. repeat constructor. intros a E. discriminate E. Qed.

Lemma check_with_shape m :
  check_shape cfg (found m) m (check_mnemonic_with d32 d44 (MNEMONIC_PASSPHRASES cfg) m).
Proof.
  unfold check_shape, check_mnemonic_with. rewrite fst_bind, snd_bind.
  destruct (Decode m) as [ent|[|]] eqn:Hd.
  - rewrite fst_bind, snd_bind. cbn [ret tell fst snd]. rewrite app_nil_r.
    pose proof (passphrases_loop_shape m (MNEMONIC_PASSPHRASES cfg) (incl_refl _)) as H.
    destruct (fst (for_in _ _ _)); cbn [returned_true].
    + split; [|intros e E; discriminate E].
      apply (misses_app cfg [EvDecode m]); [apply decode_event_misses | exact H].
    + apply (match_evidence_app m [EvDecode m]); [apply decode_event_misses | exact H].
  - cbn [ret tell fst snd app]. split; [apply decode_event_misses | reflexivity].
  - cbn [ret tell fst snd app]. now split.
Qed.

(** Passphrases are tried in order and the first hit ends the check: when
    the passphrase at some position hits, nothing listed after it is run. *)
Lemma under_evaluated p (t : list Event) :
  under p t -> Forall (eq p) (evaluated_passphrases t).
Proof.
  unfold under, evaluated_passphrases. induction 1 as [|e t He _ IH]; [constructor|].
  cbn [flat_map]. destruct (event_passphrase e) as [q|]; [|exact IH].
  constructor; [symmetry; now apply He | exact IH].
Qed.

Lemma passphrase_body_under m p (u : unit) :
  under p (snd (passphrase_body_with d32 d44 m p u)).
Proof.
  pose proof (passphrase_body_shape m p u) as H. unfold flow_shape in H.
  destruct (fst (passphrase_body_with d32 d44 m p u)); apply H.
Qed.

Lemma evaluated_app (t1 t2 : list Event) :
  evaluated_passphrases (t1 ++ t2) = evaluated_passphrases t1 ++ evaluated_passphrases t2.
Proof. apply flat_map_app. Qed.

Lemma passphrases_loop_evaluated m (before : list string) p (after : list string) :
  passphrase_hit cfg m p = true ->
  Forall (fun q => In q (before ++ [p]))
    (evaluated_passphrases
       (snd (for_in (before ++ p :: after) (passphrase_body_with d32 d44 m) tt))).
Proof.
  intros Hhit. induction before as [|q before IH].
  - cbn [app]. rewrite for_in_cons, snd_bind.
    pose proof (passphrase_body_result m p tt) as Hr. rewrite Hhit in Hr.
    destruct (fst (passphrase_body_with d32 d44 m p tt)); [discriminate Hr|].
    cbn [ret snd]. rewrite app_nil_r.
    eapply Forall_impl; [|apply under_evaluated, passphrase_body_under].
    intros a <-. now left.
  - cbn [app]. rewrite for_in_cons, snd_bind, evaluated_app. apply Forall_app. split.
    + eapply Forall_impl; [|apply under_evaluated, passphrase_body_under].
      intros a <-. now left.
    + destruct (fst (passphrase_body_with d32 d44 m q tt)) as [[]|].
      * eapply Forall_impl; [|exact IH]. intros a Ha. now right.
      * constructor.
Qed.

Lemma check_with_evaluated m (before : list string) p (after : list string) :
  MNEMONIC_PASSPHRASES cfg = before ++ p :: after ->
  passphrase_hit cfg m p = true ->
  Forall (fun q => In q (before ++ [p]))
    (evaluated_passphrases (snd (check_mnemonic_with d32 d44 (MNEMONIC_PASSPHRASES cfg) m))).
Proof.
  intros Hps Hhit. unfold check_mnemonic_with. rewrite snd_bind.
  cbn [tell snd app evaluated_passphrases flat_map event_passphrase].
  destruct (Decode m) as [ent|[|]]; try constructor.
  rewrite snd_bind. cbn [ret snd]. rewrite app_nil_r, Hps.
  now apply passphrases_loop_evaluated.
Qed.

Lemma passphrases_loop_decoded m (ps : list string) :
  decoded (snd (for_in ps (passphrase_body_with d32 d44 m) tt)) = [].
Proof.
  pose proof (for_in_trace (fun t => decoded t = []) (fun t => decoded t = []) ps
                (passphrase_body_with d32 d44 m) tt eq_refl
                decoded_app_nil decoded_app_nil) as H.
  cbv beta in H.
  destruct (fst (for_in ps (passphrase_body_with d32 d44 m) tt)); apply H;
    intros p u _; pose proof (passphrase_body_shape m p u) as S;
    unfold flow_shape in S;
    destruct (fst (passphrase_body_with d32 d44 m p u)); apply S.
Qed.

Lemma check_with_decoded m :
  decoded (snd (check_mnemonic_with d32 d44 (MNEMONIC_PASSPHRASES cfg) m)) = [m].
Proof.
  unfold check_mnemonic_with. rewrite snd_bind, decoded_app.
  destruct (Decode m) as [ent|[|]]; try reflexivity.
  rewrite snd_bind, decoded_app, passphrases_loop_decoded. reflexivity.
Qed.

End Check.

Section CheckSameWork.
Context {L : BipUtils}.
Variables d32 d44 d32' d44' : Bip39Mnemonic -> string -> M bool.
Variable m : Bip39Mnemonic.
Hypothesis same32 : forall p, same_work (fun b => b) (fun b => b) (d32 m p) (d32' m p).
Hypothesis same44 : forall p, same_work (fun b => b) (fun b => b) (d44 m p) (d44' m p).

Lemma passphrase_body_same_work p (u u' : unit) :
  same_work returned_true returned_true
    (passphrase_body_with d32 d44 m p u) (passphrase_body_with d32' d44' m p u').
Proof.
  unfold passphrase_body_with, same_work.
  destruct (same32 p) as [R32 T32]. destruct (same44 p) as [R44 T44].
  cbv beta in R32, R44.
  rewrite !fst_bind, !snd_bind, !derivations_app, R32, T32.
  destruct (fst (d32' m p)); [now split|].
  rewrite !fst_bind, !snd_bind, !derivations_app, R44, T44.
  now destruct (fst (d44' m p)).
Qed.

Lemma check_with_same_work (ps : list string) :
  same_work (fun r => r) (fun r => r)
    (check_mnemonic_with d32 d44 ps m) (check_mnemonic_with d32' d44' ps m).
Proof.
  unfold check_mnemonic_with, same_work.
  rewrite !fst_bind, !snd_bind, !derivations_app.
  destruct (Decode m) as [ent|[|]]; try now split.
  destruct (for_in_same_work ps (passphrase_body_with d32 d44 m)
              (passphrase_body_with d32' d44' m)
              (fun p u u' _ => passphrase_body_same_work p u u') tt tt) as [Hr Ht].
  rewrite !fst_bind, !snd_bind, !derivations_app, Ht. cbn [ret fst snd].
  now rewrite Hr.
Qed.

End CheckSameWork.

Section Variants.
Context {L : BipUtils} (cfg : Config L).

Lemma ST_check_is_skeleton m :
  ST.check_mnemonic cfg m
  = check_mnemonic_with (ST.derive_bip32_addresses cfg) (ST.derive_bip44_addresses cfg)
      (MNEMONIC_PASSPHRASES cfg) m.
Proof. reflexivity. Qed.

Lemma MP_check_is_skeleton m :
  MP.check_mnemonic cfg m
  = check_mnemonic_with (MP.derive_bip32_addresses cfg) (MP.derive_bip44_addresses cfg)
      (MNEMONIC_PASSPHRASES cfg) m.
Proof. reflexivity. Qed.

Lemma ST_check_result m : fst (ST.check_mnemonic cfg m) = check_outcome cfg m.
Proof.
  rewrite ST_check_is_skeleton.
  apply check_with_result; [apply ST_derive_bip32_result | apply ST_derive_bip44_result].
Qed.

Lemma MP_check_result m : fst (MP.check_mnemonic cfg m) = check_outcome cfg m.
Proof.
  rewrite MP_check_is_skeleton.
  apply check_with_result; [apply MP_derive_bip32_result | apply MP_derive_bip44_result].
Qed.

Lemma ST_check_shape m : check_shape cfg (ST_found m) m (ST.check_mnemonic cfg m).
Proof.
  rewrite ST_check_is_skeleton.
  apply (check_with_shape cfg _ _ ST_found);
    [apply ST_derive_bip32_shape | apply ST_derive_bip44_shape].
Qed.

Lemma MP_check_shape m : check_shape cfg (MP_found m) m (MP.check_mnemonic cfg m).
Proof.
  rewrite MP_check_is_skeleton.
  apply (check_with_shape cfg _ _ MP_found);
    [apply MP_derive_bip32_shape | apply MP_derive_bip44_shape].
Qed.

Lemma ST_check_evaluated m before p after :
  MNEMONIC_PASSPHRASES cfg = before ++ p :: after ->
  passphrase_hit cfg m p = true ->
  Forall (fun q => In q (before ++ [p]))
    (evaluated_passphrases (snd (ST.check_mnemonic cfg m))).
Proof.
  rewrite ST_check_is_skeleton.
  apply (check_with_evaluated cfg _ _ ST_found).
  - apply ST_derive_bip32_result.
  - apply ST_derive_bip44_result.
  - apply ST_derive_bip32_shape.
  - apply ST_derive_bip44_shape.
Qed.

Lemma MP_check_evaluated m before p after :
  MNEMONIC_PASSPHRASES cfg = before ++ p :: after ->
  passphrase_hit cfg m p = true ->
  Forall (fun q => In q (before ++ [p]))
    (evaluated_passphrases (snd (MP.check_mnemonic cfg m))).
Proof.
  rewrite MP_check_is_skeleton.
  apply (check_with_evaluated cfg _ _ MP_found).
  - apply MP_derive_bip32_result.
  - apply MP_derive_bip44_result.
  - apply MP_derive_bip32_shape.
  - apply MP_derive_bip44_shape.
Qed.

Lemma ST_check_decoded m : decoded (snd (ST.check_mnemonic cfg m)) = [m].
Proof.
  rewrite ST_check_is_skeleton.
  apply (check_with_decoded cfg _ _ ST_found).
  - apply ST_derive_bip32_shape.
  - apply ST_derive_bip44_shape.
Qed.

(** The parallel file against the single-flow file at any verbosity. *)
Lemma check_same_work verbose m :
  same_work (fun r => r) (fun r => r)
    (MP.check_mnemonic cfg m) (ST.check_mnemonic (with_verbose cfg verbose) m).
Proof.
  apply (check_with_same_work
           (MP.derive_bip32_addresses cfg) (MP.derive_bip44_addresses cfg)
           (ST.derive_bip32_addresses (with_verbose cfg verbose))
           (ST.derive_bip44_addresses (with_verbose cfg verbose)) m
           (fun p => derive_bip32_same_work cfg verbose m p)
           (fun p => derive_bip44_same_work cfg verbose m p)
           (MNEMONIC_PASSPHRASES cfg)).
Qed.

End Variants.

Section Outcome.
Context {L : BipUtils} (cfg : Config L).

Lemma check_outcome_true_iff m :
  check_outcome cfg m = Ok true <->
  (exists entropy, Decode m = Ok entropy) /\ some_target_derivable cfg m.
Proof.
  unfold check_outcome. rewrite <- has_match_spec.
  destruct (Decode m) as [ent|[|]]; split.
  - intros H. split; [now exists ent | congruence].
  - intros [_ H]. now rewrite H.
  - discriminate.
  - intros [[ent E] _]. discriminate E.
  - discriminate.
  - intros [[ent E] _]. discriminate E.
Qed.

Lemma some_target_derivable_order m (passphrases paths : list string) :
  Permutation (MNEMONIC_PASSPHRASES cfg) passphrases ->
  Permutation (BIP32_DERIVATION_PATHS cfg) paths ->
  some_target_derivable (with_order cfg passphrases paths) m <-> some_target_derivable cfg m.
Proof.
  intros Hps Hpaths. unfold some_target_derivable, derived_under.
  cbn [with_order MNEMONIC_PASSPHRASES BIP32_DERIVATION_PATHS BIP32_ENABLED BIP44_ENABLED
       BIP32_ADDRESSES_NUM BIP44_ACCOUNTS_NUM BIP44_ADDRESSES_NUM ADDRESSES_TO_SEARCH].
  split; intros (p & addr & Hp & Hd & Hin); exists p, addr.
  - split; [eapply Permutation_in; [symmetry; exact Hps | exact Hp]|].
    split; [|exact Hin].
    destruct Hd as [(He & path & i & Hpath & Hi & ->)|Hd]; [|now right].
    left. split; [exact He|]. exists path, i.
    split; [eapply Permutation_in; [symmetry; exact Hpaths | exact Hpath]|].
    now split.
  - split; [eapply Permutation_in; [exact Hps | exact Hp]|].
    split; [|exact Hin].
    destruct Hd as [(He & path & i & Hpath & Hi & ->)|Hd]; [|now right].
    left. split; [exact He|]. exists path, i.
    split; [eapply Permutation_in; [exact Hpaths | exact Hpath]|].
    now split.
Qed.

Lemma check_outcome_order m (passphrases paths : list string) :
  Permutation (MNEMONIC_PASSPHRASES cfg) passphrases ->
  Permutation (BIP32_DERIVATION_PATHS cfg) paths ->
  check_outcome (with_order cfg passphrases paths) m = check_outcome cfg m.
Proof.
  intros Hps Hpaths. unfold check_outcome.
  destruct (Decode m) as [ent|[|]]; try reflexivity.
  f_equal. apply eq_iff_eq_true. rewrite !has_match_spec.
  now apply some_target_derivable_order.
Qed.

Lemma match_evidence_first_hit found m (t : list Event) :
  match_evidence cfg found m t -> ends_at_first_hit cfg t.
Proof.
  intros (pre & ev & logs & addr & p & -> & Hpre & Ha & _ & _ & _ & Hin & Hlogs).
  exists pre, ev, (logs ++ [EvLog (found addr p)]), addr.
  repeat split; try assumption.
  apply Forall_app. split; [exact Hlogs|]. now repeat constructor.
Qed.

End Outcome.

(* ================================================================== *)
(** * The processes: what one step can change *)
(* ================================================================== *)

Section ProcessSteps.
Context {L : BipUtils} (cfg : Config L).

Local Abbreviation Shared := (@Sys.Shared L).
Local Abbreviation System := (@Sys.System L).

Lemma logger_step_frame (sh sh' : Shared) pc pc' :
  Sys.logger_step sh pc = Some (sh', pc') ->
  Sys.stop_processing sh' = Sys.stop_processing sh
  /\ Sys.mnemonic_queue sh' = Sys.mnemonic_queue sh
  /\ Sys.generated sh' = Sys.generated sh
  /\ Sys.pulled sh' = Sys.pulled sh
  /\ Sys.completed sh' = Sys.completed sh.
Proof.
  destruct pc; cbn [Sys.logger_step]; intros H.
  - injection H as <- <-. now repeat split.
  - destruct (q_get (Sys.logger_queue sh)) as [[msg q]|];
      injection H as <- <-; now repeat split.
  - injection H as <- <-. now repeat split.
  - discriminate H.
Qed.

Lemma generator_step_frame (sh sh' : Shared) pc pc' :
  Sys.generator_step sh pc = Some (sh', pc') ->
  Sys.stop_processing sh' = Sys.stop_processing sh
  /\ Sys.pulled sh' = Sys.pulled sh
  /\ Sys.completed sh' = Sys.completed sh
  /\ Sys.log_file sh' = Sys.log_file sh
  /\ exists extra,
       items (Sys.mnemonic_queue sh') = items (Sys.mnemonic_queue sh) ++ extra
       /\ Sys.generated sh' = Sys.generated sh ++ extra.
Proof.
  destruct pc as [[|t rest]|m rest|]; cbn [Sys.generator_step]; intros H.
  - injection H as <- <-. repeat split. exists []. now rewrite !app_nil_r.
  - destruct (Sys.stop_processing sh) eqn:E; injection H as <- <-;
      (split; [exact E|]); repeat split; exists []; now rewrite !app_nil_r.
  - destruct (q_full (Sys.mnemonic_queue sh)); [discriminate H|].
    injection H as <- <-. repeat split. now exists [m].
  - discriminate H.
Qed.

Lemma main_step_frame (s : System) (sh' : Shared) pc' :
  Sys.main_step s = Some (sh', pc') ->
  (Sys.stop_processing (Sys.shared s) = true -> Sys.stop_processing sh' = true)
  /\ Sys.mnemonic_queue sh' = Sys.mnemonic_queue (Sys.shared s)
  /\ Sys.generated sh' = Sys.generated (Sys.shared s)
  /\ Sys.pulled sh' = Sys.pulled (Sys.shared s)
  /\ Sys.completed sh' = Sys.completed (Sys.shared s)
  /\ Sys.log_file sh' = Sys.log_file (Sys.shared s).
Proof.
  unfold Sys.main_step. destruct (Sys.main s); intros H.
  - destruct (Sys.generator s); try discriminate H. injection H as <- <-. now repeat split.
  - destruct (unfinished_tasks _); try discriminate H. injection H as <- <-. now repeat split.
  - destruct (unfinished_tasks _); try discriminate H. injection H as <- <-. now repeat split.
  - injection H as <- <-. now repeat split.
  - destruct (forallb _ _); try discriminate H. injection H as <- <-. now repeat split.
  - destruct (Sys.logger s); try discriminate H. injection H as <- <-. now repeat split.
  - discriminate H.
Qed.

Lemma checker_step_move (sh sh' : Shared) pc pc' :
  Sys.checker_step cfg sh pc = Some (sh', pc') -> checker_move cfg sh pc sh' pc'.
Proof.
  destruct pc as [| |m pending r| |e]; cbn [Sys.checker_step]; intros H.
  - destruct (Sys.stop_processing sh) eqn:E; injection H as <- <-;
      [now apply move_exit | now apply move_enter].
  - unfold q_get in *.
    destruct (items (Sys.mnemonic_queue sh)) as [|m rest] eqn:E.
    + injection H as <- <-. now apply move_timeout.
    + injection H as <- <-. eapply move_pull; [exact E | | reflexivity].
      unfold q_get. now rewrite E.
  - destruct pending as [|msg pending].
    + destruct r as [[|]|e]; injection H as <- <-; constructor.
    + destruct (q_full (Sys.logger_queue sh)) eqn:E; [discriminate H|].
      injection H as <- <-. now constructor.
  - discriminate H.
  - discriminate H.
Qed.

End ProcessSteps.

Section SystemInvariants.
Context {L : BipUtils} (cfg : Config L).

Local Abbreviation System := (@Sys.System L).

Lemma waiting_update (ws : list Sys.CheckerPc) i w pc :
  nth_error ws i = Some w ->
  (Sys.waiting_in_get (Sys.update i pc ws) + Sys.in_get w
   = Sys.waiting_in_get ws + Sys.in_get pc)%nat.
Proof.
  unfold Sys.waiting_in_get. revert i.
  induction ws as [|x ws IH]; intros [|i] H; try discriminate H;
    cbn [Sys.update map list_sum fold_right nth_error] in *.
  - injection H as ->. ring.
  - specialize (IH i H). unfold list_sum in IH.
    rewrite <- Nat.add_assoc, IH. ring.
Qed.

Lemma in_flight_update (ws : list Sys.CheckerPc) i w pc :
  nth_error ws i = Some w ->
  Permutation (Sys.in_flight (Sys.update i pc ws) ++ flight w)
              (Sys.in_flight ws ++ flight pc).
Proof.
  unfold Sys.in_flight. revert i.
  induction ws as [|x ws IH]; intros [|i] H; try discriminate H.
  - injection H as ->. cbn [Sys.update flat_map]. fold (flight w). fold (flight pc).
    rewrite <- !app_assoc. rewrite (Permutation_app_comm (flight pc)).
    rewrite !app_assoc. apply Permutation_app_tail, Permutation_app_comm.
  - cbn [Sys.update flat_map nth_error] in *. rewrite <- !app_assoc.
    apply Permutation_app_head. now apply IH.
Qed.

Lemma terminated_nth (ws : list (@Sys.CheckerPc L)) i w :
  nth_error ws i = Some w ->
  forallb Sys.terminated ws = true -> Sys.terminated w = true.
Proof.
  intros H F. rewrite forallb_forall in F. apply F. eapply nth_error_In, H.
Qed.

(** The stop flag is never reset. *)
Lemma step_stop_monotone pid (s s' : System) :
  Sys.step cfg pid s = Some s' ->
  Sys.stop_processing (Sys.shared s) = true ->
  Sys.stop_processing (Sys.shared s') = true.
Proof.
  unfold Sys.step. intros H Hs. destruct pid as [|i| |].
  - destruct (Sys.logger_step _ _) as [[sh pc]|] eqn:E; [|discriminate H].
    injection H as <-. cbn. apply logger_step_frame in E. destruct E as [-> _]. exact Hs.
  - destruct (nth_error _ i) as [w|]; [|discriminate H].
    destruct (Sys.checker_step _ _ _) as [[sh pc]|] eqn:E; [|discriminate H].
    injection H as <-. cbn. apply checker_step_move in E.
    destruct E; cbn; try assumption; reflexivity.
  - destruct (Sys.generator_step _ _) as [[sh pc]|] eqn:E; [|discriminate H].
    injection H as <-. cbn. apply generator_step_frame in E. destruct E as [-> _]. exact Hs.
  - destruct (Sys.main_step _) as [[sh pc]|] eqn:E; [|discriminate H].
    injection H as <-. cbn. apply main_step_frame in E. destruct E as [E _]. now apply E.
Qed.

Lemma steps_stop_monotone (s s' : System) :
  Sys.steps cfg s s' ->
  Sys.stop_processing (Sys.shared s) = true ->
  Sys.stop_processing (Sys.shared s') = true.
Proof.
  induction 1 as [|pid s s1 s2 H _ IH]; intros Hs; [exact Hs|].
  apply IH. eapply step_stop_monotone; eassumption.
Qed.

Lemma step_fifo pid (s s' : System) :
  Sys.step cfg pid s = Some s' -> fifo s -> fifo s'.
Proof.
  unfold Sys.step, fifo. intros H I. destruct pid as [|i| |].
  - destruct (Sys.logger_step _ _) as [[sh pc]|] eqn:E; [|discriminate H].
    injection H as <-. cbn. apply logger_step_frame in E.
    destruct E as (_ & -> & -> & -> & _). exact I.
  - destruct (nth_error _ i) as [w|]; [|discriminate H].
    destruct (Sys.checker_step _ _ _) as [[sh pc]|] eqn:E; [|discriminate H].
    injection H as <-. cbn. apply checker_step_move in E.
    destruct E as [| | |m rest q Hit _ Hq| | | |]; cbn; try exact I.
    rewrite I, Hit, Hq, <- app_assoc. reflexivity.
  - destruct (Sys.generator_step _ _) as [[sh pc]|] eqn:E; [|discriminate H].
    injection H as <-. cbn. apply generator_step_frame in E.
    destruct E as (_ & -> & _ & _ & extra & -> & ->). rewrite I. now rewrite app_assoc.
  - destruct (Sys.main_step _) as [[sh pc]|] eqn:E; [|discriminate H].
    injection H as <-. cbn. apply main_step_frame in E.
    destruct E as (_ & -> & -> & -> & _). exact I.
Qed.

Lemma Forall_update {A} (P : A -> Prop) (xs : list A) i x :
  Forall P xs -> P x -> Forall P (Sys.update i x xs).
Proof.
  intros H Hx. revert i. induction H as [|y ys Hy Hys IH]; intros [|i]; cbn;
    constructor; auto.
Qed.

Lemma step_accounted pid (s s' : System) :
  Sys.step cfg pid s = Some s' -> accounted cfg s -> accounted cfg s'.
Proof.
  unfold Sys.step, accounted. intros H (P & C & W). destruct pid as [|i| |].
  - destruct (Sys.logger_step _ _) as [[sh pc]|] eqn:E; [|discriminate H].
    injection H as <-. cbn. apply logger_step_frame in E.
    destruct E as (_ & _ & _ & -> & ->). now repeat split.
  - destruct (nth_error _ i) as [w|] eqn:Hw; [|discriminate H].
    destruct (Sys.checker_step _ _ _) as [[sh pc]|] eqn:E; [|discriminate H].
    injection H as <-. cbn. apply checker_step_move in E.
    pose proof (in_flight_update (Sys.checkers s) i w pc Hw) as U.
    assert (Hr : match w with
                 | Sys.WChecking m _ r => r = fst (MP.check_mnemonic cfg m)
                 | _ => True
                 end).
    { rewrite Forall_forall in W. apply W. eapply nth_error_In, Hw. }
    destruct E as [| | |m rest q Hit _ Hq|m msg pending r|m|m|m e];
      cbn [Sys.pulled Sys.completed Sys.set_stop Sys.print Sys.note_completed
           Sys.note_pulled Sys.set_mnemonic_queue Sys.set_logger_queue flight] in *;
      rewrite ?app_nil_r in U.
    + repeat split; [|exact C|now apply Forall_update]. now rewrite U.
    + repeat split; [|exact C|now apply Forall_update]. now rewrite U.
    + repeat split; [|exact C|now apply Forall_update]. now rewrite U.
    + repeat split; [|exact C|now apply Forall_update].
      rewrite U, app_assoc. now apply Permutation_app_tail.
    + repeat split; [|exact C|now apply Forall_update].
      apply Permutation_app_inv_r in U. now rewrite U.
    + repeat split; [| |now apply Forall_update].
      * rewrite map_app, <- app_assoc. cbn [map fst].
        rewrite P, <- U. apply Permutation_app_head, Permutation_app_comm.
      * apply Forall_app. split; [exact C|]. now repeat constructor.
    + repeat split; [| |now apply Forall_update].
      * rewrite map_app, <- app_assoc. cbn [map fst].
        rewrite P, <- U. apply Permutation_app_head, Permutation_app_comm.
      * apply Forall_app. split; [exact C|]. now repeat constructor.
    + repeat split; [| |now apply Forall_update].
      * rewrite map_app, <- app_assoc. cbn [map fst].
        rewrite P, <- U. apply Permutation_app_head, Permutation_app_comm.
      * apply Forall_app. split; [exact C|]. now repeat constructor.
  - destruct (Sys.generator_step _ _) as [[sh pc]|] eqn:E; [|discriminate H].
    injection H as <-. cbn. apply generator_step_frame in E.
    destruct E as (_ & -> & -> & _). now repeat split.
  - destruct (Sys.main_step _) as [[sh pc]|] eqn:E; [|discriminate H].
    injection H as <-. cbn. apply main_step_frame in E.
    destruct E as (_ & _ & _ & -> & -> & _). now repeat split.
Qed.

End SystemInvariants.

Section MoreInvariants.
Context {L : BipUtils} (cfg : Config L).

Local Abbreviation System := (@Sys.System L).

(** Once the flag is set, only the checkers already blocked in [get] can
    still pull, one candidate each. *)
Lemma step_pull_bound pid (s s' : System) :
  Sys.step cfg pid s = Some s' ->
  Sys.stop_processing (Sys.shared s) = true ->
  (List.length (Sys.pulled (Sys.shared s')) + Sys.waiting_in_get (Sys.checkers s')
   <= List.length (Sys.pulled (Sys.shared s)) + Sys.waiting_in_get (Sys.checkers s))%nat.
Proof.
  unfold Sys.step. intros H Hs. destruct pid as [|i| |].
  - destruct (Sys.logger_step _ _) as [[sh pc]|] eqn:E; [|discriminate H].
    injection H as <-. cbn. apply logger_step_frame in E.
    destruct E as (_ & _ & _ & -> & _). apply Nat.le_refl.
  - destruct (nth_error _ i) as [w|] eqn:Hw; [|discriminate H].
    destruct (Sys.checker_step _ _ _) as [[sh pc]|] eqn:E; [|discriminate H].
    injection H as <-. cbn [Sys.shared Sys.checkers]. apply checker_step_move in E.
    pose proof (waiting_update (Sys.checkers s) i w pc Hw) as U.
    destruct E as [Ht| Hf | |m rest q Hit _ Hq| | | |];
      cbn [Sys.pulled Sys.set_stop Sys.print Sys.note_completed Sys.note_pulled
           Sys.set_mnemonic_queue Sys.set_logger_queue Sys.in_get] in *;
      rewrite ?length_app; cbn [List.length]; try lia.
    congruence.
  - destruct (Sys.generator_step _ _) as [[sh pc]|] eqn:E; [|discriminate H].
    injection H as <-. cbn. apply generator_step_frame in E.
    destruct E as (_ & -> & _). apply Nat.le_refl.
  - destruct (Sys.main_step _) as [[sh pc]|] eqn:E; [|discriminate H].
    injection H as <-. cbn. apply main_step_frame in E.
    destruct E as (_ & _ & _ & -> & _). apply Nat.le_refl.
Qed.

Lemma step_pulled_grows pid (s s' : System) :
  Sys.step cfg pid s = Some s' ->
  exists more, Sys.pulled (Sys.shared s') = Sys.pulled (Sys.shared s) ++ more.
Proof.
  unfold Sys.step. intros H. destruct pid as [|i| |].
  - destruct (Sys.logger_step _ _) as [[sh pc]|] eqn:E; [|discriminate H].
    injection H as <-. cbn. apply logger_step_frame in E.
    destruct E as (_ & _ & _ & -> & _). exists []. now rewrite app_nil_r.
  - destruct (nth_error _ i) as [w|] eqn:Hw; [|discriminate H].
    destruct (Sys.checker_step _ _ _) as [[sh pc]|] eqn:E; [|discriminate H].
    injection H as <-. cbn. apply checker_step_move in E.
    destruct E as [| | |m rest q Hit _ Hq| | | |]; cbn;
      try (exists []; now rewrite app_nil_r).
    now exists [m].
  - destruct (Sys.generator_step _ _) as [[sh pc]|] eqn:E; [|discriminate H].
    injection H as <-. cbn. apply generator_step_frame in E.
    destruct E as (_ & -> & _). exists []. now rewrite app_nil_r.
  - destruct (Sys.main_step _) as [[sh pc]|] eqn:E; [|discriminate H].
    injection H as <-. cbn. apply main_step_frame in E.
    destruct E as (_ & _ & _ & -> & _). exists []. now rewrite app_nil_r.
Qed.

Lemma steps_pull_bound (s s' : System) :
  Sys.steps cfg s s' ->
  Sys.stop_processing (Sys.shared s) = true ->
  (List.length (Sys.pulled (Sys.shared s')) + Sys.waiting_in_get (Sys.checkers s')
   <= List.length (Sys.pulled (Sys.shared s)) + Sys.waiting_in_get (Sys.checkers s))%nat
  /\ exists more, Sys.pulled (Sys.shared s') = Sys.pulled (Sys.shared s) ++ more.
Proof.
  induction 1 as [s|pid s s1 s2 H _ IH]; intros Hs.
  - split; [apply Nat.le_refl|]. exists []. now rewrite app_nil_r.
  - pose proof (step_pull_bound _ _ _ H Hs) as B.
    destruct (step_pulled_grows _ _ _ H) as [more1 G].
    destruct (IH (step_stop_monotone cfg _ _ _ H Hs)) as [B' [more2 G']].
    split; [eapply Nat.le_trans; eassumption|].
    exists (more1 ++ more2). now rewrite G', G, app_assoc.
Qed.

Lemma steps_fifo (s s' : System) : Sys.steps cfg s s' -> fifo s -> fifo s'.
Proof.
  induction 1 as [|pid s s1 s2 H _ IH]; intros I; [exact I|].
  apply IH. eapply step_fifo; eassumption.
Qed.

Lemma steps_accounted (s s' : System) :
  Sys.steps cfg s s' -> accounted cfg s -> accounted cfg s'.
Proof.
  induction 1 as [|pid s s1 s2 H _ IH]; intros I; [exact I|].
  apply IH. eapply step_accounted; eassumption.
Qed.

Lemma run_steps (schedule : list Sys.Pid) (s s' : System) :
  Sys.run cfg schedule s = Some s' -> Sys.steps cfg s s'.
Proof.
  revert s. induction schedule as [|pid rest IH]; intros s H; cbn [Sys.run] in H.
  - injection H as <-. constructor.
  - destruct (Sys.step cfg pid s) as [s1|] eqn:E; [|discriminate H].
    econstructor; [exact E | now apply IH].
Qed.

Lemma step_generator_walks pid (s s' : System) :
  Sys.step cfg pid s = Some s' -> generator_walks cfg s -> generator_walks cfg s'.
Proof.
  intros H I. pose proof (step_stop_monotone cfg _ _ _ H) as Hmono.
  unfold Sys.step in H. unfold generator_walks in *. destruct pid as [|i| |].
  - destruct (Sys.logger_step _ _) as [[sh pc]|] eqn:E; [|discriminate H].
    injection H as <-. cbn in *. apply logger_step_frame in E.
    destruct E as (_ & _ & -> & _).
    destruct (Sys.generator s); try exact I.
    destruct I as (done & rest & P & G & D). exists done, rest.
    repeat split; try assumption. destruct D; [now left | right; now apply Hmono].
  - destruct (nth_error _ i) as [w|] eqn:Hw; [|discriminate H].
    destruct (Sys.checker_step _ _ _) as [[sh pc]|] eqn:E; [|discriminate H].
    injection H as <-. cbn in *. apply checker_step_move in E.
    assert (G : Sys.generated sh = Sys.generated (Sys.shared s)) by (destruct E; reflexivity).
    rewrite G. destruct (Sys.generator s); try exact I.
    destruct I as (done & rest & P & G' & D). exists done, rest.
    repeat split; try assumption. destruct D; [now left | right; now apply Hmono].
  - destruct (Sys.generator_step _ _) as [[sh pc]|] eqn:E; [|discriminate H].
    injection H as <-. cbn in *.
    destruct (Sys.generator s) as [[|t rest]|m rest|]; cbn [Sys.generator_step] in E.
    + injection E as <- <-. destruct I as (done & P & G).
      exists done, []. repeat split; try assumption. now left.
    + destruct I as (done & P & G).
      destruct (Sys.stop_processing (Sys.shared s)) eqn:Hs; injection E as <- <-.
      * exists done, (t :: rest). repeat split; try assumption. now right.
      * exists done, t. now repeat split.
    + destruct (q_full _); [discriminate E|]. injection E as <- <-.
      destruct I as (done & t & P & -> & G). exists (done ++ [t]). cbn.
      rewrite <- app_assoc, map_app, G. now split.
    + discriminate E.
  - destruct (Sys.main_step _) as [[sh pc]|] eqn:E; [|discriminate H].
    injection H as <-. cbn in *. apply main_step_frame in E.
    destruct E as (_ & _ & -> & _).
    destruct (Sys.generator s); try exact I.
    destruct I as (done & rest & P & G & D). exists done, rest.
    repeat split; try assumption. destruct D; [now left | right; now apply Hmono].
Qed.

Lemma steps_generator_walks (s s' : System) :
  Sys.steps cfg s s' -> generator_walks cfg s -> generator_walks cfg s'.
Proof.
  induction 1 as [|pid s s1 s2 H _ IH]; intros I; [exact I|].
  apply IH. eapply step_generator_walks; eassumption.
Qed.

Lemma step_settled pid (s s' : System) :
  Sys.step cfg pid s = Some s' -> candidates_settled s ->
  candidates_settled s'
  /\ items (Sys.mnemonic_queue (Sys.shared s')) = items (Sys.mnemonic_queue (Sys.shared s))
  /\ Sys.pulled (Sys.shared s') = Sys.pulled (Sys.shared s)
  /\ Sys.completed (Sys.shared s') = Sys.completed (Sys.shared s).
Proof.
  unfold Sys.step, candidates_settled. intros H [T G]. destruct pid as [|i| |].
  - destruct (Sys.logger_step _ _) as [[sh pc]|] eqn:E; [|discriminate H].
    injection H as <-. cbn. apply logger_step_frame in E.
    destruct E as (_ & -> & _ & -> & ->). now repeat split.
  - destruct (nth_error _ i) as [w|] eqn:Hw; [|discriminate H].
    pose proof (terminated_nth _ _ _ Hw T) as Tw.
    destruct w; try discriminate Tw; discriminate H.
  - rewrite G in H. discriminate H.
  - destruct (Sys.main_step _) as [[sh pc]|] eqn:E; [|discriminate H].
    injection H as <-. cbn. apply main_step_frame in E.
    destruct E as (_ & -> & _ & -> & -> & _). now repeat split.
Qed.

Lemma steps_settled (s s' : System) :
  Sys.steps cfg s s' -> candidates_settled s ->
  items (Sys.mnemonic_queue (Sys.shared s')) = items (Sys.mnemonic_queue (Sys.shared s))
  /\ Sys.pulled (Sys.shared s') = Sys.pulled (Sys.shared s)
  /\ Sys.completed (Sys.shared s') = Sys.completed (Sys.shared s).
Proof.
  induction 1 as [|pid s s1 s2 H _ IH]; intros I; [now repeat split|].
  destruct (step_settled _ _ _ H I) as (I1 & A & B & C).
  destruct (IH I1) as (A' & B' & C'). repeat split; congruence.
Qed.

Lemma step_logger_exited pid (s s' : System) :
  Sys.step cfg pid s = Some s' -> Sys.logger s = Sys.LExited ->
  Sys.logger s' = Sys.LExited /\ Sys.log_file (Sys.shared s') = Sys.log_file (Sys.shared s).
Proof.
  unfold Sys.step. intros H Hl. destruct pid as [|i| |].
  - rewrite Hl in H. discriminate H.
  - destruct (nth_error _ i) as [w|] eqn:Hw; [|discriminate H].
    destruct (Sys.checker_step _ _ _) as [[sh pc]|] eqn:E; [|discriminate H].
    injection H as <-. cbn. split; [exact Hl|].
    apply checker_step_move in E. destruct E; reflexivity.
  - destruct (Sys.generator_step _ _) as [[sh pc]|] eqn:E; [|discriminate H].
    injection H as <-. cbn. apply generator_step_frame in E.
    destruct E as (_ & _ & _ & -> & _). now split.
  - destruct (Sys.main_step _) as [[sh pc]|] eqn:E; [|discriminate H].
    injection H as <-. cbn. apply main_step_frame in E.
    destruct E as (_ & _ & _ & _ & _ & ->). now split.
Qed.

Lemma steps_logger_exited (s s' : System) :
  Sys.steps cfg s s' -> Sys.logger s = Sys.LExited ->
  Sys.log_file (Sys.shared s') = Sys.log_file (Sys.shared s).
Proof.
  induction 1 as [|pid s s1 s2 H _ IH]; intros I; [reflexivity|].
  destruct (step_logger_exited _ _ _ H I) as [I1 E]. rewrite <- E. now apply IH.
Qed.

End MoreInvariants.

Section Reachable.
Context {L : BipUtils} (cfg : Config L).

Local Abbreviation System := (@Sys.System L).

Lemma in_flight_terminated (ws : list (@Sys.CheckerPc L)) :
  forallb Sys.terminated ws = true -> Sys.in_flight ws = [].
Proof.
  unfold Sys.in_flight. induction ws as [|w ws IH]; [reflexivity|].
  cbn [forallb flat_map]. intros H. apply andb_true_iff in H. destruct H as [Hw Hws].
  rewrite (IH Hws). now destruct w.
Qed.

Lemma fresh_checkers (xs : list Z) :
  Sys.in_flight (map (fun _ => @Sys.WTest L) xs) = []
  /\ Forall (fun pc => match pc with
                       | Sys.WChecking m _ r => r = fst (MP.check_mnemonic cfg m)
                       | _ => True
                       end) (map (fun _ => @Sys.WTest L) xs).
Proof.
  induction xs as [|x xs [IH1 IH2]]; [now split|].
  split; [exact IH1 | now constructor].
Qed.

Lemma check_all_initial :
  fifo (Sys.check_all_mnemonics cfg)
  /\ accounted cfg (Sys.check_all_mnemonics cfg)
  /\ generator_walks cfg (Sys.check_all_mnemonics cfg).
Proof.
  destruct (fresh_checkers (Py.range (PROCESS_NUM cfg))) as [F W].
  split; [reflexivity|]. split.
  - unfold accounted. cbn [Sys.check_all_mnemonics Sys.shared Sys.checkers
                           Sys.initial_shared Sys.pulled Sys.completed map app].
    rewrite F. now repeat split.
  - exists []. now split.
Qed.

Lemma check_single_initial m :
  fifo (Sys.check_single_mnemonic m) /\ accounted cfg (Sys.check_single_mnemonic m).
Proof.
  split; [reflexivity|]. unfold accounted.
  cbn. repeat split; repeat constructor.
Qed.

Lemma step_generator_exited pid (s s' : System) :
  Sys.step cfg pid s = Some s' -> Sys.generator s = Sys.GExited ->
  Sys.generator s' = Sys.GExited
  /\ Sys.generated (Sys.shared s') = Sys.generated (Sys.shared s).
Proof.
  unfold Sys.step. intros H Hg. destruct pid as [|i| |].
  - destruct (Sys.logger_step _ _) as [[sh pc]|] eqn:E; [|discriminate H].
    injection H as <-. cbn. apply logger_step_frame in E.
    destruct E as (_ & _ & -> & _). now split.
  - destruct (nth_error _ i) as [w|] eqn:Hw; [|discriminate H].
    destruct (Sys.checker_step _ _ _) as [[sh pc]|] eqn:E; [|discriminate H].
    injection H as <-. cbn. split; [exact Hg|].
    apply checker_step_move in E. destruct E; reflexivity.
  - rewrite Hg in H. discriminate H.
  - destruct (Sys.main_step _) as [[sh pc]|] eqn:E; [|discriminate H].
    injection H as <-. cbn. apply main_step_frame in E.
    destruct E as (_ & _ & -> & _). now split.
Qed.

Lemma steps_generator_exited (s s' : System) :
  Sys.steps cfg s s' -> Sys.generator s = Sys.GExited ->
  Sys.generated (Sys.shared s') = Sys.generated (Sys.shared s).
Proof.
  induction 1 as [|pid s s1 s2 H _ IH]; intros I; [reflexivity|].
  destruct (step_generator_exited _ _ _ H I) as [I1 E]. rewrite <- E. now apply IH.
Qed.

Lemma step_generated_grows pid (s s' : System) :
  Sys.step cfg pid s = Some s' ->
  exists extra, Sys.generated (Sys.shared s') = Sys.generated (Sys.shared s) ++ extra.
Proof.
  unfold Sys.step. intros H. destruct pid as [|i| |].
  - destruct (Sys.logger_step _ _) as [[sh pc]|] eqn:E; [|discriminate H].
    injection H as <-. cbn. apply logger_step_frame in E.
    destruct E as (_ & _ & -> & _). exists []. now rewrite app_nil_r.
  - destruct (nth_error _ i) as [w|] eqn:Hw; [|discriminate H].
    destruct (Sys.checker_step _ _ _) as [[sh pc]|] eqn:E; [|discriminate H].
    injection H as <-. cbn. exists []. rewrite app_nil_r.
    apply checker_step_move in E. destruct E; reflexivity.
  - destruct (Sys.generator_step _ _) as [[sh pc]|] eqn:E; [|discriminate H].
    injection H as <-. cbn. apply generator_step_frame in E.
    destruct E as (_ & _ & _ & _ & extra & _ & ->). now exists extra.
  - destruct (Sys.main_step _) as [[sh pc]|] eqn:E; [|discriminate H].
    injection H as <-. cbn. apply main_step_frame in E.
    destruct E as (_ & _ & -> & _). exists []. now rewrite app_nil_r.
Qed.

Lemma steps_generated_grows (s s' : System) :
  Sys.steps cfg s s' ->
  exists extra, Sys.generated (Sys.shared s') = Sys.generated (Sys.shared s) ++ extra.
Proof.
  induction 1 as [s|pid s s1 s2 H _ [e2 IH]].
  - exists []. now rewrite app_nil_r.
  - destruct (step_generated_grows _ _ _ H) as [e1 E].
    exists (e1 ++ e2). now rewrite IH, E, app_assoc.
Qed.

(** After the flag is set and with no checker blocked in [get], nothing is
    pulled any more and what is buffered stays buffered. *)
Lemma steps_after_stop (s s' : System) :
  Sys.steps cfg s s' ->
  Sys.stop_processing (Sys.shared s) = true ->
  Sys.waiting_in_get (Sys.checkers s) = 0%nat ->
  Sys.pulled (Sys.shared s') = Sys.pulled (Sys.shared s)
  /\ (fifo s ->
      exists extra, items (Sys.mnemonic_queue (Sys.shared s'))
                    = items (Sys.mnemonic_queue (Sys.shared s)) ++ extra).
Proof.
  intros Hsteps Hs Hw.
  destruct (steps_pull_bound cfg _ _ Hsteps Hs) as [B [more G]].
  assert (more = []) as ->.
  { rewrite G, length_app, Hw in B. destruct more; [reflexivity|]. cbn in B. lia. }
  rewrite app_nil_r in G. split; [exact G|].
  intros F. pose proof (steps_fifo cfg _ _ Hsteps F) as F'.
  destruct (steps_generated_grows _ _ Hsteps) as [extra E].
  unfold fifo in F, F'. rewrite G, E, F, <- app_assoc in F'.
  apply app_inv_head in F'. now exists extra.
Qed.

(** ** The loop of [find_mnemonic] *)

Lemma find_loop_decoded_prefix (tuples : list (list string)) :
  exists rest,
    map FromList tuples = decoded (snd (ST.find_mnemonic_loop cfg tuples)) ++ rest.
Proof.
  induction tuples as [|t tuples [rest IH]]; [now exists []|].
  cbn [ST.find_mnemonic_loop map]. rewrite snd_bind, decoded_app, ST_check_decoded.
  destruct (fst (ST.check_mnemonic cfg (FromList t))) as [[|]|e].
  - exists (map FromList tuples). reflexivity.
  - exists rest. cbn [app]. now rewrite IH.
  - exists (map FromList tuples). reflexivity.
Qed.

Lemma find_loop_decoded_all (tuples : list (list string)) :
  (forall t, In t tuples -> fst (ST.check_mnemonic cfg (FromList t)) = Ok false) ->
  decoded (snd (ST.find_mnemonic_loop cfg tuples)) = map FromList tuples.
Proof.
  induction tuples as [|t tuples IH]; intros H; [reflexivity|].
  cbn [ST.find_mnemonic_loop map]. rewrite snd_bind, decoded_app, ST_check_decoded.
  rewrite (H t (or_introl eq_refl)). cbn [app]. f_equal.
  apply IH. intros t' Ht'. apply H. now right.
Qed.

End Reachable.

(* ================================================================== *)
(** * Concrete runs *)
(* ================================================================== *)

(** The end-to-end scenario: candidate "a" is checked and rejected, candidate
    "b" is the match, with its evidence. *)
Example scenario_a_rejected :
  MP.check_mnemonic (Demo.scenario false) ["a"]
  = (Ok false,
     [EvDecode (["a"] : @Bip39Mnemonic Demo.lib);
      EvBip32Ctx "" "m/44'/60'/0'";
      EvBip32Addr "" "m/44'/60'/0'" 0 "0xa||m/44'/60'/0'/0"]).
Proof. vm_compute. reflexivity. Qed.

Example scenario_b_found :
  MP.check_mnemonic (Demo.scenario false) ["b"]
  = (Ok true,
     [EvDecode (["b"] : @Bip39Mnemonic Demo.lib);
      EvBip32Ctx "" "m/44'/60'/0'";
      EvBip32Addr "" "m/44'/60'/0'" 0 "0xb||m/44'/60'/0'/0";
      EvLog (MP.found_msg "0xb||m/44'/60'/0'/0" (["b"] : @Bip39Mnemonic Demo.lib) "")]).
Proof. vm_compute. reflexivity. Qed.

Example scenario_single_flow :
  decoded (snd (ST.main (Demo.scenario false)))
  = [(["a"] : @Bip39Mnemonic Demo.lib); ["b"]]
  /\ fst (ST.main (Demo.scenario false)) = Ok tt.
Proof. vm_compute. split; reflexivity. Qed.

(** A mnemonic the decoder rejects with [ValueError] makes the check raise. *)
Example value_error_propagates :
  MP.check_mnemonic Demo.shipped [] = (Raise ValueError, [EvDecode ([] : @Bip39Mnemonic Demo.lib)]).
Proof. vm_compute. reflexivity. Qed.

(** A slot that repeats a word makes [itertools.product] repeat a tuple. *)
Example product_repeats_with_slot : Py.product [["a"; "a"]; ["b"]] = [["a"; "b"]; ["a"; "b"]].
Proof. reflexivity. Qed.

(** The last slot varies fastest. *)
Example product_order :
  Py.product [["void"; "volcano"]; ["come"]; ["camp"; "camera"]]
  = [["void"; "come"; "camp"]; ["void"; "come"; "camera"];
     ["volcano"; "come"; "camp"]; ["volcano"; "come"; "camera"]].
Proof. reflexivity. Qed.

(** After a match the parent of the parallel file waits on
    [mnemonic_queue.join()] with a task that is never marked done. *)
Example parent_blocked_after_match :
  exists s,
    Sys.run Demo.first_hits
      [Sys.PGenerator; Sys.PGenerator; Sys.PChecker 0; Sys.PChecker 0; Sys.PChecker 0;
       Sys.PChecker 0; Sys.PGenerator; Sys.PMain]
      (Sys.check_all_mnemonics Demo.first_hits) = Some s
    /\ Sys.main s = Sys.MJoinMnemonicQueue
    /\ unfinished_tasks (Sys.mnemonic_queue (Sys.shared s)) = 1%nat
    /\ Sys.step Demo.first_hits Sys.PMain s = None.
Proof. eexists. split; [vm_compute; reflexivity|]. now repeat split. Qed.

(* ================================================================== *)
(** * Further lemmas on the outcome of a check *)
(* ================================================================== *)

Section Outcome.
Context {L : BipUtils} (cfg : Config L).

Lemma check_outcome_false_iff m :
  check_outcome cfg m = Ok false <-> genuine_no_match cfg m.
Proof.
  unfold check_outcome, genuine_no_match.
  pose proof (has_match_spec cfg m) as S.
  destruct (Decode m) as [ent|[|]]; split.
  - intros H. right. split; [now exists ent|].
    intros D. apply S in D. congruence.
  - intros [H|[_ H]]; [discriminate H|].
    destruct (has_match cfg m); [|reflexivity].
    elim H. now apply S.
  - now left.
  - reflexivity.
  - discriminate.
  - intros [H|[[ent H] _]]; discriminate H.
Qed.

Lemma check_outcome_raise_iff m e :
  check_outcome cfg m = Raise e <-> Decode m = Raise e /\ e <> MnemonicChecksumError.
Proof.
  unfold check_outcome.
  destruct (Decode m) as [ent|[|]]; split.
  - discriminate.
  - intros [H _]. discriminate H.
  - discriminate.
  - intros [H N]. injection H as <-. now elim N.
  - intros H. injection H as <-. split; [reflexivity | discriminate].
  - intros [H _]. injection H as <-. reflexivity.
Qed.

End Outcome.

(* ================================================================== *)
(** * A check inside a checker process *)
(* ================================================================== *)

Section CheckerProgress.
Context {L : BipUtils} (cfg : Config L).

Local Abbreviation System := (@Sys.System L).

Lemma nth_error_update_same {A} (xs : list A) i x y :
  nth_error xs i = Some x -> nth_error (Sys.update i y xs) i = Some y.
Proof.
  revert i. induction xs as [|z xs IH]; intros [|i] H; try discriminate H.
  - reflexivity.
  - cbn [Sys.update nth_error] in *. now apply IH.
Qed.

Lemma nth_error_update_other {A} (xs : list A) i j y :
  j <> i -> nth_error (Sys.update i y xs) j = nth_error xs j.
Proof.
  revert i j. induction xs as [|z xs IH]; intros [|i] [|j] H; try reflexivity.
  - now elim H.
  - cbn [Sys.update nth_error]. apply IH. intros E. apply H. now f_equal.
Qed.

Lemma has_room_not_full {A} (q : JoinableQueue A) n :
  has_room q (S n) -> q_full q = false.
Proof.
  unfold has_room, q_full. intros [H|H].
  - replace (0 <? maxsize q) with false by (symmetry; apply Z.ltb_ge; exact H).
    reflexivity.
  - replace (maxsize q <=? Py.len (items q)) with false
      by (symmetry; apply Z.leb_gt; lia).
    apply andb_false_r.
Qed.

Lemma has_room_put {A} (q : JoinableQueue A) x n :
  has_room q (S n) -> has_room (q_put x q) n.
Proof.
  unfold has_room, q_put, Py.len. cbn [items maxsize]. intros [H|H]; [now left|right].
  rewrite length_app. cbn [List.length]. lia.
Qed.

(** A checker inside a check waits only in [put], on a full logger queue. *)
Lemma checker_blocked_iff (sh : Sys.Shared) m pending r :
  Sys.checker_step cfg sh (Sys.WChecking m pending r) = None
  <-> pending <> [] /\ q_full (Sys.logger_queue sh) = true.
Proof.
  cbn [Sys.checker_step]. destruct pending as [|msg pending].
  - split; [destruct r as [[|]|e]; discriminate | intros [H _]; now elim H].
  - destruct (q_full (Sys.logger_queue sh)); split; try discriminate; auto.
    + intros _. split; [discriminate | reflexivity].
    + intros [_ H]. discriminate H.
Qed.

(** Whatever the flag says, a checker that holds a candidate finishes its
    check as soon as it is scheduled, when the logger queue has room for the
    records it has still to put. *)
Lemma checker_completes (s : System) i m pending r :
  nth_error (Sys.checkers s) i = Some (Sys.WChecking m pending r) ->
  has_room (Sys.logger_queue (Sys.shared s)) (List.length pending) ->
  exists s',
    Sys.run cfg (repeat (Sys.PChecker i) (S (List.length pending))) s = Some s'
    /\ Sys.completed (Sys.shared s') = Sys.completed (Sys.shared s) ++ [(m, r)]
    /\ nth_error (Sys.checkers s') i = Some (after_check r)
    /\ items (Sys.logger_queue (Sys.shared s'))
       = items (Sys.logger_queue (Sys.shared s)) ++ pending
    /\ Sys.pulled (Sys.shared s') = Sys.pulled (Sys.shared s)
    /\ items (Sys.mnemonic_queue (Sys.shared s'))
       = items (Sys.mnemonic_queue (Sys.shared s)).
Proof.
  revert s. induction pending as [|msg pending IH]; intros s Hw Hroom.
  - cbn [List.length repeat Sys.run]. unfold Sys.step. rewrite Hw.
    cbn [Sys.checker_step].
    destruct r as [[|]|e]; eexists; (split; [reflexivity|]); cbn;
      rewrite app_nil_r;
      (split; [reflexivity|]);
      (split; [eapply nth_error_update_same; exact Hw|]); now repeat split.
  - cbn [List.length] in Hroom.
    pose proof (has_room_not_full _ _ Hroom) as Hfull.
    change (repeat (Sys.PChecker i) (S (List.length (msg :: pending))))
      with (Sys.PChecker i :: repeat (Sys.PChecker i) (S (List.length pending))).
    cbn [Sys.run]. unfold Sys.step at 1. rewrite Hw. cbn [Sys.checker_step].
    rewrite Hfull.
    match goal with |- exists s', Sys.run _ _ ?s1 = _ /\ _ => destruct (IH s1) as (s' & R & C & W & Q & P & I) end.
    + cbn [Sys.checkers]. eapply nth_error_update_same; exact Hw.
    + cbn [Sys.shared Sys.set_logger_queue Sys.logger_queue].
      now apply has_room_put.
    + exists s'. split; [exact R|]. cbn in C, Q, P, I.
      split; [exact C|]. split; [exact W|]. split; [|now split].
      rewrite Q, <- app_assoc. reflexivity.
Qed.

(** Once a checker is blocked in [put] with the logger gone and the other
    checkers terminated, it stays there: its candidate is never completed. *)
Lemma step_stuck pid (s s' : System) i m :
  Sys.step cfg pid s = Some s' -> stuck_in_put i m s -> stuck_in_put i m s'.
Proof.
  unfold Sys.step, stuck_in_put.
  intros H (Hl & Hq & (msg & pending & r & Hw) & Ht & Hc).
  destruct pid as [|j| |].
  - rewrite Hl in H. discriminate H.
  - destruct (Nat.eq_dec j i) as [->|Hj].
    + rewrite Hw in H. cbn [Sys.checker_step] in H. rewrite Hq in H. discriminate H.
    + destruct (nth_error (Sys.checkers s) j) as [pc|] eqn:E; [|discriminate H].
      pose proof (Ht j pc Hj E) as T.
      destruct pc; try discriminate T; discriminate H.
  - destruct (Sys.generator s) as [[|t rest]|c rest|]; cbn [Sys.generator_step] in H.
    + injection H as <-. cbn. repeat split; eauto.
    + destruct (Sys.stop_processing (Sys.shared s)); injection H as <-; cbn;
        repeat split; eauto.
    + destruct (q_full (Sys.mnemonic_queue (Sys.shared s))); [discriminate H|].
      injection H as <-. cbn. repeat split; eauto.
    + discriminate H.
  - destruct (Sys.main_step s) as [[sh pc]|] eqn:E; [|discriminate H].
    injection H as <-. cbn. unfold Sys.main_step in E.
    destruct (Sys.main s).
    + destruct (Sys.generator s); try discriminate E. injection E as <- <-.
      repeat split; eauto.
    + destruct (unfinished_tasks _); try discriminate E. injection E as <- <-.
      repeat split; eauto.
    + destruct (unfinished_tasks _); try discriminate E. injection E as <- <-.
      repeat split; eauto.
    + injection E as <- <-. cbn. repeat split; eauto.
    + destruct (forallb _ _); try discriminate E. injection E as <- <-.
      repeat split; eauto.
    + destruct (Sys.logger s); try discriminate E. injection E as <- <-.
      repeat split; eauto.
    + discriminate E.
Qed.

Lemma steps_stuck (s s' : System) i m :
  Sys.steps cfg s s' -> stuck_in_put i m s -> stuck_in_put i m s'.
Proof.
  induction 1 as [|pid s s1 s2 H _ IH]; intros I; [exact I|].
  apply IH. eapply step_stuck; eassumption.
Qed.

End CheckerProgress.

(* ================================================================== *)
(** * The generator reaches the end of the product *)
(* ================================================================== *)

Section GeneratorProgress.
Context {L : BipUtils} (cfg : Config L).

Local Abbreviation System := (@Sys.System L).

Lemma steps_trans (s1 s2 s3 : System) :
  Sys.steps cfg s1 s2 -> Sys.steps cfg s2 s3 -> Sys.steps cfg s1 s3.
Proof.
  induction 1 as [|pid a b c H _ IH]; [trivial|].
  intros H3. econstructor; [exact H | now apply IH].
Qed.

Lemma q_full_nil {A} (q : JoinableQueue A) : items q = [] -> q_full q = false.
Proof.
  unfold q_full, Py.len. intros ->. cbn [List.length Z.of_nat].
  destruct (0 <? maxsize q) eqn:E; [|reflexivity].
  apply Z.ltb_lt in E. cbn [andb]. apply Z.leb_gt. exact E.
Qed.

(** With room in the queue for all that is left, the generator needs no one
    else: run alone it puts every candidate left, in order, and exits. *)
Lemma generator_runs_alone (todo : list (list string)) (s : System) :
  Sys.generator s = Sys.GTest todo ->
  Sys.stop_processing (Sys.shared s) = false ->
  has_room (Sys.mnemonic_queue (Sys.shared s)) (List.length todo) ->
  exists s',
    Sys.run cfg (generator_alone todo) s = Some s'
    /\ Sys.generator s' = Sys.GExited
    /\ Sys.stop_processing (Sys.shared s') = false
    /\ Sys.generated (Sys.shared s') = Sys.generated (Sys.shared s) ++ map FromList todo
    /\ items (Sys.mnemonic_queue (Sys.shared s'))
       = items (Sys.mnemonic_queue (Sys.shared s)) ++ map FromList todo.
Proof.
  unfold generator_alone.
  revert s. induction todo as [|t rest IH]; intros s Hg Hs Hroom.
  - cbn [flat_map app Sys.run]. unfold Sys.step. rewrite Hg. cbn [Sys.generator_step].
    eexists. split; [reflexivity|]. cbn. rewrite !app_nil_r. now repeat split.
  - cbn [flat_map app Sys.run]. unfold Sys.step at 1. rewrite Hg.
    cbn [Sys.generator_step]. rewrite Hs.
    unfold Sys.step at 1. cbn [Sys.shared Sys.generator Sys.generator_step].
    cbn [List.length] in Hroom. rewrite (has_room_not_full _ _ Hroom).
    match goal with |- exists s', Sys.run _ _ ?s1 = _ /\ _ =>
      destruct (IH s1) as (s' & R & G & S & N & I) end.
    + reflexivity.
    + exact Hs.
    + cbn [Sys.shared Sys.note_generated Sys.set_mnemonic_queue Sys.mnemonic_queue].
      now apply has_room_put.
    + exists s'. split; [exact R|]. split; [exact G|]. split; [exact S|].
      cbn in N, I. cbn [map]. rewrite N, I, <- !app_assoc. now split.
Qed.

(** The logger, alone with a checker that holds a candidate, writes out the
    records of the check one by one. *)
Lemma drain_records (pending : list string) (s : System) m r ws :
  Sys.stop_processing (Sys.shared s) = false ->
  items (Sys.logger_queue (Sys.shared s)) = [] ->
  Sys.logger s = Sys.LTest ->
  Sys.checkers s = Sys.WChecking m pending r :: ws ->
  exists s',
    Sys.steps cfg s s'
    /\ Sys.stop_processing (Sys.shared s') = false
    /\ items (Sys.logger_queue (Sys.shared s')) = []
    /\ Sys.logger s' = Sys.LTest
    /\ Sys.checkers s' = Sys.WChecking m [] r :: ws
    /\ Sys.mnemonic_queue (Sys.shared s') = Sys.mnemonic_queue (Sys.shared s)
    /\ Sys.generated (Sys.shared s') = Sys.generated (Sys.shared s)
    /\ Sys.generator s' = Sys.generator s.
Proof.
  revert s. induction pending as [|msg pending IH]; intros s Hs Hq Hl Hw.
  - exists s. split; [constructor|]. now repeat split.
  - destruct s as [sh lg cs g mn]. cbn [Sys.shared Sys.logger Sys.checkers] in *.
    subst lg cs.
    destruct sh as [stop mq lq lf out gen pl done].
    cbn [Sys.stop_processing Sys.logger_queue] in *. subst stop.
    destruct lq as [its u mx]. cbn [items] in Hq. subst its.
    destruct (IH {| Sys.shared :=
                      {| Sys.stop_processing := false; Sys.mnemonic_queue := mq;
                         Sys.logger_queue :=
                           {| items := []; unfinished_tasks := u; maxsize := mx |};
                         Sys.log_file := lf ++ [msg]; Sys.stdout := out;
                         Sys.generated := gen; Sys.pulled := pl;
                         Sys.completed := done |};
                    Sys.logger := Sys.LTest;
                    Sys.checkers := Sys.WChecking m pending r :: ws;
                    Sys.generator := g; Sys.main := mn |})
      as (s' & R & H1 & H2 & H3 & H4 & H5 & H6 & H7); try reflexivity.
    exists s'. split; [|now repeat split].
    eapply Sys.steps_step with (pid := Sys.PChecker 0).
    { unfold Sys.step. cbn [nth_error Sys.checkers Sys.checker_step Sys.shared
                            Sys.logger_queue].
      rewrite q_full_nil by reflexivity. reflexivity. }
    eapply Sys.steps_step with (pid := Sys.PLogger); [reflexivity|].
    eapply Sys.steps_step with (pid := Sys.PLogger); [reflexivity|].
    eapply Sys.steps_step with (pid := Sys.PLogger); [reflexivity|].
    exact R.
Qed.

(** One round: the generator puts the next candidate, checker 0 takes it,
    logs and finishes its check, which finds no match. *)
Lemma idle_round (s : System) t rest :
  idle s ->
  Sys.generator s = Sys.GTest (t :: rest) ->
  fst (MP.check_mnemonic cfg (FromList t)) = Ok false ->
  exists s',
    Sys.steps cfg s s'
    /\ idle s'
    /\ Sys.generator s' = Sys.GTest rest
    /\ Sys.generated (Sys.shared s') = Sys.generated (Sys.shared s) ++ [FromList t].
Proof.
  intros (Hs & Hm & Hq & Hl & Hw) Hg Hr.
  destruct s as [sh lg cs g mn]. cbn [Sys.shared Sys.logger Sys.checkers Sys.generator] in *.
  subst lg g.
  destruct cs as [|w ws]; [discriminate Hw|]. cbn [nth_error] in Hw. injection Hw as ->.
  destruct sh as [stop mq lq lf out gen pl done].
  cbn [Sys.stop_processing Sys.logger_queue Sys.mnemonic_queue] in *. subst stop.
  destruct mq as [its u mx]. cbn [items] in Hm. subst its.
  destruct (drain_records
              (log_records (snd (MP.check_mnemonic cfg (FromList t))))
              {| Sys.shared :=
                   {| Sys.stop_processing := false;
                      Sys.mnemonic_queue :=
                        {| items := []; unfinished_tasks := S u; maxsize := mx |};
                      Sys.logger_queue := lq; Sys.log_file := lf; Sys.stdout := out;
                      Sys.generated := gen ++ [FromList t];
                      Sys.pulled := pl ++ [FromList t]; Sys.completed := done |};
                 Sys.logger := Sys.LTest;
                 Sys.checkers :=
                   Sys.WChecking (FromList t)
                     (log_records (snd (MP.check_mnemonic cfg (FromList t))))
                     (Ok false) :: ws;
                 Sys.generator := Sys.GTest rest; Sys.main := mn |}
              (FromList t) (Ok false) ws eq_refl Hq eq_refl eq_refl)
    as (s1 & R & H1 & H2 & H3 & H4 & H5 & H6 & H7).
  destruct s1 as [sh1 lg1 cs1 g1 mn1].
  cbn [Sys.shared Sys.logger Sys.checkers Sys.generator] in *. subst lg1 cs1 g1.
  destruct sh1 as [stop1 mq1 lq1 lf1 out1 gen1 pl1 done1].
  cbn [Sys.stop_processing Sys.logger_queue Sys.mnemonic_queue Sys.generated] in *.
  subst stop1 mq1 gen1.
  eexists. split.
  - eapply Sys.steps_step with (pid := Sys.PGenerator); [reflexivity|].
    eapply Sys.steps_step with (pid := Sys.PGenerator).
    { unfold Sys.step. cbn [Sys.generator Sys.generator_step Sys.shared Sys.mnemonic_queue].
      rewrite q_full_nil by reflexivity. reflexivity. }
    eapply Sys.steps_step with (pid := Sys.PChecker 0); [reflexivity|].
    eapply Sys.steps_step with (pid := Sys.PChecker 0).
    { unfold Sys.step. cbn -[MP.check_mnemonic log_records]. rewrite Hr. reflexivity. }
    eapply steps_trans; [exact R|].
    eapply Sys.steps_step with (pid := Sys.PChecker 0); [reflexivity|].
    apply Sys.steps_refl.
  - cbn. unfold idle. cbn. now repeat split.
Qed.

(** With at least one checker and no match in what is left, the search goes
    on to the end of the product: from an idle state there is a run in which
    the generator puts all that is left and exits, the flag not set. *)
Lemma idle_search_completes (todo : list (list string)) (s : System) :
  idle s ->
  Sys.generator s = Sys.GTest todo ->
  (forall t, In t todo -> fst (MP.check_mnemonic cfg (FromList t)) = Ok false) ->
  exists s',
    Sys.steps cfg s s'
    /\ Sys.generator s' = Sys.GExited
    /\ Sys.stop_processing (Sys.shared s') = false
    /\ Sys.generated (Sys.shared s') = Sys.generated (Sys.shared s) ++ map FromList todo.
Proof.
  revert s. induction todo as [|t rest IH]; intros s Hi Hg Hall.
  - destruct (Sys.step cfg Sys.PGenerator s) as [s1|] eqn:E.
    + exists s1. unfold Sys.step in E. rewrite Hg in E. cbn [Sys.generator_step] in E.
      injection E as <-. split.
      * eapply Sys.steps_step with (pid := Sys.PGenerator); [|apply Sys.steps_refl].
        unfold Sys.step. now rewrite Hg.
      * cbn. rewrite app_nil_r. split; [reflexivity|]. split; [apply Hi | reflexivity].
    + unfold Sys.step in E. rewrite Hg in E. discriminate E.
  - destruct (idle_round s t rest Hi Hg (Hall t (or_introl eq_refl)))
      as (s1 & R1 & I1 & G1 & N1).
    destruct (IH s1 I1 G1 (fun t' H => Hall t' (or_intror H))) as (s' & R & G & S & N).
    exists s'. split; [eapply steps_trans; eassumption|].
    split; [exact G|]. split; [exact S|].
    rewrite N, N1, <- app_assoc. reflexivity.
Qed.

Lemma check_all_idle :
  0 < PROCESS_NUM cfg -> idle (Sys.check_all_mnemonics cfg).
Proof.
  intros Hn. unfold idle, Sys.check_all_mnemonics. cbn.
  repeat split. unfold Py.range.
  destruct (Z.to_nat (PROCESS_NUM cfg)) eqn:E; [lia | reflexivity].
Qed.

End GeneratorProgress.

(* ================================================================== *)
(** * The checker: decision, evidence, short circuit *)
(* ================================================================== *)

(** C1.  [check_mnemonic] (in both files) returns [True] exactly when the
    mnemonic decodes (its checksum is valid) and some configured passphrase
    and some enabled scheme, at a configured path with an address index in
    [0 .. BIP32_ADDRESSES_NUM-1] or at an account in [0 .. BIP44_ACCOUNTS_NUM-1]
    with an address index in [0 .. BIP44_ADDRESSES_NUM-1], derive an address
    that is in [ADDRESSES_TO_SEARCH].  Listing the passphrases or the paths in
    another order does not change the outcome. *)
Theorem check_mnemonic_match_iff {L : BipUtils} (cfg : Config L) (mnemonic : Bip39Mnemonic) :
  (fst (MP.check_mnemonic cfg mnemonic) = Ok true <->
     (exists entropy, Decode mnemonic = Ok entropy) /\ some_target_derivable cfg mnemonic)
  /\
  (fst (ST.check_mnemonic cfg mnemonic) = Ok true <->
     (exists entropy, Decode mnemonic = Ok entropy) /\ some_target_derivable cfg mnemonic)
  /\
  (forall passphrases paths,
     Permutation (MNEMONIC_PASSPHRASES cfg) passphrases ->
     Permutation (BIP32_DERIVATION_PATHS cfg) paths ->
     fst (MP.check_mnemonic (with_order cfg passphrases paths) mnemonic)
       = fst (MP.check_mnemonic cfg mnemonic)
     /\ fst (ST.check_mnemonic (with_order cfg passphrases paths) mnemonic)
       = fst (ST.check_mnemonic cfg mnemonic)).
Proof.
  split; [|split].
  - rewrite MP_check_result. apply check_outcome_true_iff.
  - rewrite ST_check_result. apply check_outcome_true_iff.
  - intros passphrases paths Hps Hpaths.
    rewrite !MP_check_result, !ST_check_result.
    split; now apply check_outcome_order.
Qed.

Lemma check_mnemonic_match_iff_witness :
  fst (MP.check_mnemonic
         (with_order Demo.shipped ["test"; ""] ["m/44'/60'/0'"; "m/44'/0'/0'"])
         ["void"; "come"; "camp"])
  = fst (MP.check_mnemonic Demo.shipped ["void"; "come"; "camp"]).
Proof.
  exact (proj1 (proj2 (proj2 (check_mnemonic_match_iff Demo.shipped ["void"; "come"; "camp"]))
                  ["test"; ""] ["m/44'/60'/0'"; "m/44'/0'/0'"]
                  (perm_swap _ _ _) (perm_swap _ _ _))).
Defined.

(** C2, as amended.  [check_mnemonic] (in both files) returns a boolean and
    nothing else: [False] stands for no match (the checksum failed, or the
    mnemonic decodes and none of its configured derivations is a target) and
    [True] for a match.  The evidence of a match is not in the returned
    value: it is the "Found" record that closes the trace of the check and
    names the candidate, the passphrase and the address, the address being a
    target that an enabled scheme derives from that candidate under that
    configured passphrase.  The only other way out of the function is an
    exception of the decoder other than the checksum error, which the code
    does not catch. *)
Theorem check_mnemonic_result_evidence {L : BipUtils} (cfg : Config L)
        (mnemonic : Bip39Mnemonic) :
  (check_shape cfg (fun addr p => MP.found_msg addr mnemonic p) mnemonic
     (MP.check_mnemonic cfg mnemonic)
   /\ (fst (MP.check_mnemonic cfg mnemonic) = Ok false <-> genuine_no_match cfg mnemonic)
   /\ (forall e, fst (MP.check_mnemonic cfg mnemonic) = Raise e <->
                 Decode mnemonic = Raise e /\ e <> MnemonicChecksumError))
  /\
  (check_shape cfg (fun addr p => ST.found_msg addr mnemonic p) mnemonic
     (ST.check_mnemonic cfg mnemonic)
   /\ (fst (ST.check_mnemonic cfg mnemonic) = Ok false <-> genuine_no_match cfg mnemonic)
   /\ (forall e, fst (ST.check_mnemonic cfg mnemonic) = Raise e <->
                 Decode mnemonic = Raise e /\ e <> MnemonicChecksumError)).
Proof.
  split; (split; [|split]).
  - apply (MP_check_shape cfg mnemonic).
  - rewrite MP_check_result. apply check_outcome_false_iff.
  - intros e. rewrite MP_check_result. apply check_outcome_raise_iff.
  - apply (ST_check_shape cfg mnemonic).
  - rewrite ST_check_result. apply check_outcome_false_iff.
  - intros e. rewrite ST_check_result. apply check_outcome_raise_iff.
Qed.

(** C2 as stated fails.  The returned value is a bare boolean, from which no
    evidence can be read: with the passphrase list [("",)] and with the list
    [("test",)] the check of the same candidate returns the same value,
    [True], while no pair of passphrase and address is evidence for both.
    And the outcomes are not two but three: the check of the empty word
    list returns neither "no match" nor a match, it raises [ValueError]. *)
Lemma check_returns_bare_boolean :
  ~ (exists evidence_of,
       forall passphrases,
         returns_match_result
           (Demo.two_secrets passphrases ["m/44'/0'/0'"; "m/44'/60'/0'"])
           (fun m => fst (MP.check_mnemonic
                            (Demo.two_secrets passphrases ["m/44'/0'/0'"; "m/44'/60'/0'"]) m))
           evidence_of ["void"; "come"; "camp"])
  /\
  ~ (forall mnemonic,
       fst (MP.check_mnemonic Demo.shipped mnemonic) = Ok false
       \/ fst (MP.check_mnemonic Demo.shipped mnemonic) = Ok true).
Proof.
  split.
  - intros [evidence_of H].
    destruct (H [""]) as [F|(p & addr & E & Hp & _)]; [vm_compute in F; discriminate F|].
    destruct (H ["test"]) as [F|(p' & addr' & E' & Hp' & _)];
      [vm_compute in F; discriminate F|].
    assert (R : fst (MP.check_mnemonic
                       (Demo.two_secrets [""] ["m/44'/0'/0'"; "m/44'/60'/0'"])
                       ["void"; "come"; "camp"])
                = fst (MP.check_mnemonic
                         (Demo.two_secrets ["test"] ["m/44'/0'/0'"; "m/44'/60'/0'"])
                         ["void"; "come"; "camp"])) by (vm_compute; reflexivity).
    cbv beta in E, E'. rewrite R in E. rewrite E' in E. injection E as -> _.
    destruct Hp as [Hp|[]]. destruct Hp' as [Hp'|[]]. rewrite <- Hp in Hp'.
    discriminate Hp'.
  - intros H. destruct (H []) as [F|F]; vm_compute in F; discriminate F.
Qed.

(** C6.  When a check returns [True] its trace stops at the first derived
    address that is a target: nothing derived before it is a target and no
    derivation of any kind (index, path, scheme, passphrase) follows it.
    When the passphrase at some position of the list has a hit, no
    derivation is run under a passphrase listed after it; with the list
    [("", "test")] and a hit under "", nothing is derived under "test". *)
Theorem first_match_short_circuit {L : BipUtils} (cfg : Config L) (mnemonic : Bip39Mnemonic) :
  (fst (MP.check_mnemonic cfg mnemonic) = Ok true ->
   ends_at_first_hit cfg (snd (MP.check_mnemonic cfg mnemonic)))
  /\
  (fst (ST.check_mnemonic cfg mnemonic) = Ok true ->
   ends_at_first_hit cfg (snd (ST.check_mnemonic cfg mnemonic)))
  /\
  (forall before p after,
     MNEMONIC_PASSPHRASES cfg = before ++ p :: after ->
     passphrase_hit cfg mnemonic p = true ->
     Forall (fun q => In q (before ++ [p]))
       (evaluated_passphrases (snd (MP.check_mnemonic cfg mnemonic)))
     /\ Forall (fun q => In q (before ++ [p]))
          (evaluated_passphrases (snd (ST.check_mnemonic cfg mnemonic))))
  /\
  (MNEMONIC_PASSPHRASES cfg = [""; "test"] ->
   passphrase_hit cfg mnemonic "" = true ->
   ~ In "test" (evaluated_passphrases (snd (MP.check_mnemonic cfg mnemonic)))
   /\ ~ In "test" (evaluated_passphrases (snd (ST.check_mnemonic cfg mnemonic)))).
Proof.
  split; [|split; [|split]].
  - intros Hr. pose proof (MP_check_shape cfg mnemonic) as H.
    unfold check_shape in H. rewrite Hr in H.
    exact (match_evidence_first_hit cfg _ _ _ H).
  - intros Hr. pose proof (ST_check_shape cfg mnemonic) as H.
    unfold check_shape in H. rewrite Hr in H.
    exact (match_evidence_first_hit cfg _ _ _ H).
  - intros before p after Hps Hhit. split.
    + now apply MP_check_evaluated with (after := after).
    + now apply ST_check_evaluated with (after := after).
  - intros Hps Hhit. split; intros Hin.
    + pose proof (MP_check_evaluated cfg mnemonic [] "" ["test"] Hps Hhit) as F.
      rewrite Forall_forall in F. destruct (F _ Hin) as [E|[]]. discriminate E.
    + pose proof (ST_check_evaluated cfg mnemonic [] "" ["test"] Hps Hhit) as F.
      rewrite Forall_forall in F. destruct (F _ Hin) as [E|[]]. discriminate E.
Qed.

Lemma first_match_short_circuit_witness :
  ~ In "test"
      (evaluated_passphrases (snd (MP.check_mnemonic Demo.shipped ["void"; "come"; "camp"]))).
Proof.
  apply (proj2 (proj2 (proj2
           (first_match_short_circuit Demo.shipped ["void"; "come"; "camp"])))).
  - reflexivity.
  - vm_compute. reflexivity.
Defined.

(** C7.  A mnemonic whose decoding raises the checksum error makes
    [check_mnemonic] return [False], with the decoder call as the only thing
    that happened: neither scheme function ran, nothing was logged, and the
    error did not leave the function. *)
Theorem checksum_failure_no_derivation {L : BipUtils} (cfg : Config L)
        (mnemonic : Bip39Mnemonic) :
  Decode mnemonic = Raise MnemonicChecksumError ->
  MP.check_mnemonic cfg mnemonic = (Ok false, [EvDecode mnemonic])
  /\ ST.check_mnemonic cfg mnemonic = (Ok false, [EvDecode mnemonic])
  /\ derivations (snd (MP.check_mnemonic cfg mnemonic)) = []
  /\ derivations (snd (ST.check_mnemonic cfg mnemonic)) = [].
Proof.
  intros Hd.
  assert (Hmp : MP.check_mnemonic cfg mnemonic = (Ok false, [EvDecode mnemonic])).
  { unfold MP.check_mnemonic. now rewrite Hd. }
  assert (Hst : ST.check_mnemonic cfg mnemonic = (Ok false, [EvDecode mnemonic])).
  { unfold ST.check_mnemonic. now rewrite Hd. }
  rewrite Hmp, Hst. repeat split.
Qed.

Lemma checksum_failure_no_derivation_witness :
  MP.check_mnemonic Demo.shipped ["bad"; "come"; "camp"]
  = (Ok false, [EvDecode (["bad"; "come"; "camp"] : @Bip39Mnemonic Demo.lib)]).
Proof.
  apply (checksum_failure_no_derivation Demo.shipped ["bad"; "come"; "camp"]).
  reflexivity.
Defined.

(** C8.  [get_total_mnemonic_combinations] is the product of the slot sizes,
    or 1 when [MNEMONIC_FIXED] is set, and that product is the number of
    tuples [itertools.product] yields; [get_total_addresses] is that count
    times the number of passphrases times the sum of (paths x addresses per
    path, when the path scheme is enabled) and (accounts x addresses per
    account, when the account scheme is enabled). *)
Theorem totals_spec {L : BipUtils} (cfg : Config L) :
  get_total_mnemonic_combinations cfg
  = (if (MNEMONIC_FIXED cfg =? "")%string
     then slot_cardinality_product (MNEMONIC_WORDS cfg) else 1)
  /\
  slot_cardinality_product (MNEMONIC_WORDS cfg) = Py.len (Py.product (MNEMONIC_WORDS cfg))
  /\
  get_total_addresses cfg
  = get_total_mnemonic_combinations cfg
    * Py.len (MNEMONIC_PASSPHRASES cfg)
    * ((if BIP32_ENABLED cfg
        then Py.len (BIP32_DERIVATION_PATHS cfg) * BIP32_ADDRESSES_NUM cfg else 0)
       + (if BIP44_ENABLED cfg
          then BIP44_ACCOUNTS_NUM cfg * BIP44_ADDRESSES_NUM cfg else 0)).
Proof.
  split; [|split].
  - unfold get_total_mnemonic_combinations.
    destruct (MNEMONIC_FIXED cfg =? "")%string; cbn [negb]; [|reflexivity].
    apply reduce_mul_cardinalities.
  - rewrite product_lex. unfold Py.len. symmetry. apply length_lex_product.
  - unfold get_total_addresses. cbv zeta.
    destruct (BIP32_ENABLED cfg), (BIP44_ENABLED cfg); lia.
Qed.

(** C9.  On every mnemonic the two files' [check_mnemonic] end with the same
    outcome, their scheme functions return the same booleans, and the two
    checks run the same derivations in the same order. *)
Theorem variants_agree {L : BipUtils} (cfg : Config L) (mnemonic : Bip39Mnemonic) :
  fst (ST.check_mnemonic cfg mnemonic) = fst (MP.check_mnemonic cfg mnemonic)
  /\ (forall passphrase,
        fst (ST.derive_bip32_addresses cfg mnemonic passphrase)
        = fst (MP.derive_bip32_addresses cfg mnemonic passphrase))
  /\ (forall passphrase,
        fst (ST.derive_bip44_addresses cfg mnemonic passphrase)
        = fst (MP.derive_bip44_addresses cfg mnemonic passphrase))
  /\ derivations (snd (ST.check_mnemonic cfg mnemonic))
     = derivations (snd (MP.check_mnemonic cfg mnemonic)).
Proof.
  repeat split.
  - now rewrite ST_check_result, MP_check_result.
  - intros p. now rewrite ST_derive_bip32_result, MP_derive_bip32_result.
  - intros p. now rewrite ST_derive_bip44_result, MP_derive_bip44_result.
  - destruct (check_same_work cfg (VERBOSE cfg) mnemonic) as [_ H].
    rewrite with_verbose_same in H. now symmetry.
Qed.

(** C10.  Changing [VERBOSE] changes neither what [check_mnemonic],
    [derive_bip32_addresses] and [derive_bip44_addresses] return nor the
    derivations a check runs, in either file. *)
Theorem verbose_independent {L : BipUtils} (cfg : Config L) (mnemonic : Bip39Mnemonic)
        (v1 v2 : bool) :
  fst (MP.check_mnemonic (with_verbose cfg v1) mnemonic)
    = fst (MP.check_mnemonic (with_verbose cfg v2) mnemonic)
  /\ fst (ST.check_mnemonic (with_verbose cfg v1) mnemonic)
    = fst (ST.check_mnemonic (with_verbose cfg v2) mnemonic)
  /\ derivations (snd (MP.check_mnemonic (with_verbose cfg v1) mnemonic))
     = derivations (snd (MP.check_mnemonic (with_verbose cfg v2) mnemonic))
  /\ derivations (snd (ST.check_mnemonic (with_verbose cfg v1) mnemonic))
     = derivations (snd (ST.check_mnemonic (with_verbose cfg v2) mnemonic))
  /\ (forall passphrase,
        fst (MP.derive_bip32_addresses (with_verbose cfg v1) mnemonic passphrase)
        = fst (MP.derive_bip32_addresses (with_verbose cfg v2) mnemonic passphrase)
        /\ fst (MP.derive_bip44_addresses (with_verbose cfg v1) mnemonic passphrase)
           = fst (MP.derive_bip44_addresses (with_verbose cfg v2) mnemonic passphrase)
        /\ fst (ST.derive_bip32_addresses (with_verbose cfg v1) mnemonic passphrase)
           = fst (ST.derive_bip32_addresses (with_verbose cfg v2) mnemonic passphrase)
        /\ fst (ST.derive_bip44_addresses (with_verbose cfg v1) mnemonic passphrase)
           = fst (ST.derive_bip44_addresses (with_verbose cfg v2) mnemonic passphrase)).
Proof.
  assert (Hmp : forall v, derivations (snd (MP.check_mnemonic (with_verbose cfg v) mnemonic))
                          = derivations (snd (ST.check_mnemonic (with_verbose cfg true) mnemonic))).
  { intros v. exact (proj2 (check_same_work (with_verbose cfg v) true mnemonic)). }
  assert (Hst : forall v, derivations (snd (ST.check_mnemonic (with_verbose cfg v) mnemonic))
                          = derivations (snd (MP.check_mnemonic (with_verbose cfg true) mnemonic))).
  { intros v. symmetry. exact (proj2 (check_same_work (with_verbose cfg true) v mnemonic)). }
  split; [|split; [|split; [|split; [|intros passphrase; repeat apply conj]]]].
  - now rewrite !MP_check_result.
  - now rewrite !ST_check_result.
  - now rewrite !Hmp.
  - now rewrite !Hst.
  - now rewrite !MP_derive_bip32_result.
  - now rewrite !MP_derive_bip44_result.
  - now rewrite !ST_derive_bip32_result.
  - now rewrite !ST_derive_bip44_result.
Qed.

(* ================================================================== *)
(** * The enumerator *)
(* ================================================================== *)

(** C3.  The tuples the enumerator draws from, [itertools.product] of the
    slots, are the lexicographic product: first slot slowest, last slot
    fastest, the tuple at rank [k] being the digits of [k] in the mixed radix
    of the slot sizes.  There are as many of them as the product of the slot
    sizes, a tuple occurs exactly when each of its words is in the slot of
    its position, and no tuple occurs twice when no slot repeats a word.
    The generator process puts them in that order: what it has put is always
    a prefix of the product, is what the checkers pulled followed by what is
    still buffered, and is the whole product when the generator exits with
    the flag not set.  That end is reached: when the candidate queue is
    unbounded or as large as the product, the generator run alone puts the
    whole product and exits; and with any queue size, at least one checker
    and no matching candidate, there is a run in which it does.  The loop of
    [find_mnemonic] decodes a prefix of the product, and all of it when no
    candidate matches.  With a fixed mnemonic only that one candidate is
    handed to a check. *)
Theorem enumerator_yields_product {L : BipUtils} (cfg : Config L) :
  let slots := MNEMONIC_WORDS cfg in
  let candidates := map FromList (Py.product slots) in
  Py.product slots = lex_product slots
  /\ Py.len (Py.product slots) = slot_cardinality_product slots
  /\ (forall c, In c (Py.product slots) <-> Forall2 (fun w slot => In w slot) c slots)
  /\ (Forall (@NoDup string) slots -> NoDup (Py.product slots))
  /\ (forall k, nth_error (Py.product slots) k = candidate_at slots k)
  /\ (forall s, Sys.steps cfg (Sys.check_all_mnemonics cfg) s ->
        (exists rest, candidates = Sys.generated (Sys.shared s) ++ rest)
        /\ Sys.generated (Sys.shared s)
           = Sys.pulled (Sys.shared s) ++ items (Sys.mnemonic_queue (Sys.shared s))
        /\ (Sys.generator s = Sys.GExited ->
            Sys.stop_processing (Sys.shared s) = false ->
            Sys.generated (Sys.shared s) = candidates))
  /\ (MNEMONIC_QUEUE_MAX_SIZE cfg <= 0
      \/ Py.len (Py.product slots) <= MNEMONIC_QUEUE_MAX_SIZE cfg ->
      exists s,
        Sys.run cfg (generator_alone (Py.product slots)) (Sys.check_all_mnemonics cfg)
        = Some s
        /\ Sys.generator s = Sys.GExited
        /\ Sys.stop_processing (Sys.shared s) = false
        /\ Sys.generated (Sys.shared s) = candidates
        /\ items (Sys.mnemonic_queue (Sys.shared s)) = candidates)
  /\ (0 < PROCESS_NUM cfg ->
      (forall t, In t (Py.product slots) ->
                 fst (MP.check_mnemonic cfg (FromList t)) = Ok false) ->
      exists s,
        Sys.steps cfg (Sys.check_all_mnemonics cfg) s
        /\ Sys.generator s = Sys.GExited
        /\ Sys.stop_processing (Sys.shared s) = false
        /\ Sys.generated (Sys.shared s) = candidates)
  /\ (exists rest, candidates = decoded (snd (ST.find_mnemonic cfg)) ++ rest)
  /\ ((forall t, In t (Py.product slots) ->
                 fst (ST.check_mnemonic cfg (FromList t)) = Ok false) ->
      decoded (snd (ST.find_mnemonic cfg)) = candidates)
  /\ (MNEMONIC_FIXED cfg <> "" -> get_total_addresses cfg <> 0 ->
      Sys.main_system cfg
      = Some (Sys.check_single_mnemonic (FromString (MNEMONIC_FIXED cfg)))
      /\ (forall s, Sys.steps cfg (Sys.check_single_mnemonic (FromString (MNEMONIC_FIXED cfg))) s ->
                    Sys.generated (Sys.shared s) = [FromString (MNEMONIC_FIXED cfg)])
      /\ decoded (snd (ST.main cfg)) = [FromString (MNEMONIC_FIXED cfg)]).
Proof.
  intros slots candidates. subst candidates slots.
  split; [apply product_lex|].
  split; [rewrite product_lex; unfold Py.len; apply length_lex_product|].
  split; [intros c; rewrite product_lex; apply In_lex_product|].
  split; [intros Hnd; rewrite product_lex; now apply NoDup_lex_product|].
  split; [intros k; rewrite product_lex; apply nth_error_lex_product|].
  split; [|split; [|split; [|split; [|split]]]].
  - intros s Hsteps.
    destruct (check_all_initial cfg) as (F & _ & G).
    pose proof (steps_fifo cfg _ _ Hsteps F) as F'.
    pose proof (steps_generator_walks cfg _ _ Hsteps G) as G'.
    unfold generator_walks in G'. split; [|split; [exact F'|]].
    + destruct (Sys.generator s) as [rest|m rest|].
      * destruct G' as (done & -> & ->). exists (map FromList rest). apply map_app.
      * destruct G' as (done & t & -> & _ & ->).
        exists (map FromList (t :: rest)). apply map_app.
      * destruct G' as (done & rest & -> & -> & _).
        exists (map FromList rest). apply map_app.
    + intros Hg Hs. rewrite Hg in G'. destruct G' as (done & rest & -> & -> & [->|E]).
      * now rewrite app_nil_r.
      * congruence.
  - intros Hroom.
    destruct (generator_runs_alone cfg (Py.product (MNEMONIC_WORDS cfg))
                (Sys.check_all_mnemonics cfg) eq_refl eq_refl)
      as (s & R & G & S & N & I).
    + unfold has_room, Py.len in *. cbn [Sys.check_all_mnemonics Sys.shared
        Sys.initial_shared Sys.mnemonic_queue q_new maxsize items List.length].
      destruct Hroom as [H|H]; [now left | right]. cbn [Z.of_nat]. lia.
    + exists s. split; [exact R|]. split; [exact G|]. split; [exact S|].
      cbn in N, I. now split.
  - intros Hn Hall.
    destruct (idle_search_completes cfg (Py.product (MNEMONIC_WORDS cfg))
                (Sys.check_all_mnemonics cfg) (check_all_idle cfg Hn) eq_refl Hall)
      as (s & R & G & S & N).
    exists s. split; [exact R|]. split; [exact G|]. split; [exact S|]. exact N.
  - apply find_loop_decoded_prefix.
  - apply find_loop_decoded_all.
  - intros Hfixed Htotal.
    assert (Hf : (MNEMONIC_FIXED cfg =? "")%string = false) by now apply String.eqb_neq.
    assert (Ht : (get_total_addresses cfg =? 0) = false) by now apply Z.eqb_neq.
    split; [|split].
    + unfold Sys.main_system. cbv zeta. now rewrite Ht, Hf.
    + intros s Hsteps. now rewrite (steps_generator_exited cfg _ _ Hsteps eq_refl).
    + unfold ST.main. cbv zeta. rewrite Ht, Hf. cbn [negb].
      rewrite snd_bind, decoded_app, ST_check_decoded.
      now destruct (fst (ST.check_mnemonic cfg _)).
Qed.

(** At the configuration the files ship with, scaled down: the slots repeat
    no word, so the product has no duplicate, and the queue is larger than
    the product, so the generator alone puts all of it.  With a queue of one
    place, one checker and no target, a run still gets the generator through
    the whole product. *)
Lemma enumerator_yields_product_witness :
  NoDup (Py.product (MNEMONIC_WORDS Demo.shipped))
  /\ (exists s,
        Sys.run Demo.shipped
          (generator_alone (L := Demo.lib) (Py.product (MNEMONIC_WORDS Demo.shipped)))
          (Sys.check_all_mnemonics Demo.shipped) = Some s
        /\ Sys.generator s = Sys.GExited
        /\ Sys.stop_processing (Sys.shared s) = false
        /\ Sys.generated (Sys.shared s)
           = map FromList (Py.product (MNEMONIC_WORDS Demo.shipped))
        /\ items (Sys.mnemonic_queue (Sys.shared s))
           = map FromList (Py.product (MNEMONIC_WORDS Demo.shipped)))
  /\ (exists s,
        Sys.steps no_target (Sys.check_all_mnemonics no_target) s
        /\ Sys.generator s = Sys.GExited
        /\ Sys.stop_processing (Sys.shared s) = false
        /\ Sys.generated (Sys.shared s)
           = map FromList (Py.product (MNEMONIC_WORDS no_target))).
Proof.
  split; [|split].
  - apply (proj1 (proj2 (proj2 (proj2 (enumerator_yields_product Demo.shipped))))).
    repeat constructor; cbn; intuition discriminate.
  - apply (proj1 (proj2 (proj2 (proj2 (proj2 (proj2 (proj2
             (enumerator_yields_product Demo.shipped)))))))).
    right. vm_compute. discriminate.
  - apply (proj1 (proj2 (proj2 (proj2 (proj2 (proj2 (proj2 (proj2
             (enumerator_yields_product no_target))))))))).
    + reflexivity.
    + intros t Hin. cbn in Hin. destruct Hin as [<-|[<-|[]]]; vm_compute; reflexivity.
Defined.

(* ================================================================== *)
(** * The processes and the stop flag *)
(* ================================================================== *)

(** C4, at the failing schedule.  The space is one slot ["a", "b", "c"] and
    the address of "a" is the target.  The generator puts "a"; the logger
    polls the empty queue once; the checker takes "a", puts the "Found"
    record on the logger queue and then sets the flag; the logger, back at
    its loop test, sees the flag and exits.  The record was put before the
    flag was set, it is still in the queue, and the log file stays empty in
    every continuation. *)
Theorem found_record_lost :
  exists schedule s,
    Sys.run Demo.first_hits schedule (Sys.check_all_mnemonics Demo.first_hits) = Some s
    /\ Sys.logger s = Sys.LExited
    /\ Sys.stop_processing (Sys.shared s) = true
    /\ items (Sys.logger_queue (Sys.shared s))
       = [MP.found_msg "0xa||m/0" (["a"] : @Bip39Mnemonic Demo.lib) ""]
    /\ forall s', Sys.steps Demo.first_hits s s' -> Sys.log_file (Sys.shared s') = [].
Proof.
  exists [Sys.PGenerator; Sys.PGenerator; Sys.PLogger; Sys.PLogger;
          Sys.PChecker 0; Sys.PChecker 0; Sys.PChecker 0; Sys.PChecker 0; Sys.PLogger].
  eexists. split; [vm_compute; reflexivity|].
  repeat split.
  intros s' Hsteps.
  now rewrite (steps_logger_exited Demo.first_hits _ _ Hsteps eq_refl).
Qed.

(** C5, as amended.  A checker that finds the flag set at its loop test
    exits, taking nothing from the queue; the flag, once set, stays set, and
    from then on at most one more candidate is pulled per checker that was
    already inside [get], none when no checker is there.  A candidate that
    was pulled is never given up because of the flag: whatever the flag
    says, the checker that holds it waits only in [put] on a full logger
    queue, and when that queue has room for the records still to put it
    finishes the check as soon as it runs, with the outcome of
    [check_mnemonic], before it tests the flag again; in every reachable
    state the pulled candidates are those whose check ran to its end and
    those still inside a check, and once all checkers have terminated every
    pulled candidate has been checked.  What is still buffered when the flag
    is set and no checker is inside [get] stays in the queue. *)
Theorem stop_flag_and_buffered_candidates {L : BipUtils} (cfg : Config L) :
  (forall sh, Sys.stop_processing sh = true ->
              Sys.checker_step cfg sh Sys.WTest = Some (sh, Sys.WExited))
  /\
  (forall s i m pending r,
     nth_error (Sys.checkers s) i = Some (Sys.WChecking m pending r) ->
     (Sys.checker_step cfg (Sys.shared s) (Sys.WChecking m pending r) = None
      <-> pending <> [] /\ q_full (Sys.logger_queue (Sys.shared s)) = true)
     /\ (has_room (Sys.logger_queue (Sys.shared s)) (List.length pending) ->
         exists s',
           Sys.run cfg (repeat (Sys.PChecker i) (S (List.length pending))) s = Some s'
           /\ Sys.completed (Sys.shared s') = Sys.completed (Sys.shared s) ++ [(m, r)]
           /\ nth_error (Sys.checkers s') i = Some (after_check r)
           /\ items (Sys.logger_queue (Sys.shared s'))
              = items (Sys.logger_queue (Sys.shared s)) ++ pending
           /\ Sys.pulled (Sys.shared s') = Sys.pulled (Sys.shared s)
           /\ items (Sys.mnemonic_queue (Sys.shared s'))
              = items (Sys.mnemonic_queue (Sys.shared s))))
  /\
  (forall init s,
     init = Sys.check_all_mnemonics cfg \/ (exists m, init = Sys.check_single_mnemonic m) ->
     Sys.steps cfg init s ->
     Permutation (Sys.pulled (Sys.shared s))
       (map fst (Sys.completed (Sys.shared s)) ++ Sys.in_flight (Sys.checkers s))
     /\ Forall (fun mr => snd mr = fst (MP.check_mnemonic cfg (fst mr)))
               (Sys.completed (Sys.shared s))
     /\ Forall (fun pc => match pc with
                          | Sys.WChecking m _ r => r = fst (MP.check_mnemonic cfg m)
                          | _ => True
                          end) (Sys.checkers s)
     /\ (forallb Sys.terminated (Sys.checkers s) = true ->
         Permutation (Sys.pulled (Sys.shared s)) (map fst (Sys.completed (Sys.shared s)))))
  /\
  (forall s s',
     Sys.steps cfg s s' ->
     Sys.stop_processing (Sys.shared s) = true ->
     Sys.stop_processing (Sys.shared s') = true
     /\ (List.length (Sys.pulled (Sys.shared s')) + Sys.waiting_in_get (Sys.checkers s')
         <= List.length (Sys.pulled (Sys.shared s)) + Sys.waiting_in_get (Sys.checkers s))%nat
     /\ (Sys.waiting_in_get (Sys.checkers s) = 0%nat ->
         Sys.pulled (Sys.shared s') = Sys.pulled (Sys.shared s)
         /\ (Sys.generated (Sys.shared s)
             = Sys.pulled (Sys.shared s) ++ items (Sys.mnemonic_queue (Sys.shared s)) ->
             exists extra,
               items (Sys.mnemonic_queue (Sys.shared s'))
               = items (Sys.mnemonic_queue (Sys.shared s)) ++ extra))).
Proof.
  split; [|split; [|split]].
  - intros sh Hs. cbn [Sys.checker_step]. now rewrite Hs.
  - intros s i m pending r Hw. split.
    + apply checker_blocked_iff.
    + intros Hroom. now apply checker_completes.
  - intros init s Hinit Hsteps.
    assert (A : accounted cfg init).
    { destruct Hinit as [->|[m ->]];
        [apply check_all_initial | apply check_single_initial]. }
    destruct (steps_accounted cfg _ _ Hsteps A) as (P & C & W).
    split; [exact P|]. split; [exact C|]. split; [exact W|].
    intros T. rewrite (in_flight_terminated _ T), app_nil_r in P. exact P.
  - intros s s' Hsteps Hs.
    split; [now apply (steps_stop_monotone cfg s s')|].
    split; [now apply (steps_pull_bound cfg s s')|].
    intros Hw. now apply (steps_after_stop cfg s s').
Qed.

(** With two checkers: the first finds the match in "a" and sets the flag
    while the second is inside the check of "b" and "c" is still buffered.
    The second checker, flag set, finishes "b", and at its loop test exits
    and leaves "c" in the queue. *)
Lemma stop_flag_and_buffered_candidates_witness :
  exists s s',
    Sys.run two_checkers
      [Sys.PGenerator; Sys.PGenerator; Sys.PGenerator; Sys.PGenerator; Sys.PGenerator;
       Sys.PGenerator; Sys.PChecker 0; Sys.PChecker 0; Sys.PChecker 1; Sys.PChecker 1;
       Sys.PChecker 0; Sys.PLogger; Sys.PLogger; Sys.PChecker 0]
      (Sys.check_all_mnemonics two_checkers) = Some s
    /\ Sys.stop_processing (Sys.shared s) = true
    /\ items (Sys.mnemonic_queue (Sys.shared s)) = [FromList ["c"]]
    /\ Sys.run two_checkers [Sys.PChecker 1; Sys.PChecker 1] s = Some s'
    /\ Sys.completed (Sys.shared s')
       = Sys.completed (Sys.shared s) ++ [(FromList ["b"], Ok false)]
    /\ items (Sys.mnemonic_queue (Sys.shared s')) = [FromList ["c"]]
    /\ Sys.checker_step two_checkers (Sys.shared s') Sys.WTest
       = Some (Sys.shared s', Sys.WExited).
Proof.
  destruct (Sys.run two_checkers _ (Sys.check_all_mnemonics two_checkers))
    as [s|] eqn:E; [|vm_compute in E; discriminate E].
  vm_compute in E. injection E as E.
  assert (Hs : Sys.stop_processing (Sys.shared s) = true) by (rewrite <- E; reflexivity).
  assert (Hq : items (Sys.mnemonic_queue (Sys.shared s)) = [FromList ["c"]])
    by (rewrite <- E; reflexivity).
  destruct (proj2 (proj1 (proj2 (stop_flag_and_buffered_candidates two_checkers))
                     s 1%nat (FromList ["b"])
                     (log_records (snd (MP.check_mnemonic two_checkers (FromList ["b"]))))
                     (Ok false)
                     ltac:(rewrite <- E; reflexivity))
              ltac:(rewrite <- E; right; vm_compute; discriminate))
    as (s' & R & C & W & _ & _ & I).
  exists s, s'. split; [reflexivity|]. split; [exact Hs|]. split; [exact Hq|].
  split; [exact R|]. split; [exact C|]. split; [now rewrite I|].
  apply (proj1 (stop_flag_and_buffered_candidates two_checkers)).
  apply (proj1 (proj2 (proj2 (proj2 (stop_flag_and_buffered_candidates two_checkers)))
                  s s' (run_steps two_checkers _ _ _ R) Hs)).
Defined.

(** C5 as stated fails, in each of its three parts.
    - A worker pulls after the flag is set: with two checkers, the second
      has entered [get] when the first finds the match in "a" and sets the
      flag; it then takes "b" from the queue.
    - A pulled candidate is not always processed to completion: with a
      logger queue of one place, the "Found" record of "a" fills it, the
      logger exits at the flag, and the second checker waits for ever in
      [put] with the record of "b"; "b" is never completed.
    - Buffered candidates are not drained: with one checker, "a" matches
      while "b" and "c" are buffered, and in no continuation is either of
      them checked. *)
Lemma stop_flag_claim_fails :
  ~ (forall s s',
       Sys.steps two_checkers (Sys.check_all_mnemonics two_checkers) s ->
       Sys.stop_processing (Sys.shared s) = true ->
       Sys.steps two_checkers s s' ->
       Sys.pulled (Sys.shared s') = Sys.pulled (Sys.shared s))
  /\
  ~ (forall s m,
       Sys.steps two_checkers (Sys.check_all_mnemonics two_checkers) s ->
       In m (Sys.pulled (Sys.shared s)) ->
       exists s', Sys.steps two_checkers s s'
                  /\ In m (map fst (Sys.completed (Sys.shared s'))))
  /\
  ~ (forall s m,
       Sys.steps Demo.first_hits (Sys.check_all_mnemonics Demo.first_hits) s ->
       Sys.stop_processing (Sys.shared s) = true ->
       In m (items (Sys.mnemonic_queue (Sys.shared s))) ->
       exists s', Sys.steps Demo.first_hits s s'
                  /\ In m (map fst (Sys.completed (Sys.shared s')))).
Proof.
  split; [|split].
  - intros claim.
    pose (schedule := [Sys.PGenerator; Sys.PGenerator; Sys.PGenerator; Sys.PGenerator;
                       Sys.PChecker 0; Sys.PChecker 0; Sys.PChecker 1;
                       Sys.PChecker 0; Sys.PChecker 0]).
    destruct (Sys.run two_checkers schedule (Sys.check_all_mnemonics two_checkers))
      as [s|] eqn:Hrun; [|vm_compute in Hrun; discriminate Hrun].
    pose proof (run_steps two_checkers _ _ _ Hrun) as Hreach.
    vm_compute in Hrun. injection Hrun as Hs.
    destruct (Sys.step two_checkers (Sys.PChecker 1) s) as [s'|] eqn:Hstep;
      [|rewrite <- Hs in Hstep; vm_compute in Hstep; discriminate Hstep].
    assert (Hstop : Sys.stop_processing (Sys.shared s) = true) by now rewrite <- Hs.
    pose proof (claim s s' Hreach Hstop
                  (Sys.steps_step _ _ _ _ _ Hstep (Sys.steps_refl _ _))) as Hp.
    rewrite <- Hs in Hstep, Hp. vm_compute in Hstep. injection Hstep as Hs'.
    rewrite <- Hs' in Hp. discriminate Hp.
  - intros claim.
    pose (schedule := [Sys.PGenerator; Sys.PGenerator; Sys.PGenerator; Sys.PGenerator;
                       Sys.PGenerator; Sys.PGenerator;
                       Sys.PChecker 0; Sys.PChecker 0; Sys.PChecker 1; Sys.PChecker 1;
                       Sys.PChecker 0; Sys.PChecker 0; Sys.PLogger]).
    destruct (Sys.run two_checkers schedule (Sys.check_all_mnemonics two_checkers))
      as [s|] eqn:Hrun; [|vm_compute in Hrun; discriminate Hrun].
    pose proof (run_steps two_checkers _ _ _ Hrun) as Hreach.
    vm_compute in Hrun. injection Hrun as Hs.
    assert (Hstuck : stuck_in_put 1 (FromList ["b"] : @Bip39Mnemonic Demo.lib) s).
    { rewrite <- Hs. split; [reflexivity|]. split; [reflexivity|].
      split; [do 3 eexists; reflexivity|]. split.
      - intros [|[|j]] pc Hj Hpc; cbn in Hpc.
        + injection Hpc as <-. reflexivity.
        + now elim Hj.
        + destruct j; discriminate Hpc.
      - cbn. intros [H|[]]. discriminate H. }
    assert (Hin : In (FromList ["b"] : @Bip39Mnemonic Demo.lib) (Sys.pulled (Sys.shared s))).
    { rewrite <- Hs. right. now left. }
    destruct (claim s _ Hreach Hin) as (s' & Hsteps & Hchecked).
    destruct (steps_stuck two_checkers _ _ _ _ Hsteps Hstuck) as (_ & _ & _ & _ & Hc).
    now apply Hc.
  - intros claim.
    pose (schedule := [Sys.PGenerator; Sys.PGenerator; Sys.PGenerator; Sys.PGenerator;
                       Sys.PGenerator; Sys.PGenerator; Sys.PGenerator;
                       Sys.PChecker 0; Sys.PChecker 0; Sys.PChecker 0; Sys.PChecker 0]).
    destruct (Sys.run Demo.first_hits schedule (Sys.check_all_mnemonics Demo.first_hits))
      as [s|] eqn:Hrun; [|vm_compute in Hrun; discriminate Hrun].
    pose proof (run_steps Demo.first_hits _ _ _ Hrun) as Hreach.
    vm_compute in Hrun. injection Hrun as Hs.
    assert (Hset : candidates_settled s) by (rewrite <- Hs; now split).
    assert (Hstop : Sys.stop_processing (Sys.shared s) = true) by now rewrite <- Hs.
    assert (Hin : In (["b"] : @Bip39Mnemonic Demo.lib)
                     (items (Sys.mnemonic_queue (Sys.shared s)))).
    { rewrite <- Hs. now left. }
    destruct (claim s _ Hreach Hstop Hin) as (s' & Hsteps & Hchecked).
    destruct (steps_settled Demo.first_hits _ _ Hsteps Hset) as (_ & _ & Hc).
    rewrite Hc, <- Hs in Hchecked. cbn in Hchecked.
    destruct Hchecked as [E|[]]. discriminate E.
Qed.

(* ================================================================== *)
(** * Further properties of the code *)
(* ================================================================== *)

Section FormatInteger.

Lemma digit_not_separator c : Fmt.is_digit c = true -> is_separator c = false.
Proof.
  unfold Fmt.is_digit, is_separator. cbn [existsb]. rewrite !orb_true_iff.
  intros H. repeat (destruct H as [H|H]; [apply Ascii.eqb_eq in H; now subst|]).
  discriminate H.
Qed.

Lemma uint_digits (d : Decimal.uint) :
  Forall (fun c => Fmt.is_digit c = true)
         (list_ascii_of_string (NilEmpty.string_of_uint d)).
Proof. induction d; cbn; constructor; auto. Qed.

Lemma str_digits (n : Z) :
  0 <= n -> Forall (fun c => Fmt.is_digit c = true) (list_ascii_of_string (Py.str n)).
Proof.
  intros Hn. unfold Py.str. destruct n as [|p|p]; [repeat constructor| |lia].
  cbn [Z.to_int NilZero.string_of_int]. unfold NilZero.string_of_uint.
  pose proof (uint_digits (Pos.to_uint p)) as H.
  destruct (Pos.to_uint p); try exact H. repeat constructor.
Qed.

Lemma str_sign (n : Z) :
  Py.str n = if n <? 0 then String "-"%char (Py.str (Z.abs n)) else Py.str (Z.abs n).
Proof. now destruct n. Qed.

Lemma group_thousands_digits (ds : list ascii) (k : nat) :
  Forall (fun c => Fmt.is_digit c = true) ds ->
  filter (fun c => negb (is_separator c)) (Fmt.group_thousands ds k) = ds.
Proof.
  intros H. revert k. induction H as [|d ds Hd _ IH]; intros k; [reflexivity|].
  cbn [Fmt.group_thousands]. apply digit_not_separator in Hd.
  destruct (k =? 3)%nat; cbn [filter is_separator Ascii.eqb orb negb];
    rewrite Hd; cbn [negb]; now rewrite IH.
Qed.

Lemma drop_replace (cs : list ascii) :
  Fmt.drop_dots (Fmt.replace_char ","%char "."%char (string_of_list_ascii cs))
  = string_of_list_ascii (filter (fun c => negb (is_separator c)) cs).
Proof.
  induction cs as [|c cs IH]; [reflexivity|].
  cbn [string_of_list_ascii Fmt.replace_char Fmt.drop_dots filter]. unfold is_separator.
  destruct (Ascii.eqb c ","%char) eqn:E1.
  - cbn. exact IH.
  - destruct (Ascii.eqb c "."%char) eqn:E2; cbn; [exact IH | now rewrite IH].
Qed.

Lemma filter_rev {A} (f : A -> bool) (xs : list A) : filter f (rev xs) = rev (filter f xs).
Proof.
  induction xs as [|x xs IH]; [reflexivity|].
  cbn [rev filter]. rewrite filter_app, IH. cbn [filter].
  destruct (f x); [reflexivity | now rewrite app_nil_r].
Qed.

Lemma Forall_rev_digits (ds : list ascii) :
  Forall (fun c => Fmt.is_digit c = true) ds ->
  Forall (fun c => Fmt.is_digit c = true) (rev ds).
Proof. apply Forall_rev. Qed.

Lemma format_body_digits (n : Z) :
  0 <= n ->
  Fmt.drop_dots
    (Fmt.replace_char ","%char "."%char
       (string_of_list_ascii
          (rev (Fmt.group_thousands (rev (list_ascii_of_string (Py.str n))) 0))))
  = Py.str n.
Proof.
  intros Hn. rewrite drop_replace, filter_rev, group_thousands_digits.
  - now rewrite rev_involutive, string_of_list_ascii_of_string.
  - now apply Forall_rev_digits, str_digits.
Qed.

(** X1.  Taking the "." separators out of [format_integer(num)] gives back
    [str(num)], for every integer: the function changes nothing but the
    grouping. *)
Theorem format_integer_keeps_digits (num : Z) :
  Fmt.drop_dots (Fmt.format_integer num) = Py.str num.
Proof.
  unfold Fmt.format_integer, Fmt.format_comma. cbv zeta. rewrite (str_sign num).
  destruct (num <? 0).
  - cbn [Fmt.replace_char Fmt.drop_dots Ascii.eqb Bool.eqb]. f_equal.
    apply format_body_digits. lia.
  - apply format_body_digits. lia.
Qed.

Lemma group_thousands_length (ds : list ascii) (k : nat) :
  (k <= 3)%nat ->
  List.length (Fmt.group_thousands ds k)
  = (List.length ds + (List.length ds + k - 1) / 3)%nat.
Proof.
  revert k. induction ds as [|d ds IH]; intros k Hk.
  - cbn [Fmt.group_thousands List.length]. symmetry.
    apply Nat.div_small. lia.
  - cbn [Fmt.group_thousands]. destruct (Nat.eqb_spec k 3) as [->|Hne].
    + cbn [List.length]. rewrite IH by lia.
      replace (S (List.length ds) + 3 - 1)%nat with (List.length ds + 1 - 1 + 1 * 3)%nat by lia.
      rewrite Nat.div_add by lia. lia.
    + cbn [List.length]. rewrite IH by lia.
      replace (S (List.length ds) + k - 1)%nat with (List.length ds + S k - 1)%nat by lia.
      lia.
Qed.

Lemma group_thousands_positions (ds : list ascii) (k i : nat) (c : ascii) :
  (k <= 3)%nat ->
  Forall (fun c => Fmt.is_digit c = true) ds ->
  nth_error (Fmt.group_thousands ds k) i = Some c ->
  if ((i + k) mod 4 =? 3)%nat then c = ","%char else Fmt.is_digit c = true.
Proof.
  intros Hk H. revert k i Hk. induction H as [|d ds Hd _ IH]; intros k i Hk Hc.
  - destruct i; discriminate Hc.
  - cbn [Fmt.group_thousands] in Hc. destruct (Nat.eqb_spec k 3) as [->|Hne].
    + destruct i as [|[|i]]; cbn [nth_error] in Hc.
      * injection Hc as <-. reflexivity.
      * injection Hc as <-. exact Hd.
      * specialize (IH 1%nat i ltac:(lia) Hc).
        replace ((S (S i) + 3) mod 4)%nat with ((i + 1) mod 4)%nat; [exact IH|].
        replace (S (S i) + 3)%nat with (i + 1 + 1 * 4)%nat by lia.
        now rewrite Nat.Div0.mod_add.
    + destruct i as [|i]; cbn [nth_error] in Hc.
      * injection Hc as <-. cbn [Nat.add].
        rewrite Nat.mod_small by lia.
        destruct (Nat.eqb_spec k 3); [lia | exact Hd].
      * specialize (IH (S k) i ltac:(lia) Hc).
        now replace (S i + k)%nat with (i + S k)%nat by lia.
Qed.

Lemma nth_error_replace_char (s : string) (i : nat) :
  nth_error (list_ascii_of_string (Fmt.replace_char ","%char "."%char s)) i
  = option_map (fun c => if Ascii.eqb c ","%char then "."%char else c)
               (nth_error (list_ascii_of_string s) i).
Proof.
  revert i. induction s as [|c s IH]; intros [|i]; try reflexivity.
  cbn [Fmt.replace_char list_ascii_of_string nth_error]. apply IH.
Qed.

Lemma length_replace_char (s : string) :
  String.length (Fmt.replace_char ","%char "."%char s) = String.length s.
Proof. induction s as [|c s IH]; cbn; congruence. Qed.

Lemma length_list_ascii (s : string) :
  List.length (list_ascii_of_string s) = String.length s.
Proof. induction s as [|c s IH]; cbn; congruence. Qed.

(** X2.  For [num >= 0], [format_integer(num)] has one "." for every full
    group of three digits that has a digit before it, and, counting from the
    right from 0, the characters at the positions 3, 7, 11, ... are the "."
    separators and all the others are decimal digits; in particular the text
    neither starts nor ends with a separator. *)
Theorem format_integer_groups_of_three (num : Z) :
  0 <= num ->
  let digits := String.length (Py.str num) in
  let text := Fmt.format_integer num in
  String.length text = (digits + (digits - 1) / 3)%nat
  /\ forall i c,
       nth_error (list_ascii_of_string text) (String.length text - 1 - i) = Some c ->
       (i < String.length text)%nat ->
       if (i mod 4 =? 3)%nat then c = "."%char else Fmt.is_digit c = true.
Proof.
  intros Hn digits text. subst digits text.
  unfold Fmt.format_integer, Fmt.format_comma. cbv zeta.
  replace (num <? 0) with false by (symmetry; apply Z.ltb_ge; exact Hn).
  rewrite Z.abs_eq by exact Hn.
  set (ds := list_ascii_of_string (Py.str num)).
  assert (Hds : Forall (fun c => Fmt.is_digit c = true) (rev ds))
    by now apply Forall_rev_digits, str_digits.
  assert (Hlen : String.length
                   (Fmt.replace_char ","%char "."%char
                      (string_of_list_ascii (rev (Fmt.group_thousands (rev ds) 0))))
                 = List.length (Fmt.group_thousands (rev ds) 0)).
  { rewrite length_replace_char, <- length_list_ascii,
      list_ascii_of_string_of_list_ascii. apply length_rev. }
  split.
  - rewrite Hlen, group_thousands_length by lia.
    rewrite length_rev. unfold ds. rewrite length_list_ascii.
    now rewrite Nat.add_0_r.
  - intros i c Hc Hi. rewrite Hlen in Hc, Hi.
    rewrite nth_error_replace_char, list_ascii_of_string_of_list_ascii in Hc.
    rewrite nth_error_rev in Hc.
    set (G := Fmt.group_thousands (rev ds) 0) in *.
    replace (List.length G - 1 - i <? List.length G)%nat with true in Hc
      by (symmetry; apply Nat.ltb_lt; lia).
    replace (List.length G - S (List.length G - 1 - i))%nat with i in Hc by lia.
    subst G.
    destruct (nth_error (Fmt.group_thousands (rev ds) 0) i) as [c0|] eqn:E;
      [|discriminate Hc].
    cbn [option_map] in Hc. injection Hc as <-.
    pose proof (group_thousands_positions (rev ds) 0 i c0 ltac:(lia) Hds E) as P.
    rewrite Nat.add_0_r in P.
    destruct (i mod 4 =? 3)%nat.
    + subst c0. reflexivity.
    + pose proof (digit_not_separator _ P) as S. unfold is_separator in S.
      apply orb_false_iff in S. destruct S as [S _]. now rewrite S.
Qed.

Lemma format_integer_groups_of_three_witness :
  String.length (Fmt.format_integer 1234567) = 9%nat.
Proof.
  apply (proj1 (format_integer_groups_of_three 1234567 ltac:(lia))).
Defined.

End FormatInteger.

(* ================================================================== *)
(** * What the checks log *)
(* ================================================================== *)

Section LogCounts.
Context {L : BipUtils}.

Lemma log_records_app (t1 t2 : list Event) :
  log_records (t1 ++ t2) = log_records t1 ++ log_records t2.
Proof. apply flat_map_app. Qed.

Lemma silent_app (t1 t2 : list Event) : silent t1 -> silent t2 -> silent (t1 ++ t2).
Proof. unfold silent. intros H1 H2. now rewrite log_records_app, H1, H2. Qed.

Lemma one_found_app found (t1 t2 : list Event) :
  silent t1 -> one_found found t2 -> one_found found (t1 ++ t2).
Proof.
  unfold silent. intros H1 (addr & p & H2). exists addr, p.
  now rewrite log_records_app, H1, H2.
Qed.

Lemma flow_logs_for_in found {A S} (xs : list A) (body : A -> S -> M (Flow S)) (s : S) :
  (forall x s', flow_logs found (body x s')) -> flow_logs found (for_in xs body s).
Proof.
  intros H. unfold flow_logs.
  apply (for_in_trace silent (one_found found)).
  - reflexivity.
  - apply silent_app.
  - apply one_found_app.
  - intros x s' _. apply H.
Qed.

Lemma flow_logs_bind found {A S} (c : M A) (k : A -> M (Flow S)) :
  silent (snd c) -> flow_logs found (k (fst c)) -> flow_logs found (bind c k).
Proof.
  unfold flow_logs. rewrite fst_bind, snd_bind. intros Hc Hk.
  destruct (fst (k (fst c))); [now apply silent_app | now apply one_found_app].
Qed.

(** The step both files make at an index: the address event, records that
    are logged about it, and the "Found" record on a hit. *)
Lemma address_logs found (ev : Event) (verbose_records : list Event) (hit : bool)
      (addr p : string) {S} (s : S) :
  (forall msg, ev <> EvLog msg) ->
  silent verbose_records ->
  flow_logs found
    (if hit then (@ReturnTrue S, ev :: verbose_records ++ [EvLog (found addr p)])
     else (Continue s, ev :: verbose_records)).
Proof.
  intros Hev Hv. unfold flow_logs, silent, one_found in *.
  assert (E : forall t, log_records (ev :: t) = log_records t).
  { intros t. destruct ev; try reflexivity. now elim (Hev msg). }
  destruct hit; cbn [fst snd]; rewrite E.
  - exists addr, p. now rewrite log_records_app, Hv.
  - exact Hv.
Qed.

End LogCounts.

Section SchemeLogs.
Context {L : BipUtils} (cfg : Config L).

(** ** The parallel file: the loops log nothing but "Found" *)

Lemma MP_bip32_index_logs mnemonic p path ctx i msg :
  flow_logs (MP_found mnemonic) (MP.bip32_index_body cfg mnemonic p path ctx i msg).
Proof.
  unfold MP.bip32_index_body. cbv zeta.
  match goal with |- context [Py.contains ?a ?t] =>
    pose proof (address_logs (MP_found mnemonic) (EvBip32Addr p path i a) []
                  (Py.contains a t) a p
                  (msg +s+ Py.nl +s+ "    BIP32 Address " +s+ Py.str i +s+ ": " +s+ a)
                  ltac:(discriminate) eq_refl) as H;
    destruct (Py.contains a t)
  end; exact H.
Qed.

Lemma MP_bip32_path_logs mnemonic p path msg :
  flow_logs (MP_found mnemonic) (MP.bip32_path_body cfg mnemonic p path msg).
Proof.
  unfold MP.bip32_path_body. cbv zeta.
  apply flow_logs_bind; [reflexivity|].
  apply flow_logs_for_in. intros i s'. apply MP_bip32_index_logs.
Qed.

Lemma MP_log_verbose_length msg :
  List.length (log_records (snd (MP.log_verbose cfg msg))) = bool_to_nat (VERBOSE cfg).
Proof. unfold MP.log_verbose. now destruct (VERBOSE cfg). Qed.

Lemma MP_scheme_of_flow (c : M (Flow string)) found :
  flow_logs found c ->
  scheme_logs found (bool_to_nat (VERBOSE cfg))
    (bind c (fun r => match r with
                      | ReturnTrue => ret true
                      | Continue msg => bind (MP.log_verbose cfg msg) (fun _ => ret false)
                      end)).
Proof.
  unfold flow_logs, scheme_logs. rewrite fst_bind, snd_bind.
  destruct (fst c) as [msg|]; cbn [ret bind fst snd]; rewrite ?app_nil_r.
  - unfold silent. intros H.
    rewrite log_records_app, H. cbn [app]. apply MP_log_verbose_length.
  - easy.
Qed.

Lemma MP_derive_bip32_logs mnemonic p :
  scheme_logs (MP_found mnemonic) (bool_to_nat (BIP32_ENABLED cfg && VERBOSE cfg))
    (MP.derive_bip32_addresses cfg mnemonic p).
Proof.
  unfold MP.derive_bip32_addresses.
  destruct (BIP32_ENABLED cfg); cbn [negb andb]; [|reflexivity].
  apply MP_scheme_of_flow, flow_logs_for_in. intros path s'. apply MP_bip32_path_logs.
Qed.

Lemma MP_bip44_index_logs mnemonic p i ctx j msg :
  flow_logs (MP_found mnemonic) (MP.bip44_index_body cfg mnemonic p i ctx j msg).
Proof.
  unfold MP.bip44_index_body. cbv zeta.
  match goal with |- context [Py.contains ?a ?t] =>
    pose proof (address_logs (MP_found mnemonic) (EvBip44Addr p i j a) []
                  (Py.contains a t) a p
                  (msg +s+ Py.nl +s+ "    BIP44 Address " +s+ Py.str j +s+ ": " +s+ a)
                  ltac:(discriminate) eq_refl) as H;
    destruct (Py.contains a t)
  end; exact H.
Qed.

Lemma MP_bip44_account_logs mnemonic p ctx i msg :
  flow_logs (MP_found mnemonic) (MP.bip44_account_body cfg mnemonic p ctx i msg).
Proof.
  unfold MP.bip44_account_body. cbv zeta.
  apply flow_logs_bind; [reflexivity|].
  apply flow_logs_for_in. intros j s'. apply MP_bip44_index_logs.
Qed.

Lemma scheme_logs_bind found k {A} (c : M A) (f : A -> M bool) :
  silent (snd c) -> scheme_logs found k (f (fst c)) -> scheme_logs found k (bind c f).
Proof.
  unfold scheme_logs, silent. rewrite fst_bind, snd_bind. intros Hc Hf.
  destruct (fst (f (fst c))).
  - now apply one_found_app.
  - rewrite log_records_app, Hc. exact Hf.
Qed.

Lemma MP_derive_bip44_logs mnemonic p :
  scheme_logs (MP_found mnemonic) (bool_to_nat (BIP44_ENABLED cfg && VERBOSE cfg))
    (MP.derive_bip44_addresses cfg mnemonic p).
Proof.
  unfold MP.derive_bip44_addresses.
  destruct (BIP44_ENABLED cfg); cbn [negb andb]; [|reflexivity].
  cbv zeta. apply scheme_logs_bind; [reflexivity|].
  apply MP_scheme_of_flow, flow_logs_for_in. intros i s'. apply MP_bip44_account_logs.
Qed.

(** ** The single-flow file with [VERBOSE] off *)

Lemma ST_log_verbose_off msg : VERBOSE cfg = false -> silent (snd (ST.log_verbose cfg msg)).
Proof.
  intros Hv. unfold ST.log_verbose, ST.logging_log, ST.root_level. now rewrite Hv.
Qed.

Lemma ST_bip32_index_logs mnemonic p path ctx i (u : unit) :
  VERBOSE cfg = false ->
  flow_logs (ST_found mnemonic) (ST.bip32_index_body cfg mnemonic p path ctx i u).
Proof.
  intros Hv. unfold ST.bip32_index_body. cbv zeta.
  match goal with |- context [Py.contains ?a ?t] =>
    pose proof (address_logs (ST_found mnemonic) (EvBip32Addr p path i a)
                  (snd (ST.log_verbose cfg
                          ("    BIP32 Address " +s+ Py.str i +s+ ": " +s+ a)))
                  (Py.contains a t) a p tt
                  ltac:(discriminate) (ST_log_verbose_off _ Hv)) as H;
    unfold flow_logs in *; rewrite !fst_bind, !snd_bind;
    destruct (Py.contains a t)
  end.
  - rewrite fst_bind, snd_bind, ST_log_always. cbn [fst snd ret tell app] in *.
    rewrite ?app_nil_r. exact H.
  - cbn [fst snd ret tell app] in *. rewrite ?app_nil_r. exact H.
Qed.

Lemma ST_bip32_path_logs mnemonic p path (u : unit) :
  VERBOSE cfg = false ->
  flow_logs (ST_found mnemonic) (ST.bip32_path_body cfg mnemonic p path u).
Proof.
  intros Hv. unfold ST.bip32_path_body.
  apply flow_logs_bind; [now apply ST_log_verbose_off|].
  apply flow_logs_bind; [reflexivity|].
  apply flow_logs_for_in. intros i []. now apply ST_bip32_index_logs.
Qed.

Lemma ST_scheme_of_flow (c : M (Flow unit)) found :
  flow_logs found c -> scheme_logs found 0 (bind c (fun r => ret (returned_true r))).
Proof.
  unfold flow_logs, scheme_logs, silent. rewrite fst_bind, snd_bind.
  cbn [ret fst snd]. rewrite app_nil_r.
  destruct (fst c); cbn [returned_true]; [|easy].
  intros ->. reflexivity.
Qed.

Lemma ST_derive_bip32_logs mnemonic p :
  VERBOSE cfg = false ->
  scheme_logs (ST_found mnemonic) 0 (ST.derive_bip32_addresses cfg mnemonic p).
Proof.
  intros Hv. unfold ST.derive_bip32_addresses.
  destruct (BIP32_ENABLED cfg); cbn [negb]; [|reflexivity].
  apply scheme_logs_bind; [now apply ST_log_verbose_off|].
  apply ST_scheme_of_flow, flow_logs_for_in. intros path []. now apply ST_bip32_path_logs.
Qed.

Lemma ST_bip44_index_logs mnemonic p i ctx j (u : unit) :
  VERBOSE cfg = false ->
  flow_logs (ST_found mnemonic) (ST.bip44_index_body cfg mnemonic p i ctx j u).
Proof.
  intros Hv. unfold ST.bip44_index_body. cbv zeta.
  match goal with |- context [Py.contains ?a ?t] =>
    pose proof (address_logs (ST_found mnemonic) (EvBip44Addr p i j a)
                  (snd (ST.log_verbose cfg
                          ("    BIP44 Address " +s+ Py.str j +s+ ": " +s+ a)))
                  (Py.contains a t) a p tt
                  ltac:(discriminate) (ST_log_verbose_off _ Hv)) as H;
    unfold flow_logs in *; rewrite !fst_bind, !snd_bind;
    destruct (Py.contains a t)
  end.
  - rewrite fst_bind, snd_bind, ST_log_always. cbn [fst snd ret tell app] in *.
    rewrite ?app_nil_r. exact H.
  - cbn [fst snd ret tell app] in *. rewrite ?app_nil_r. exact H.
Qed.

Lemma ST_bip44_account_logs mnemonic p ctx i (u : unit) :
  VERBOSE cfg = false ->
  flow_logs (ST_found mnemonic) (ST.bip44_account_body cfg mnemonic p ctx i u).
Proof.
  intros Hv. unfold ST.bip44_account_body.
  apply flow_logs_bind; [now apply ST_log_verbose_off|].
  apply flow_logs_bind; [reflexivity|].
  apply flow_logs_for_in. intros j []. now apply ST_bip44_index_logs.
Qed.

Lemma ST_derive_bip44_logs mnemonic p :
  VERBOSE cfg = false ->
  scheme_logs (ST_found mnemonic) 0 (ST.derive_bip44_addresses cfg mnemonic p).
Proof.
  intros Hv. unfold ST.derive_bip44_addresses.
  destruct (BIP44_ENABLED cfg); cbn [negb]; [|reflexivity].
  apply scheme_logs_bind; [now apply ST_log_verbose_off|].
  apply scheme_logs_bind; [reflexivity|].
  apply ST_scheme_of_flow, flow_logs_for_in. intros i []. now apply ST_bip44_account_logs.
Qed.

End SchemeLogs.

Section CheckLogs.
Context {L : BipUtils} (cfg : Config L).
Variables d32 d44 : Bip39Mnemonic -> string -> M bool.
Variable found : Bip39Mnemonic -> string -> string -> string.
Variables k32 k44 : nat.
Hypothesis d32_logs : forall m p, scheme_logs (found m) k32 (d32 m p).
Hypothesis d44_logs : forall m p, scheme_logs (found m) k44 (d44 m p).

Lemma passphrase_body_logs m p (u : unit) :
  match fst (passphrase_body_with d32 d44 m p u) with
  | Continue _ =>
      List.length (log_records (snd (passphrase_body_with d32 d44 m p u)))
      = (k32 + k44)%nat
  | ReturnTrue => found_last (found m) (k32 + k44) (snd (passphrase_body_with d32 d44 m p u))
  end.
Proof.
  pose proof (d32_logs m p) as H32. pose proof (d44_logs m p) as H44.
  unfold scheme_logs, passphrase_body_with, found_last, one_found in *.
  rewrite fst_bind, snd_bind.
  destruct (fst (d32 m p)).
  - cbn [ret fst snd]. rewrite app_nil_r. destruct H32 as (addr & q & ->).
    exists [], addr, q. split; [reflexivity | cbn; lia].
  - rewrite fst_bind, snd_bind.
    destruct (fst (d44 m p)); cbn [ret fst snd]; rewrite app_nil_r, log_records_app.
    + destruct H44 as (addr & q & ->).
      exists (log_records (snd (d32 m p))), addr, q. split; [reflexivity | lia].
    + rewrite length_app. lia.
Qed.

Lemma passphrases_loop_logs m (ps : list string) :
  match fst (for_in ps (passphrase_body_with d32 d44 m) tt) with
  | Continue _ =>
      List.length (log_records (snd (for_in ps (passphrase_body_with d32 d44 m) tt)))
      = (List.length ps * (k32 + k44))%nat
  | ReturnTrue =>
      found_last (found m) (List.length ps * (k32 + k44))
        (snd (for_in ps (passphrase_body_with d32 d44 m) tt))
  end.
Proof.
  induction ps as [|p ps IH]; [reflexivity|].
  rewrite for_in_cons, fst_bind, snd_bind.
  pose proof (passphrase_body_logs m p tt) as Hp.
  destruct (fst (passphrase_body_with d32 d44 m p tt)) as [[]|].
  - destruct (fst (for_in ps _ tt)).
    + rewrite log_records_app, length_app, Hp, IH. cbn [List.length]. lia.
    + destruct IH as (pre & addr & q & E & B).
      exists (log_records (snd (passphrase_body_with d32 d44 m p tt)) ++ pre), addr, q.
      rewrite log_records_app, E, app_assoc. split; [reflexivity|].
      rewrite length_app, Hp. cbn [List.length]. lia.
  - cbn [ret fst snd]. rewrite app_nil_r.
    destruct Hp as (pre & addr & q & E & B). exists pre, addr, q.
    split; [exact E | cbn [List.length]; lia].
Qed.

Lemma check_with_logs m :
  match fst (check_mnemonic_with d32 d44 (MNEMONIC_PASSPHRASES cfg) m) with
  | Ok true =>
      found_last (found m) (List.length (MNEMONIC_PASSPHRASES cfg) * (k32 + k44))
        (snd (check_mnemonic_with d32 d44 (MNEMONIC_PASSPHRASES cfg) m))
  | Ok false =>
      List.length
        (log_records (snd (check_mnemonic_with d32 d44 (MNEMONIC_PASSPHRASES cfg) m)))
      = match Decode m with
        | Ok _ => (List.length (MNEMONIC_PASSPHRASES cfg) * (k32 + k44))%nat
        | Raise _ => 0%nat
        end
  | Raise _ =>
      log_records (snd (check_mnemonic_with d32 d44 (MNEMONIC_PASSPHRASES cfg) m)) = []
  end.
Proof.
  unfold check_mnemonic_with. rewrite fst_bind, snd_bind.
  destruct (Decode m) as [ent|[|]]; try reflexivity.
  rewrite fst_bind, snd_bind. cbn [ret tell fst snd]. rewrite app_nil_r.
  pose proof (passphrases_loop_logs m (MNEMONIC_PASSPHRASES cfg)) as H.
  destruct (fst (for_in _ _ _)); cbn [returned_true app]; exact H.
Qed.

End CheckLogs.

(** X3.  With [VERBOSE] off the log holds "Found" records only: in either
    file a check that does not return True logs nothing, and a check that
    returns True logs exactly one record, the "Found" record of the
    candidate. *)
Theorem quiet_check_logs_only_found {L : BipUtils} (cfg : Config L) (mnemonic : Bip39Mnemonic) :
  VERBOSE cfg = false ->
  match fst (MP.check_mnemonic cfg mnemonic) with
  | Ok true =>
      exists addr p,
        log_records (snd (MP.check_mnemonic cfg mnemonic)) = [MP.found_msg addr mnemonic p]
  | _ => log_records (snd (MP.check_mnemonic cfg mnemonic)) = []
  end
  /\
  match fst (ST.check_mnemonic cfg mnemonic) with
  | Ok true =>
      exists addr p,
        log_records (snd (ST.check_mnemonic cfg mnemonic)) = [ST.found_msg addr mnemonic p]
  | _ => log_records (snd (ST.check_mnemonic cfg mnemonic)) = []
  end.
Proof.
  intros Hv. split.
  - pose proof (check_with_logs cfg _ _ MP_found _ _
                  (MP_derive_bip32_logs cfg) (MP_derive_bip44_logs cfg) mnemonic) as H.
    rewrite <- MP_check_is_skeleton in H. rewrite Hv, !andb_false_r in H.
    cbn [bool_to_nat Nat.add] in H. rewrite Nat.mul_0_r in H.
    destruct (fst (MP.check_mnemonic cfg mnemonic)) as [[|]|e]; [| |exact H].
    + destruct H as (pre & addr & p & E & B). exists addr, p.
      destruct pre; [exact E | cbn in B; lia].
    + apply length_zero_iff_nil. rewrite H. now destruct (Decode mnemonic).
  - pose proof (check_with_logs cfg _ _ ST_found 0 0
                  (fun m p => ST_derive_bip32_logs cfg m p Hv)
                  (fun m p => ST_derive_bip44_logs cfg m p Hv) mnemonic) as H.
    rewrite <- ST_check_is_skeleton in H. rewrite Nat.mul_0_r in H.
    destruct (fst (ST.check_mnemonic cfg mnemonic)) as [[|]|e]; [| |exact H].
    + destruct H as (pre & addr & p & E & B). exists addr, p.
      destruct pre; [exact E | cbn in B; lia].
    + apply length_zero_iff_nil. rewrite H. now destruct (Decode mnemonic).
Qed.

Lemma quiet_check_logs_only_found_witness :
  log_records (snd (MP.check_mnemonic Demo.first_hits ["b"])) = [].
Proof.
  apply (proj1 (quiet_check_logs_only_found Demo.first_hits ["b"] eq_refl)).
Defined.

(** X4.  In the parallel file a check of a decodable mnemonic that returns
    False puts one record on the logger queue for every passphrase and every
    enabled scheme when [VERBOSE] is on, and none when it is off: the
    diagnostic text of a scheme run is accumulated and sent once, at the end
    of the run. *)
Theorem verbose_check_record_count {L : BipUtils} (cfg : Config L) (mnemonic : Bip39Mnemonic)
        (entropy : Entropy) :
  Decode mnemonic = Ok entropy ->
  fst (MP.check_mnemonic cfg mnemonic) = Ok false ->
  List.length (log_records (snd (MP.check_mnemonic cfg mnemonic)))
  = (List.length (MNEMONIC_PASSPHRASES cfg)
     * (bool_to_nat (BIP32_ENABLED cfg && VERBOSE cfg)
        + bool_to_nat (BIP44_ENABLED cfg && VERBOSE cfg)))%nat.
Proof.
  intros Hd Hr.
  pose proof (check_with_logs cfg _ _ MP_found _ _
                (MP_derive_bip32_logs cfg) (MP_derive_bip44_logs cfg) mnemonic) as H.
  rewrite <- MP_check_is_skeleton in H. rewrite Hr, Hd in H. exact H.
Qed.

Lemma verbose_check_record_count_witness :
  List.length (log_records (snd (MP.check_mnemonic Demo.shipped ["volcano"; "come"; "camp"])))
  = 4%nat.
Proof.
  apply (verbose_check_record_count Demo.shipped ["volcano"; "come"; "camp"] tt).
  - reflexivity.
  - vm_compute. reflexivity.
Defined.

(* ================================================================== *)
(** * The search of the single-flow file *)
(* ================================================================== *)

Section Find.
Context {L : BipUtils} (cfg : Config L).

Lemma find_loop_skips (pre rest : list (list string)) :
  (forall t, In t pre -> fst (ST.check_mnemonic cfg (FromList t)) = Ok false) ->
  fst (ST.find_mnemonic_loop cfg (pre ++ rest)) = fst (ST.find_mnemonic_loop cfg rest)
  /\ exists tr,
       snd (ST.find_mnemonic_loop cfg (pre ++ rest))
       = tr ++ snd (ST.find_mnemonic_loop cfg rest)
       /\ decoded tr = map FromList pre.
Proof.
  induction pre as [|t pre IH]; intros H.
  - split; [reflexivity|]. now exists [].
  - destruct IH as (Hr & tr & Ht & Hd); [intros t' Ht'; apply H; now right|].
    cbn [app ST.find_mnemonic_loop]. rewrite fst_bind, snd_bind.
    rewrite (H t (or_introl eq_refl)). split; [exact Hr|].
    exists (snd (ST.check_mnemonic cfg (FromList t)) ++ tr).
    rewrite Ht, app_assoc, decoded_app, ST_check_decoded, Hd. now split.
Qed.

End Find.

(** X5.  [find_mnemonic] reports the first candidate, in the order of the
    product, whose check returns True, and stops there: when the candidates
    before [t] all check False and [t] checks True, the function returns
    normally, it has decoded exactly the candidates up to [t], and the last
    thing it did is print "Found" for [t]; no later candidate is looked at. *)
Theorem find_mnemonic_reports_first_match {L : BipUtils} (cfg : Config L)
        (before : list (list string)) (t : list string) (after : list (list string)) :
  Py.product (MNEMONIC_WORDS cfg) = before ++ t :: after ->
  (forall t', In t' before -> fst (ST.check_mnemonic cfg (FromList t')) = Ok false) ->
  fst (ST.check_mnemonic cfg (FromList t)) = Ok true ->
  fst (ST.find_mnemonic cfg) = Ok tt
  /\ exists tr,
       snd (ST.find_mnemonic cfg) = tr ++ [EvPrint ("  Found: " +s+ ToStr (FromList t))]
       /\ decoded tr = map FromList (before ++ [t]).
Proof.
  intros Hp Hbefore Ht. unfold ST.find_mnemonic. rewrite Hp.
  destruct (find_loop_skips cfg before (t :: after) Hbefore) as (Hr & tr & Htr & Hd).
  rewrite Hr, Htr. cbn [ST.find_mnemonic_loop]. rewrite fst_bind, snd_bind, Ht.
  split; [reflexivity|].
  exists (tr ++ snd (ST.check_mnemonic cfg (FromList t))). split.
  - cbn [bind tell ret fst snd app]. now rewrite app_assoc.
  - now rewrite decoded_app, ST_check_decoded, Hd, map_app.
Qed.

Lemma find_mnemonic_reports_first_match_witness :
  fst (ST.find_mnemonic (Demo.scenario false)) = Ok tt.
Proof.
  apply (find_mnemonic_reports_first_match (Demo.scenario false) [["a"]] ["b"] []).
  - reflexivity.
  - intros t' [<-|[]]. vm_compute. reflexivity.
  - vm_compute. reflexivity.
Defined.

(** X6.  The decoder's exceptions other than the checksum error are not
    caught.  [check_mnemonic] (both files) raises exactly when the decoder
    raises such an exception, and then nothing was derived or logged;
    [find_mnemonic] ends with that exception at the first candidate that
    raises, the candidates after it never being decoded. *)
Theorem decoder_exception_propagates {L : BipUtils} (cfg : Config L) :
  (forall mnemonic e,
     (fst (MP.check_mnemonic cfg mnemonic) = Raise e <->
      Decode mnemonic = Raise e /\ e <> MnemonicChecksumError)
     /\ (fst (ST.check_mnemonic cfg mnemonic) = Raise e <->
         Decode mnemonic = Raise e /\ e <> MnemonicChecksumError)
     /\ (fst (MP.check_mnemonic cfg mnemonic) = Raise e ->
         snd (MP.check_mnemonic cfg mnemonic) = [EvDecode mnemonic]
         /\ snd (ST.check_mnemonic cfg mnemonic) = [EvDecode mnemonic]))
  /\
  (forall before t after e,
     Py.product (MNEMONIC_WORDS cfg) = before ++ t :: after ->
     (forall t', In t' before -> fst (ST.check_mnemonic cfg (FromList t')) = Ok false) ->
     fst (ST.check_mnemonic cfg (FromList t)) = Raise e ->
     fst (ST.find_mnemonic cfg) = Raise e
     /\ decoded (snd (ST.find_mnemonic cfg)) = map FromList (before ++ [t])).
Proof.
  assert (Hraise : forall mnemonic e,
             check_outcome cfg mnemonic = Raise e <->
             Decode mnemonic = Raise e /\ e <> MnemonicChecksumError).
  { intros mnemonic e. unfold check_outcome.
    destruct (Decode mnemonic) as [ent|[|]]; split;
      try discriminate; try (intros [E _]; discriminate E).
    - intros [E N]. injection E as <-. now elim N.
    - intros E. injection E as <-. split; [reflexivity | discriminate].
    - intros [E _]. injection E as <-. reflexivity. }
  split.
  - intros mnemonic e. rewrite MP_check_result, ST_check_result.
    split; [apply Hraise|]. split; [apply Hraise|].
    intros H. apply Hraise in H. destruct H as [Hd Hne].
    unfold MP.check_mnemonic, ST.check_mnemonic. rewrite Hd.
    destruct e; [now elim Hne | now split].
  - intros before t after e Hp Hbefore Ht. unfold ST.find_mnemonic. rewrite Hp.
    destruct (find_loop_skips cfg before (t :: after) Hbefore) as (Hr & tr & Htr & Hd).
    rewrite Hr, Htr. cbn [ST.find_mnemonic_loop]. rewrite fst_bind, snd_bind, Ht.
    split; [reflexivity|].
    cbn [ret snd]. rewrite app_nil_r, decoded_app, ST_check_decoded, Hd.
    now rewrite map_app.
Qed.

Lemma decoder_exception_propagates_witness :
  snd (MP.check_mnemonic Demo.shipped []) = [EvDecode ([] : @Bip39Mnemonic Demo.lib)].
Proof.
  apply (proj2 (proj2 (proj1 (decoder_exception_propagates Demo.shipped) [] ValueError))).
  reflexivity.
Defined.




(* ================================================================== *)
(** * The processes: queues, joins and the flag *)
(* ================================================================== *)

Section LoggerOrder.
Context {L : BipUtils} (cfg : Config L).

Local Abbreviation System := (@Sys.System L).

Lemma records_of_app (ms ms' : list Bip39Mnemonic) :
  records_of cfg (ms ++ ms') = records_of cfg ms ++ records_of cfg ms'.
Proof. unfold records_of. apply flat_map_app. Qed.

(** With one checker, the records written, held by the logger, queued and
    still to put are, in this order, the records of the candidates pulled. *)
Lemma step_single_order pid (s s' : System) w :
  Sys.step cfg pid s = Some s' ->
  Sys.checkers s = [w] ->
  log_stream s ++ pending_of [w] = records_of cfg (Sys.pulled (Sys.shared s)) ->
  exists w',
    Sys.checkers s' = [w']
    /\ log_stream s' ++ pending_of [w'] = records_of cfg (Sys.pulled (Sys.shared s')).
Proof.
  unfold Sys.step, log_stream. intros H Hw I. destruct pid as [|i| |].
  - exists w. destruct (Sys.logger s) as [| |msg|] eqn:Hl; cbn [Sys.logger_step] in H.
    + injection H as <-. cbn [Sys.shared Sys.logger Sys.checkers].
      split; [exact Hw|]. rewrite <- I. cbn [held].
      now destruct (Sys.stop_processing _).
    + unfold q_get in H.
      destruct (items (Sys.logger_queue (Sys.shared s))) as [|msg rest] eqn:Hq;
        injection H as <-; (split; [exact Hw|]);
        cbn [Sys.shared Sys.logger Sys.set_logger_queue Sys.log_file Sys.logger_queue
             Sys.pulled items held];
        rewrite <- I; cbn [held app]; rewrite ?Hq; reflexivity.
    + injection H as <-. split; [exact Hw|].
      cbn [Sys.shared Sys.logger Sys.set_logger_queue Sys.write_log Sys.log_file
           Sys.logger_queue Sys.pulled q_task_done items held].
      rewrite <- I. cbn [held app]. now rewrite <- !app_assoc.
    + discriminate H.
  - rewrite Hw in H. destruct i as [|i]; [|destruct i; discriminate H].
    cbn [nth_error Sys.update] in H.
    destruct (Sys.checker_step _ _ _) as [[sh pc]|] eqn:E; [|discriminate H].
    injection H as <-. cbn [Sys.shared Sys.logger Sys.checkers]. exists pc.
    split; [reflexivity|]. apply checker_step_move in E.
    destruct E as [| | |m rest q Hi Hg Hq|m msg pending r Hfull| | |];
      cbn [Sys.shared Sys.logger Sys.checkers Sys.pulled Sys.log_file Sys.logger_queue
           Sys.note_pulled Sys.set_mnemonic_queue Sys.set_logger_queue
           Sys.note_completed Sys.print Sys.set_stop q_put q_task_done items
           pending_of flat_map app] in I |- *;
      try exact I.
    + rewrite records_of_app, <- I. unfold records_of. cbn [flat_map].
      now rewrite !app_nil_r.
    + rewrite <- I, <- !app_assoc. reflexivity.
  - destruct (Sys.generator_step _ _) as [[sh pc]|] eqn:E; [|discriminate H].
    injection H as <-. cbn [Sys.shared Sys.logger Sys.checkers]. exists w.
    split; [exact Hw|].
    destruct (Sys.generator s) as [[|t rest]|m rest|]; cbn [Sys.generator_step] in E.
    + now injection E as <- <-.
    + destruct (Sys.stop_processing _); now injection E as <- <-.
    + destruct (q_full _); [discriminate E|]. now injection E as <- <-.
    + discriminate E.
  - destruct (Sys.main_step _) as [[sh pc]|] eqn:E; [|discriminate H].
    injection H as <-. cbn [Sys.shared Sys.logger Sys.checkers]. exists w.
    split; [exact Hw|].
    unfold Sys.main_step in E.
    destruct (Sys.main s); try (injection E as <- <-; exact I).
    + destruct (Sys.generator s); try discriminate E. now injection E as <- <-.
    + destruct (unfinished_tasks _); try discriminate E. now injection E as <- <-.
    + destruct (unfinished_tasks _); try discriminate E. now injection E as <- <-.
    + destruct (forallb _ _); try discriminate E. now injection E as <- <-.
    + destruct (Sys.logger s); try discriminate E. now injection E as <- <-.
    + discriminate E.
Qed.

Lemma steps_single_order (s s' : System) w :
  Sys.steps cfg s s' ->
  Sys.checkers s = [w] ->
  log_stream s ++ pending_of [w] = records_of cfg (Sys.pulled (Sys.shared s)) ->
  exists w',
    Sys.checkers s' = [w']
    /\ log_stream s' ++ pending_of [w'] = records_of cfg (Sys.pulled (Sys.shared s')).
Proof.
  intros Hsteps. revert w.
  induction Hsteps as [s|pid s s1 s2 H _ IH]; intros w Hw I; [now exists w|].
  destruct (step_single_order _ _ _ _ H Hw I) as (w1 & Hw1 & I1).
  exact (IH w1 Hw1 I1).
Qed.

End LoggerOrder.

(** X8.  With a single checker process (one producer on the logger queue:
    [check_single_mnemonic], or [check_all_mnemonics] with [PROCESS_NUM = 1])
    the log file is written in the order of the search: in every state of a
    run, the records written, the one held by the logger, those queued and
    those the checker has still to put are together, in this order, exactly
    the records [check_mnemonic] logs for the candidates pulled, in the order
    they were pulled; so the log file is a prefix of that sequence, no record
    overtaking another or being written twice, and it is all of it when
    nothing is queued, held or still to put. *)
Theorem single_checker_log_in_order {L : BipUtils} (cfg : Config L)
        (init s : Sys.System) :
  (init = Sys.check_all_mnemonics cfg /\ PROCESS_NUM cfg = 1)
  \/ (exists m0, init = Sys.check_single_mnemonic m0) ->
  Sys.steps cfg init s ->
  Sys.log_file (Sys.shared s) ++ held (Sys.logger s)
    ++ items (Sys.logger_queue (Sys.shared s)) ++ pending_of (Sys.checkers s)
  = records_of cfg (Sys.pulled (Sys.shared s))
  /\ (exists rest,
        records_of cfg (Sys.pulled (Sys.shared s)) = Sys.log_file (Sys.shared s) ++ rest)
  /\ (held (Sys.logger s) = [] ->
      items (Sys.logger_queue (Sys.shared s)) = [] ->
      pending_of (Sys.checkers s) = [] ->
      Sys.log_file (Sys.shared s) = records_of cfg (Sys.pulled (Sys.shared s))).
Proof.
  intros Hinit Hsteps.
  assert (H0 : Sys.checkers init = [Sys.WTest]
               /\ log_stream init ++ pending_of [Sys.WTest]
                  = records_of cfg (Sys.pulled (Sys.shared init))).
  { destruct Hinit as [[-> Hn]|[m0 ->]]; [|now split].
    unfold Sys.check_all_mnemonics. cbn [Sys.checkers]. rewrite Hn. now split. }
  destruct H0 as [Hw I].
  destruct (steps_single_order cfg _ _ _ Hsteps Hw I) as (w & Hw' & I').
  unfold log_stream in I'. rewrite Hw'. rewrite <- !app_assoc in I'.
  split; [exact I'|]. split.
  - rewrite <- I'. now eexists.
  - intros Hh Hq Hp. rewrite <- I', Hh, Hq, Hp. now rewrite !app_nil_r.
Qed.

Lemma single_checker_log_in_order_witness :
  exists s,
    Sys.run Demo.first_hits
      [Sys.PGenerator; Sys.PGenerator; Sys.PChecker 0; Sys.PChecker 0; Sys.PChecker 0;
       Sys.PLogger; Sys.PLogger; Sys.PLogger]
      (Sys.check_all_mnemonics Demo.first_hits) = Some s
    /\ Sys.log_file (Sys.shared s) <> []
    /\ Sys.log_file (Sys.shared s)
       = records_of Demo.first_hits (Sys.pulled (Sys.shared s)).
Proof.
  destruct (Sys.run Demo.first_hits _ (Sys.check_all_mnemonics Demo.first_hits))
    as [s|] eqn:E; [|vm_compute in E; discriminate E].
  exists s. split; [reflexivity|].
  pose proof (run_steps Demo.first_hits _ _ _ E) as Hsteps.
  vm_compute in E. injection E as E.
  split; [rewrite <- E; discriminate|].
  apply (proj2 (proj2 (single_checker_log_in_order Demo.first_hits
                         (Sys.check_all_mnemonics Demo.first_hits) s
                         (or_introl (conj eq_refl eq_refl)) Hsteps)));
    rewrite <- E; reflexivity.
Defined.
Section JoinAccounting.
Context {L : BipUtils} (cfg : Config L).

Local Abbreviation System := (@Sys.System L).

Lemma in_flight_length_update (ws : list (@Sys.CheckerPc L)) i w pc :
  nth_error ws i = Some w ->
  (List.length (Sys.in_flight (Sys.update i pc ws)) + List.length (flight w)
   = List.length (Sys.in_flight ws) + List.length (flight pc))%nat.
Proof.
  intros H. pose proof (Permutation_length (in_flight_update ws i w pc H)) as P.
  now rewrite !length_app in P.
Qed.

Lemma in_flight_nil_update (ws : list (@Sys.CheckerPc L)) i w pc :
  nth_error ws i = Some w -> Sys.in_flight ws = [] ->
  flight w = [] /\ (flight pc = [] -> Sys.in_flight (Sys.update i pc ws) = []).
Proof.
  intros H Hnil.
  assert (Hw : flight w = []).
  { apply nth_error_In in H. unfold Sys.in_flight in Hnil.
    destruct (flight w) as [|m fl] eqn:E; [reflexivity|].
    assert (Hin : In m (flat_map
                          (fun pc0 => match pc0 with
                                      | Sys.WChecking m0 _ _ => [m0]
                                      | _ => []
                                      end) ws)).
    { apply in_flat_map. exists w. split; [exact H|].
      fold (flight w). rewrite E. now left. }
    rewrite Hnil in Hin. destruct Hin. }
  split; [exact Hw|].
  pose proof (in_flight_length_update ws i w pc H) as P.
  rewrite Hnil, Hw in P. cbn [List.length] in P.
  intros Hpc. rewrite Hpc in P. cbn [List.length] in P.
  apply length_zero_iff_nil. lia.
Qed.

Lemma unmarked_app done (m : Bip39Mnemonic) (r : Result bool) :
  unmarked (done ++ [(m, r)]) = (unmarked done + bool_to_nat (negb (no_match r)))%nat.
Proof.
  unfold unmarked. rewrite filter_app, length_app. cbn [filter snd].
  now destruct (no_match r).
Qed.

Lemma past_logger_candidate pc : past_logger_join pc = true -> past_candidate_join pc = true.
Proof. now destruct pc. Qed.

Ltac five := split; [|split; [|split; [|split]]].

Ltac absurd_flight Hcj Pnil :=
  let Hp := fresh "Hp" in
  let N := fresh "N" in
  let F := fresh "F" in
  intros Hp; destruct (Hcj Hp) as (_ & N & _); destruct (Pnil N) as [F _]; discriminate F.

Lemma step_joins_accounted pid (s s' : System) :
  Sys.step cfg pid s = Some s' -> joins_accounted s -> joins_accounted s'.
Proof.
  unfold Sys.step, joins_accounted. intros H (Amq & Alq & Hgen & Hcj & Hlj).
  destruct pid as [|i| |].
  - (* the logger *)
    destruct (Sys.logger s) as [| |msg|] eqn:Hl; cbn [Sys.logger_step] in H.
    + injection H as <-. cbn [Sys.shared Sys.logger Sys.checkers Sys.generator Sys.main] in *.
      assert (Hh : held (if Sys.stop_processing (Sys.shared s) then Sys.LExited else Sys.LGet)
                   = []) by now destruct (Sys.stop_processing _).
      rewrite Hh. five; assumption.
    + unfold q_get in H.
      destruct (items (Sys.logger_queue (Sys.shared s))) as [|msg rest] eqn:Hq;
        injection H as <-;
        cbn [Sys.shared Sys.logger Sys.checkers Sys.generator Sys.main held
             Sys.set_logger_queue Sys.mnemonic_queue Sys.logger_queue Sys.completed
             items unfinished_tasks List.length] in *.
      * rewrite Hq. five; assumption.
      * five; try assumption.
        -- rewrite Alq. lia.
        -- intros Hp. destruct (Hlj Hp) as [E _]. discriminate E.
    + injection H as <-.
      cbn [Sys.shared Sys.logger Sys.checkers Sys.generator Sys.main held
           Sys.set_logger_queue Sys.write_log Sys.mnemonic_queue Sys.logger_queue
           Sys.completed q_task_done items unfinished_tasks List.length] in *.
      five; try assumption.
      * rewrite Alq. lia.
      * intros Hp. destruct (Hlj Hp) as [_ E]. discriminate E.
    + discriminate H.
  - (* a checker *)
    destruct (nth_error _ i) as [w|] eqn:Hw; [|discriminate H].
    destruct (Sys.checker_step _ _ _) as [[sh pc]|] eqn:E; [|discriminate H].
    injection H as <-.
    cbn [Sys.shared Sys.logger Sys.checkers Sys.generator Sys.main] in *.
    apply checker_step_move in E.
    pose proof (in_flight_length_update (Sys.checkers s) i w pc Hw) as Plen.
    pose proof (fun N => in_flight_nil_update (Sys.checkers s) i w pc Hw N) as Pnil.
    destruct E as [Hs|Hs|Hq|m rest q Hit Hget Hq|m msg pending r Hfull|m|m|m e];
      cbn [Sys.pulled Sys.completed Sys.set_stop Sys.print Sys.note_completed
           Sys.note_pulled Sys.set_mnemonic_queue Sys.set_logger_queue
           Sys.mnemonic_queue Sys.logger_queue flight List.length
           q_put q_task_done items unfinished_tasks] in *.
    + five; try assumption.
      * rewrite Amq. lia.
      * intros Hp. destruct (Hcj Hp) as (A & N & C). repeat split; try assumption.
        now apply (Pnil N).
    + five; try assumption.
      * rewrite Amq. lia.
      * intros Hp. destruct (Hcj Hp) as (A & N & C). repeat split; try assumption.
        now apply (Pnil N).
    + five; try assumption.
      * rewrite Amq. lia.
      * intros Hp. destruct (Hcj Hp) as (A & N & C). repeat split; try assumption.
        now apply (Pnil N).
    + unfold q_get in Hget. rewrite Hit in Hget. injection Hget as <-.
      cbn [items unfinished_tasks] in *.
      five; try assumption.
      * rewrite Amq, Hit. cbn [List.length]. lia.
      * intros Hp. destruct (Hcj Hp) as (N & _). rewrite Hit in N. discriminate N.
    + five; try assumption.
      * rewrite Amq. lia.
      * rewrite Alq, length_app. cbn [List.length]. lia.
      * absurd_flight Hcj Pnil.
      * intros Hp. destruct (Hcj (past_logger_candidate _ Hp)) as (_ & N & _).
        destruct (Pnil N) as [F _]. discriminate F.
    + rewrite unmarked_app. cbn [no_match negb bool_to_nat].
      five; try assumption.
      * rewrite Amq. lia.
      * absurd_flight Hcj Pnil.
    + rewrite unmarked_app. cbn [no_match negb bool_to_nat].
      five; try assumption.
      * rewrite Amq. lia.
      * absurd_flight Hcj Pnil.
    + rewrite unmarked_app. cbn [no_match negb bool_to_nat].
      five; try assumption.
      * rewrite Amq. lia.
      * absurd_flight Hcj Pnil.
  - (* the generator *)
    assert (Hm : Sys.main s = Sys.MJoinGenerator).
    { destruct (Sys.main s) eqn:Em; try reflexivity;
        rewrite Hgen in H by discriminate; discriminate H. }
    destruct (Sys.generator_step _ _) as [[sh pc]|] eqn:E; [|discriminate H].
    injection H as <-.
    cbn [Sys.shared Sys.logger Sys.checkers Sys.generator Sys.main] in *.
    rewrite Hm in *. cbn [past_candidate_join past_logger_join] in *.
    assert (Hsh : unfinished_tasks (Sys.mnemonic_queue sh)
                  = (List.length (items (Sys.mnemonic_queue sh))
                     + List.length (Sys.in_flight (Sys.checkers s))
                     + unmarked (Sys.completed sh))%nat
                  /\ Sys.logger_queue sh = Sys.logger_queue (Sys.shared s)).
    { destruct (Sys.generator s) as [[|t rest]|m rest|]; cbn [Sys.generator_step] in E.
      - injection E as <- <-. now split.
      - destruct (Sys.stop_processing _); injection E as <- <-; now split.
      - destruct (q_full _); [discriminate E|]. injection E as <- <-.
        cbn [Sys.mnemonic_queue Sys.note_generated Sys.set_mnemonic_queue q_put items
             unfinished_tasks Sys.completed Sys.logger_queue].
        split; [|reflexivity]. rewrite Amq, length_app. cbn [List.length]. lia.
      - discriminate E. }
    destruct Hsh as [Hsh ->].
    five; try assumption; try discriminate. intros N. now elim N.
  - (* the parent *)
    destruct (Sys.main_step _) as [[sh pc]|] eqn:E; [|discriminate H].
    injection H as <-.
    cbn [Sys.shared Sys.logger Sys.checkers Sys.generator Sys.main] in *.
    unfold Sys.main_step in E.
    destruct (Sys.main s) eqn:Em; cbn [past_candidate_join past_logger_join] in *.
    + destruct (Sys.generator s) eqn:Eg; try discriminate E. injection E as <- <-.
      cbn [past_candidate_join past_logger_join].
      five; try assumption; try discriminate. reflexivity.
    + destruct (unfinished_tasks (Sys.mnemonic_queue (Sys.shared s))) eqn:Eu;
        try discriminate E. injection E as <- <-.
      cbn [past_candidate_join past_logger_join].
      five; try assumption; try discriminate.
      * now rewrite Eu.
      * intros _. apply Hgen. discriminate.
      * intros _. repeat split.
        -- apply length_zero_iff_nil. lia.
        -- apply length_zero_iff_nil. lia.
        -- lia.
    + destruct (unfinished_tasks (Sys.logger_queue (Sys.shared s))) eqn:Eu;
        try discriminate E. injection E as <- <-.
      cbn [past_candidate_join past_logger_join].
      five; try assumption.
      * now rewrite Eu.
      * intros _. apply Hgen. discriminate.
      * intros _. split; apply length_zero_iff_nil; lia.
    + injection E as <- <-. cbn [past_candidate_join past_logger_join Sys.set_stop
                                   Sys.mnemonic_queue Sys.logger_queue Sys.completed].
      five; try assumption.
      intros _. apply Hgen. discriminate.
    + destruct (forallb _ _); try discriminate E. injection E as <- <-.
      cbn [past_candidate_join past_logger_join].
      five; try assumption.
      intros _. apply Hgen. discriminate.
    + destruct (Sys.logger s); try discriminate E. injection E as <- <-.
      cbn [past_candidate_join past_logger_join].
      five; try assumption.
      intros _. apply Hgen. discriminate.
    + discriminate E.
Qed.

Lemma steps_joins_accounted (s s' : System) :
  Sys.steps cfg s s' -> joins_accounted s -> joins_accounted s'.
Proof.
  induction 1 as [|pid s s1 s2 H _ IH]; intros I; [exact I|].
  apply IH. eapply step_joins_accounted; eassumption.
Qed.

Lemma initial_joins_accounted (init : System) :
  init = Sys.check_all_mnemonics cfg \/ (exists m, init = Sys.check_single_mnemonic m) ->
  joins_accounted init.
Proof.
  intros [->|[m ->]]; unfold joins_accounted.
  - destruct (fresh_checkers cfg (Py.range (PROCESS_NUM cfg))) as [F _].
    cbn [Sys.check_all_mnemonics Sys.shared Sys.checkers Sys.logger Sys.main
         Sys.generator Sys.initial_shared Sys.mnemonic_queue Sys.logger_queue
         Sys.completed q_new items unfinished_tasks held
         past_candidate_join past_logger_join].
    rewrite F. five; try reflexivity; try discriminate. intros N. now elim N.
  - cbn. five; try reflexivity; discriminate.
Qed.

Lemma unmarked_match done (m : Bip39Mnemonic) (r : Result bool) :
  In (m, r) done -> no_match r = false -> (0 < unmarked done)%nat.
Proof.
  intros Hin Hr. unfold unmarked.
  assert (Hf : In (m, r) (filter (fun mr => negb (no_match (snd mr))) done)).
  { apply filter_In. split; [exact Hin|]. cbn [snd]. now rewrite Hr. }
  destruct (filter _ done); [destruct Hf | cbn [List.length]; lia].
Qed.


(** ** The flag and the terminal *)

Lemma step_flag_justified pid (s s' : System) :
  Sys.step cfg pid s = Some s' -> flag_justified s -> flag_justified s'.
Proof.
  unfold Sys.step, flag_justified. intros H [Hflag Hout]. destruct pid as [|i| |].
  - destruct (Sys.logger s) as [| |msg|] eqn:Hl; cbn [Sys.logger_step] in H.
    + injection H as <-. split; assumption.
    + unfold q_get in H.
      destruct (items (Sys.logger_queue (Sys.shared s))); injection H as <-; split; assumption.
    + injection H as <-. split; assumption.
    + discriminate H.
  - destruct (nth_error _ i) as [w|] eqn:Hw; [|discriminate H].
    destruct (Sys.checker_step _ _ _) as [[sh pc]|] eqn:E; [|discriminate H].
    injection H as <-. cbn [Sys.shared Sys.main]. apply checker_step_move in E.
    destruct E as [Hs|Hs|Hq|m rest q Hit Hget Hq|m msg pending r Hfull|m|m|m e];
      cbn [Sys.stop_processing Sys.completed Sys.stdout Sys.set_stop Sys.print
           Sys.note_completed Sys.note_pulled Sys.set_mnemonic_queue
           Sys.set_logger_queue]; try (split; assumption).
    + split.
      * intros _. right. exists m. apply in_or_app. right. now left.
      * rewrite filter_app, map_app, Hout. reflexivity.
    + split.
      * intros Hs. destruct (Hflag Hs) as [P|[m0 Hin]]; [now left|].
        right. exists m0. apply in_or_app. now left.
      * rewrite filter_app, map_app, Hout. cbn. now rewrite app_nil_r.
    + split.
      * intros Hs. destruct (Hflag Hs) as [P|[m0 Hin]]; [now left|].
        right. exists m0. apply in_or_app. now left.
      * rewrite filter_app, map_app, Hout. cbn. now rewrite app_nil_r.
  - destruct (Sys.generator_step _ _) as [[sh pc]|] eqn:E; [|discriminate H].
    injection H as <-. cbn [Sys.shared Sys.main].
    destruct (Sys.generator s) as [[|t rest]|m rest|]; cbn [Sys.generator_step] in E.
    + injection E as <- <-. split; assumption.
    + assert (Esh : sh = Sys.shared s)
        by (destruct (Sys.stop_processing (Sys.shared s)); now injection E).
      subst sh. split; assumption.
    + destruct (q_full _); [discriminate E|]. injection E as <- <-. split; assumption.
    + discriminate E.
  - destruct (Sys.main_step _) as [[sh pc]|] eqn:E; [|discriminate H].
    injection H as <-. cbn [Sys.shared Sys.main]. unfold Sys.main_step in E.
    destruct (Sys.main s) eqn:Em; cbn [past_set_stop] in *.
    + destruct (Sys.generator s); try discriminate E. injection E as <- <-. split; assumption.
    + destruct (unfinished_tasks _); try discriminate E. injection E as <- <-. split; assumption.
    + destruct (unfinished_tasks _); try discriminate E. injection E as <- <-. split; assumption.
    + injection E as <- <-. split; [now left | exact Hout].
    + destruct (forallb _ _); try discriminate E. injection E as <- <-.
      split; [now left | exact Hout].
    + destruct (Sys.logger s); try discriminate E. injection E as <- <-.
      split; [now left | exact Hout].
    + discriminate E.
Qed.

Lemma steps_flag_justified (s s' : System) :
  Sys.steps cfg s s' -> flag_justified s -> flag_justified s'.
Proof.
  induction 1 as [|pid s s1 s2 H _ IH]; intros I; [exact I|].
  apply IH. eapply step_flag_justified; eassumption.
Qed.

Lemma initial_flag_justified (init : System) :
  init = Sys.check_all_mnemonics cfg \/ (exists m, init = Sys.check_single_mnemonic m) ->
  flag_justified init.
Proof. intros [->|[m ->]]; split; try reflexivity; discriminate. Qed.

(** ** The whole product is generated before the parent passes the join *)



(** ** Capacities *)

Lemma within_capacity_put {A} (x : A) (q : JoinableQueue A) :
  q_full q = false -> within_capacity q -> within_capacity (q_put x q).
Proof.
  unfold q_full, within_capacity, q_put, Py.len. cbn [items maxsize].
  intros Hfull Hq Hpos. specialize (Hq Hpos). rewrite length_app. cbn [List.length].
  apply andb_false_iff in Hfull. destruct Hfull as [Hf|Hf].
  - apply Z.ltb_ge in Hf. lia.
  - apply Z.leb_gt in Hf. unfold Py.len in Hf. lia.
Qed.

Lemma within_capacity_shrink {A} (q q' : JoinableQueue A) :
  maxsize q' = maxsize q ->
  (List.length (items q') <= List.length (items q))%nat ->
  within_capacity q -> within_capacity q'.
Proof.
  unfold within_capacity, Py.len. intros -> Hlen Hq Hpos. specialize (Hq Hpos). lia.
Qed.

Lemma step_queues_bounded pid (s s' : System) :
  Sys.step cfg pid s = Some s' -> queues_bounded cfg s -> queues_bounded cfg s'.
Proof.
  unfold Sys.step, queues_bounded. intros H (Bm & Bl & Mm & Ml). destruct pid as [|i| |].
  - destruct (Sys.logger s) as [| |msg|] eqn:Hl; cbn [Sys.logger_step] in H.
    + injection H as <-. now repeat split.
    + unfold q_get in H.
      destruct (items (Sys.logger_queue (Sys.shared s))) as [|msg rest] eqn:Hq;
        injection H as <-; cbn [Sys.shared Sys.set_logger_queue Sys.mnemonic_queue
                                Sys.logger_queue maxsize]; repeat split; try assumption.
      apply (within_capacity_shrink (Sys.logger_queue (Sys.shared s)));
        [reflexivity | cbn [items]; rewrite Hq; cbn [List.length]; lia | exact Bl].
    + injection H as <-. now repeat split.
    + discriminate H.
  - destruct (nth_error _ i) as [w|] eqn:Hw; [|discriminate H].
    destruct (Sys.checker_step _ _ _) as [[sh pc]|] eqn:E; [|discriminate H].
    injection H as <-. cbn [Sys.shared]. apply checker_step_move in E.
    destruct E as [Hs|Hs|Hq|m rest q Hit Hget Hq|m msg pending r Hfull|m|m|m e];
      cbn [Sys.set_stop Sys.print Sys.note_completed Sys.note_pulled
           Sys.set_mnemonic_queue Sys.set_logger_queue Sys.mnemonic_queue
           Sys.logger_queue q_task_done]; try (now repeat split).
    + unfold q_get in Hget. rewrite Hit in Hget. injection Hget as <-.
      cbn [maxsize]. repeat split; try assumption.
      apply (within_capacity_shrink (Sys.mnemonic_queue (Sys.shared s)));
        [reflexivity | cbn [items]; rewrite Hit; cbn [List.length]; lia | exact Bm].
    + repeat split; try assumption. now apply within_capacity_put.
  - destruct (Sys.generator_step _ _) as [[sh pc]|] eqn:E; [|discriminate H].
    injection H as <-. cbn [Sys.shared].
    destruct (Sys.generator s) as [[|t rest]|m rest|]; cbn [Sys.generator_step] in E.
    + injection E as <- <-. now repeat split.
    + destruct (Sys.stop_processing _); injection E as <- <-; now repeat split.
    + destruct (q_full _) eqn:Hfull; [discriminate E|]. injection E as <- <-.
      cbn [Sys.note_generated Sys.set_mnemonic_queue Sys.mnemonic_queue Sys.logger_queue].
      repeat split; try assumption. now apply within_capacity_put.
    + discriminate E.
  - destruct (Sys.main_step _) as [[sh pc]|] eqn:E; [|discriminate H].
    injection H as <-. cbn [Sys.shared]. unfold Sys.main_step in E.
    destruct (Sys.main s).
    + destruct (Sys.generator s); try discriminate E. injection E as <- <-. now repeat split.
    + destruct (unfinished_tasks _); try discriminate E. injection E as <- <-. now repeat split.
    + destruct (unfinished_tasks _); try discriminate E. injection E as <- <-. now repeat split.
    + injection E as <- <-. now repeat split.
    + destruct (forallb _ _); try discriminate E. injection E as <- <-. now repeat split.
    + destruct (Sys.logger s); try discriminate E. injection E as <- <-. now repeat split.
    + discriminate E.
Qed.

(** ** All the invariants, along a run of [check_all_mnemonics] *)



Lemma reach_either (init s : System) :
  init = Sys.check_all_mnemonics cfg \/ (exists m, init = Sys.check_single_mnemonic m) ->
  Sys.steps cfg init s ->
  fifo s /\ accounted cfg s /\ joins_accounted s /\ flag_justified s.
Proof.
  intros Hinit Hsteps.
  split; [|split; [|split]].
  - apply (steps_fifo cfg _ _ Hsteps).
    destruct Hinit as [->|[m ->]];
      [exact (proj1 (check_all_initial cfg)) | exact (proj1 (check_single_initial cfg m))].
  - apply (steps_accounted cfg _ _ Hsteps).
    destruct Hinit as [->|[m ->]];
      [exact (proj1 (proj2 (check_all_initial cfg)))
      | exact (proj2 (check_single_initial cfg m))].
  - apply (steps_joins_accounted _ _ Hsteps). now apply initial_joins_accounted.
  - apply (steps_flag_justified _ _ Hsteps). now apply initial_flag_justified.
Qed.


Lemma step_completed_keeps pid (s s' : System) mr :
  Sys.step cfg pid s = Some s' ->
  In mr (Sys.completed (Sys.shared s)) -> In mr (Sys.completed (Sys.shared s')).
Proof.
  intros H Hin. unfold Sys.step in H. destruct pid as [|i| |].
  - destruct (Sys.logger_step _ _) as [[sh pc]|] eqn:E; [|discriminate H].
    injection H as <-. apply logger_step_frame in E.
    destruct E as (_ & _ & _ & _ & Ec). cbn. now rewrite Ec.
  - destruct (nth_error _ i) as [w|]; [|discriminate H].
    destruct (Sys.checker_step _ _ _) as [[sh pc]|] eqn:E; [|discriminate H].
    injection H as <-. apply checker_step_move in E.
    destruct E; cbn; try exact Hin; apply in_or_app; now left.
  - destruct (Sys.generator_step _ _) as [[sh pc]|] eqn:E; [|discriminate H].
    injection H as <-. apply generator_step_frame in E.
    destruct E as (_ & _ & Ec & _). cbn. now rewrite Ec.
  - destruct (Sys.main_step _) as [[sh pc]|] eqn:E; [|discriminate H].
    injection H as <-. apply main_step_frame in E.
    destruct E as (_ & _ & _ & _ & Ec & _). cbn. now rewrite Ec.
Qed.

Lemma steps_completed_keeps (s s' : System) mr :
  Sys.steps cfg s s' ->
  In mr (Sys.completed (Sys.shared s)) -> In mr (Sys.completed (Sys.shared s')).
Proof.
  induction 1 as [|pid a b c H _ IH]; [trivial|].
  intros Hin. apply IH. eapply step_completed_keeps; eassumption.
Qed.

End JoinAccounting.



(** X10.  After a check has ended with a match or with an exception the
    parent never returns: the task of that candidate is never marked done,
    so [check_all_mnemonics] and [check_single_mnemonic] stay in
    [mnemonic_gen_process.join()] or [mnemonic_queue.join()] in every state
    that can follow. *)
Theorem parent_never_returns_after_match {L : BipUtils} (cfg : Config L)
        (init s : Sys.System) (m : Bip39Mnemonic) (r : Result bool) :
  init = Sys.check_all_mnemonics cfg \/ (exists m0, init = Sys.check_single_mnemonic m0) ->
  Sys.steps cfg init s ->
  In (m, r) (Sys.completed (Sys.shared s)) ->
  r <> Ok false ->
  (Sys.main s = Sys.MJoinGenerator \/ Sys.main s = Sys.MJoinMnemonicQueue)
  /\ (0 < unfinished_tasks (Sys.mnemonic_queue (Sys.shared s)))%nat
  /\ forall s', Sys.steps cfg s s' -> Sys.main s' <> Sys.MReturned.
Proof.
  intros Hinit Hsteps Hin Hr.
  assert (Hnm : no_match r = false) by (destruct r as [[|]|e]; try reflexivity; now elim Hr).
  assert (Hblocked : forall s1, Sys.steps cfg init s1 ->
                                In (m, r) (Sys.completed (Sys.shared s1)) ->
                                past_candidate_join (Sys.main s1) = false
                                /\ (0 < unfinished_tasks
                                          (Sys.mnemonic_queue (Sys.shared s1)))%nat).
  { intros s1 Hs1 Hin1.
    destruct (reach_either cfg init s1 Hinit Hs1) as (_ & _ & J & _).
    destruct J as (Amq & _ & _ & Hcj & _).
    pose proof (unmarked_match _ m r Hin1 Hnm) as Hpos.
    split; [|lia].
    destruct (past_candidate_join (Sys.main s1)); [|reflexivity].
    destruct (Hcj eq_refl) as (_ & _ & Hun). lia. }
  destruct (Hblocked s Hsteps Hin) as [Hp Hpos].
  split; [|split; [exact Hpos|]].
  - destruct (Sys.main s); try discriminate Hp; [now left | now right].
  - intros s' Hs' Hret.
    assert (Hreach : Sys.steps cfg init s').
    { clear - Hsteps Hs'. induction Hsteps as [|pid a b c H _ IH]; [exact Hs'|].
      econstructor; [exact H | now apply IH]. }
    assert (Hin' : In (m, r) (Sys.completed (Sys.shared s')))
      by exact (steps_completed_keeps cfg s s' _ Hs' Hin).
    destruct (Hblocked s' Hreach Hin') as [Hp' _].
    rewrite Hret in Hp'. discriminate Hp'.
Qed.

Lemma parent_never_returns_after_match_witness :
  exists s,
    Sys.run Demo.first_hits
      [Sys.PGenerator; Sys.PGenerator; Sys.PChecker 0; Sys.PChecker 0; Sys.PChecker 0;
       Sys.PChecker 0; Sys.PGenerator; Sys.PMain]
      (Sys.check_all_mnemonics Demo.first_hits) = Some s
    /\ In (FromList ["a"], Ok true) (Sys.completed (Sys.shared s))
    /\ (0 < unfinished_tasks (Sys.mnemonic_queue (Sys.shared s)))%nat.
Proof.
  destruct (Sys.run Demo.first_hits _ (Sys.check_all_mnemonics Demo.first_hits))
    as [s|] eqn:E; [|vm_compute in E; discriminate E].
  exists s. split; [reflexivity|].
  assert (Hin : In (FromList ["a"], Ok true) (Sys.completed (Sys.shared s))).
  { vm_compute in E. injection E as <-. now left. }
  split; [exact Hin|].
  apply (parent_never_returns_after_match Demo.first_hits
           (Sys.check_all_mnemonics Demo.first_hits) s (FromList ["a"]) (Ok true)
           (or_introl eq_refl) (run_steps Demo.first_hits _ _ _ E) Hin).
  discriminate.
Defined.



(** X12.  The queues of [check_all_mnemonics] never hold more than the
    configured sizes: with a positive [MNEMONIC_QUEUE_MAX_SIZE] the candidate
    queue has at most that many items in every state of a run, and likewise
    the logger queue with [LOG_QUEUE_MAX_SIZE]. *)
Theorem queues_within_capacity {L : BipUtils} (cfg : Config L) (s : Sys.System) :
  Sys.steps cfg (Sys.check_all_mnemonics cfg) s ->
  (0 < MNEMONIC_QUEUE_MAX_SIZE cfg ->
   Py.len (items (Sys.mnemonic_queue (Sys.shared s))) <= MNEMONIC_QUEUE_MAX_SIZE cfg)
  /\ (0 < LOG_QUEUE_MAX_SIZE cfg ->
      Py.len (items (Sys.logger_queue (Sys.shared s))) <= LOG_QUEUE_MAX_SIZE cfg).
Proof.
  intros Hsteps.
  assert (Hlift : forall s0, Sys.steps cfg s0 s ->
                             queues_bounded cfg s0 -> queues_bounded cfg s).
  { clear Hsteps. intros s0 H. induction H as [|pid a b c H _ IH]; [trivial|].
    intros B0. apply IH. eapply step_queues_bounded; eassumption. }
  assert (B : queues_bounded cfg s).
  { apply (Hlift _ Hsteps).
    unfold queues_bounded, within_capacity, Py.len. cbn. repeat split; lia. }
  destruct B as (Bm & Bl & Mm & Ml). unfold within_capacity in *.
  rewrite Mm in Bm. rewrite Ml in Bl. now split.
Qed.

Lemma queues_within_capacity_witness :
  exists s,
    Sys.run no_target [Sys.PGenerator; Sys.PGenerator; Sys.PGenerator]
      (Sys.check_all_mnemonics no_target) = Some s
    /\ Py.len (items (Sys.mnemonic_queue (Sys.shared s))) <= 1.
Proof.
  destruct (Sys.run no_target _ (Sys.check_all_mnemonics no_target)) as [s|] eqn:E;
    [|vm_compute in E; discriminate E].
  exists s. split; [reflexivity|].
  apply (proj1 (queues_within_capacity no_target s (run_steps no_target _ _ _ E))).
  reflexivity.
Defined.
